(** * MergeTranslationFiles.py: width merging by surgical text patching

    A shallow embedding of [src/MergeTranslationFiles.py].  The program is
    driven by eight regular expressions; they are kept here as data, in a
    small regular-expression syntax, and run by a backtracking matcher that
    follows the search order of Python's [re] module (alternatives left to
    right, greedy repetition longest first, lazy repetition shortest first,
    [search] and [finditer] leftmost first).  The two functions of the
    program are then transcribed statement by statement on top of it.

    Text is a list of characters; a character is a code point below 256
    (the Latin-1 range of the decoded file). *)

From stdpp Require Import gmap strings list.
From Stdlib Require Import Ascii.
From Stdlib Require DecimalString.

Local Open Scope nat_scope.
Local Open Scope list_scope.

(** ** Text *)

Definition text := list ascii.

(** The double quote character. *)
Definition dq : ascii := "034"%char.
(** Line feed. *)
Definition lf : ascii := "010"%char.

Definition lit (s : string) : text := String.list_ascii_of_string s.
Arguments lit s%_string.

(** [xml s] reads [s] with every apostrophe standing for a double quote, so
    that documents can be written down legibly. *)
Definition xml (s : string) : text :=
  map (fun c => if Ascii.eqb c "'"%char then dq else c) (lit s).
Arguments xml s%_string.

(** Python's [s[i:j]] for [0 <= i]. *)
Definition slice (s : text) (i j : nat) : text := take (j - i) (drop i s).

(** ** Character classes of Python's [re] on [str] patterns *)

Definition in_range (lo hi : nat) (c : ascii) : bool :=
  (lo <=? nat_of_ascii c) && (nat_of_ascii c <=? hi).

(** [\w]: alphanumeric or underscore. *)
Definition is_word (c : ascii) : bool :=
  in_range 48 57 c || in_range 65 90 c || in_range 95 95 c ||
  in_range 97 122 c || in_range 170 170 c || in_range 178 179 c ||
  in_range 181 181 c || in_range 185 186 c || in_range 188 190 c ||
  in_range 192 214 c || in_range 216 246 c || in_range 248 255 c.

(** [\s]: whitespace. *)
Definition is_space (c : ascii) : bool :=
  in_range 9 13 c || in_range 28 32 c || in_range 133 133 c ||
  in_range 160 160 c.

Definition word_opt (o : option ascii) : bool :=
  match o with Some c => is_word c | None => false end.

(** [\b] holds between [p] and [n] when exactly one side is a word
    character; the outside of the string counts as a non-word. *)
Definition boundary (p n : option ascii) : bool := xorb (word_opt p) (word_opt n).

(** ** Regular expressions *)

Inductive cclass :=
| CNot (c : ascii)   (* [^c] *)
| CSpace.            (* \s   *)

Definition cls (k : cclass) (c : ascii) : bool :=
  match k with
  | CNot x => negb (Ascii.eqb c x)
  | CSpace => is_space c
  end.

Inductive re :=
| Str (s : text)         (* literal text            *)
| Bnd                    (* \b                      *)
| Eos                    (* $                       *)
| Star (k : cclass)      (* k*   greedy             *)
| Plus (k : cclass)      (* k+   greedy             *)
| LStar (k : cclass)     (* k*?  lazy               *)
| Opt (r : re)           (* r?   greedy             *)
| Cat (r1 r2 : re)       (* r1 r2                   *)
| Alt (r1 r2 : re)       (* r1|r2                   *)
| Grp (i : nat) (r : re). (* capturing group number i *)

Infix "+>" := Cat (at level 60, right associativity).

(** ** The matcher *)

(** A position in the subject: offset, character before it, text after it. *)
Record cursor := Cursor { pos : nat; prev : option ascii; rest : text }.

(** Spans of the capturing groups, most recent first. *)
Definition caps := list (nat * (nat * nat)).

Definition cont := cursor -> caps -> option (cursor * caps).

Definition orelse {A} (x y : option A) : option A :=
  match x with Some _ => x | None => y end.

Fixpoint eat (s : text) (c : cursor) : option cursor :=
  match s with
  | [] => Some c
  | a :: s' =>
      match rest c with
      | b :: r' =>
          if Ascii.eqb a b then eat s' (Cursor (S (pos c)) (Some b) r') else None
      | [] => None
      end
  end.

(** Greedy repetition: take one more character first, fall back to stopping. *)
Fixpoint star_greedy {A} (p : ascii -> bool) (n : nat) (pv : option ascii)
    (r : text) (k : cursor -> option A) : option A :=
  match r with
  | b :: r' =>
      if p b then orelse (star_greedy p (S n) (Some b) r' k) (k (Cursor n pv r))
      else k (Cursor n pv r)
  | [] => k (Cursor n pv [])
  end.

(** Lazy repetition: stop first, fall back to taking one more character. *)
Fixpoint star_lazy {A} (p : ascii -> bool) (n : nat) (pv : option ascii)
    (r : text) (k : cursor -> option A) : option A :=
  match r with
  | b :: r' =>
      if p b then orelse (k (Cursor n pv r)) (star_lazy p (S n) (Some b) r' k)
      else k (Cursor n pv r)
  | [] => k (Cursor n pv [])
  end.

Definition at_eos (r : text) : bool :=
  match r with
  | [] => true
  | [c] => Ascii.eqb c lf
  | _ => false
  end.

Fixpoint exec (r : re) (c : cursor) (cs : caps) (k : cont) : option (cursor * caps) :=
  match r with
  | Str s => match eat s c with Some c' => k c' cs | None => None end
  | Bnd => if boundary (prev c) (head (rest c)) then k c cs else None
  | Eos => if at_eos (rest c) then k c cs else None
  | Star p => star_greedy (cls p) (pos c) (prev c) (rest c) (fun c' => k c' cs)
  | Plus p =>
      match rest c with
      | b :: r' =>
          if cls p b
          then star_greedy (cls p) (S (pos c)) (Some b) r' (fun c' => k c' cs)
          else None
      | [] => None
      end
  | LStar p => star_lazy (cls p) (pos c) (prev c) (rest c) (fun c' => k c' cs)
  | Opt r1 => orelse (exec r1 c cs k) (k c cs)
  | Cat r1 r2 => exec r1 c cs (fun c' cs' => exec r2 c' cs' k)
  | Alt r1 r2 => orelse (exec r1 c cs k) (exec r2 c cs k)
  | Grp i r1 => exec r1 c cs (fun c' cs' => k c' ((i, (pos c, pos c')) :: cs'))
  end.

Definition accept : cont := fun c cs => Some (c, cs).

(** ** Match objects and the functions of [re] the program calls *)

Record mobj := Match { m_start : nat; m_end : nat; m_caps : caps }.

Definition try_at (r : re) (c : cursor) : option mobj :=
  match exec r c [] accept with
  | Some (c', cs) => Some (Match (pos c) (pos c') cs)
  | None => None
  end.

(** [pattern.match(s)] *)
Definition re_match (r : re) (s : text) : option mobj :=
  try_at r (Cursor 0 None s).

Fixpoint search_at (r : re) (n : nat) (pv : option ascii) (rs : text) : option mobj :=
  match try_at r (Cursor n pv rs) with
  | Some m => Some m
  | None =>
      match rs with
      | b :: rs' => search_at r (S n) (Some b) rs'
      | [] => None
      end
  end.

(** [pattern.search(s)] *)
Definition re_search (r : re) (s : text) : option mobj := search_at r 0 None s.

(** [pattern.finditer(s)].  After a match of [n > 0] characters the scan
    resumes at its end; [skip] counts the characters of the match still to
    be passed.  (An empty match just moves on by one character; the token
    pattern of the program has no empty match.) *)
Fixpoint finditer_at (r : re) (skip n : nat) (pv : option ascii) (rs : text) : list mobj :=
  match skip with
  | S k =>
      match rs with
      | b :: rs' => finditer_at r k (S n) (Some b) rs'
      | [] => []
      end
  | O =>
      match try_at r (Cursor n pv rs) with
      | Some m =>
          m :: match rs with
               | b :: rs' => finditer_at r (m_end m - n - 1) (S n) (Some b) rs'
               | [] => []
               end
      | None =>
          match rs with
          | b :: rs' => finditer_at r 0 (S n) (Some b) rs'
          | [] => []
          end
      end
  end.

Definition finditer (r : re) (s : text) : list mobj := finditer_at r 0 0 None s.

(** [m.group(0)] *)
Definition group0 (s : text) (m : mobj) : text := slice s (m_start m) (m_end m).

Fixpoint cap_lookup (i : nat) (cs : caps) : option (nat * nat) :=
  match cs with
  | [] => None
  | (j, sp) :: cs' => if Nat.eqb i j then Some sp else cap_lookup i cs'
  end.

(** [m.group(i)]; a group that did not take part yields the empty text here
    (the program only reads groups of patterns in which they always do). *)
Definition group (s : text) (m : mobj) (i : nat) : text :=
  match cap_lookup i (m_caps m) with
  | Some (a, b) => slice s a b
  | None => []
  end.

(** [pattern.sub(repl, s, count=1)] with a function [repl]. *)
Definition re_sub1 (r : re) (repl : mobj -> text) (s : text) : text :=
  match re_search r s with
  | Some m => take (m_start m) s ++ repl m ++ drop (m_end m) s
  | None => s
  end.

(** ** The patterns of the program *)

(** The patterns are quoted below with an apostrophe in place of each
    double quote.

    [<Group\b[^>]*\bId='([^']+)'[^>]*>]; [g] is the number of its group,
    1 on its own and 2 inside the token pattern. *)
Definition group_open_pat (g : nat) : re :=
  Str (lit "<Group") +> Bnd +> Star (CNot ">") +> Bnd +> Str (lit "Id=" ++ [dq]) +>
  Grp g (Plus (CNot dq)) +> Str [dq] +> Star (CNot ">") +> Str (lit ">").

Definition group_open_re : re := group_open_pat 1.

(** [</Group>] *)
Definition group_close_re : re := Str (lit "</Group>").

(** [<LocalizedString\b[^>]*?/?>] *)
Definition ls_tag_re : re :=
  Str (lit "<LocalizedString") +> Bnd +> LStar (CNot ">") +> Opt (Str (lit "/")) +>
  Str (lit ">").

(** [\bId='( [^']* )'], without the blanks *)
Definition id_attr_re : re :=
  Bnd +> Str (lit "Id=" ++ [dq]) +> Grp 1 (Star (CNot dq)) +> Str [dq].

(** [\bWidth='( [^']* )'], without the blanks *)
Definition width_attr_re : re :=
  Bnd +> Str (lit "Width=" ++ [dq]) +> Grp 1 (Star (CNot dq)) +> Str [dq].

(** [(<Group...>|</Group>|<LocalizedString...>)] *)
Definition token_re : re :=
  Grp 1 (Alt (group_open_pat 2) (Alt group_close_re ls_tag_re)).

(** [\bHeight='] *)
Definition height_re : re := Bnd +> Str (lit "Height=" ++ [dq]).

(** [\s*/?>\s*$] *)
Definition close_re : re :=
  Star CSpace +> Opt (Str (lit "/")) +> Str (lit ">") +> Star CSpace +> Eos.

(** ** [build_width_map]: the reference scanner *)

Abbreviation width_table := (gmap (text * text) text).

(** Loop state of the scanner: [current_group] and [width_map]. *)
Record scan_state := ScanState {
  s_group : option text;
  s_map : width_table
}.

(** One iteration of the loop over [token_re.finditer(ref_text)]. *)
Definition scan_step (ref_text : text) (st : scan_state) (m : mobj) : scan_state :=
  let token := group0 ref_text m in
  match re_match group_open_re token with
  | Some gopen => ScanState (Some (group token gopen 1)) (s_map st)
  | None =>
      match re_match group_close_re token with
      | Some _ => ScanState None (s_map st)
      | None =>
          match re_match ls_tag_re token, s_group st with
          | Some _, Some current_group =>
              let tag := token in
              match re_search id_attr_re tag with
              | None => st
              | Some id_m =>
                  let loc_id := group tag id_m 1 in
                  match re_search width_attr_re tag with
                  | None => st
                  | Some w_m =>
                      let width := group tag w_m 1 in
                      ScanState (s_group st)
                        (<[(current_group, loc_id) := width]> (s_map st))
                  end
              end
          | _, _ => st
          end
      end
  end.

(** The scanner on the text of the reference file. *)
Definition build_width_map_text (ref_text : text) : width_table :=
  s_map (fold_left (scan_step ref_text) (finditer token_re ref_text)
           (ScanState None ∅)).

(** ** [apply_widths_surgically]: the patcher *)

(** Loop state of the patcher. *)
Record patch_state := PatchState {
  out_parts : list text;
  last_idx : nat;
  current_group : option text;
  updated_count : nat
}.

(** The f-string [Width='{new_width}']. *)
Definition width_attr (new_width : text) : text :=
  lit "Width=" ++ [dq] ++ new_width ++ [dq].

(** Lines 103 to 123: the new text of a tag whose key is in the table. *)
Definition edit_tag (tag new_width : text) : text :=
  match re_search width_attr_re tag with
  | Some _ => re_sub1 width_attr_re (fun _ => width_attr new_width) tag
  | None =>
      match re_search height_re tag with
      | Some height_pos =>
          let insert_pos := m_start height_pos in
          take insert_pos tag ++ (width_attr new_width ++ lit " ") ++ drop insert_pos tag
      | None =>
          match re_search close_re tag with
          | None => tag
          | Some close_m =>
              let insert_pos := m_start close_m in
              take insert_pos tag ++ (lit " " ++ width_attr new_width) ++ drop insert_pos tag
          end
      end
  end.

(** Lines 94 to 125: the tag to emit for an item token under a scope, and the
    increment of the counter. *)
Definition patch_item (width_map : width_table) (current_group tag : text) : text * nat :=
  match re_search id_attr_re tag with
  | Some id_m =>
      let loc_id := group tag id_m 1 in
      let key := (current_group, loc_id) in
      match width_map !! key with
      | Some new_width => (edit_tag tag new_width, 1)
      | None => (tag, 0)
      end
  | None => (tag, 0)
  end.

(** One iteration of the loop over [token_re.finditer(src_text)]. *)
Definition patch_step (src_text : text) (width_map : width_table)
    (st : patch_state) (m : mobj) : patch_state :=
  let parts := out_parts st ++ [slice src_text (last_idx st) (m_start m)] in
  let token := group0 src_text m in
  match re_match group_open_re token with
  | Some gopen =>
      PatchState (parts ++ [token]) (m_end m) (Some (group token gopen 1))
        (updated_count st)
  | None =>
      match re_match group_close_re token with
      | Some _ => PatchState (parts ++ [token]) (m_end m) None (updated_count st)
      | None =>
          match re_match ls_tag_re token, current_group st with
          | Some _, Some cg =>
              let '(tag, n) := patch_item width_map cg token in
              PatchState (parts ++ [tag]) (m_end m) (current_group st)
                (updated_count st + n)
          | _, _ =>
              PatchState (parts ++ [token]) (m_end m) (current_group st)
                (updated_count st)
          end
      end
  end.

Definition patch_init : patch_state := PatchState [] 0 None 0.

Definition patch_loop (src_text : text) (width_map : width_table) : patch_state :=
  fold_left (patch_step src_text width_map) (finditer token_re src_text) patch_init.

(** The patcher on the text of the source file: the text written to the
    output file and the count that is printed. *)
Definition apply_widths_text (src_text : text) (width_map : width_table) : text * nat :=
  let st := patch_loop src_text width_map in
  (List.concat (out_parts st ++ [drop (last_idx st) src_text]), updated_count st).

Definition patched (src_text : text) (width_map : width_table) : text :=
  fst (apply_widths_text src_text width_map).

Definition reported (src_text : text) (width_map : width_table) : nat :=
  snd (apply_widths_text src_text width_map).

(** ** Files, standard output and [main] *)

(** What the program can observe and change: the readable files with their
    decoded text, the paths that cannot be opened for writing, the lines
    printed so far and the paths handed to [open] so far. *)
Record world := World {
  w_files : gmap text text;
  w_readonly : gset text;
  w_stdout : list text;
  w_opened : list text
}.

(** How a computation ends: normally, by an uncaught exception, or by
    [sys.exit]. *)
Inductive result (A : Type) :=
| Ok (a : A)
| Raised
| Exited (code : nat).
Arguments Ok {A} a.
Arguments Raised {A}.
Arguments Exited {A} code.

Definition io (A : Type) : Type := world -> world * result A.

#[global] Instance io_ret : MRet io := fun A a w => (w, Ok a).

#[global] Instance io_bind : MBind io := fun A B f m w =>
  match m w with
  | (w', Ok a) => f a w'
  | (w', Raised) => (w', Raised)
  | (w', Exited n) => (w', Exited n)
  end.

Definition log_open (path : text) (w : world) : world :=
  World (w_files w) (w_readonly w) (w_stdout w) (w_opened w ++ [path]).

(** [open(path, 'r', ...)] followed by [f.read()]. *)
Definition read_file (path : text) : io text :=
  fun w =>
    match w_files w !! path with
    | Some t => (log_open path w, Ok t)
    | None => (log_open path w, Raised)
    end.

(** [open(path, 'w', ...)] followed by [f.write(content)]. *)
Definition write_file (path content : text) : io unit :=
  fun w =>
    if decide (path ∈ w_readonly w) then (log_open path w, Raised)
    else (World (<[path := content]> (w_files w)) (w_readonly w) (w_stdout w)
            (w_opened w ++ [path]), Ok tt).

(** [print(line)] *)
Definition print (line : text) : io unit :=
  fun w => (World (w_files w) (w_readonly w) (w_stdout w ++ [line]) (w_opened w), Ok tt).

(** [sys.exit(code)] *)
Definition sys_exit {A} (code : nat) : io A := fun w => (w, Exited code).

Definition nat_text (n : nat) : text := lit (DecimalString.NilEmpty.string_of_uint (Nat.to_uint n)).

Definition build_width_map (reference_xml_path : text) : io width_table :=
  ref_text ← read_file reference_xml_path;
  mret (build_width_map_text ref_text).

Definition apply_widths_surgically (source_xml_path : text) (width_map : width_table)
    (output_path : text) : io unit :=
  src_text ← read_file source_xml_path;
  let '(result, updated_count) := apply_widths_text src_text width_map in
  write_file output_path result;;
  print (lit "Updated " ++ nat_text updated_count ++ lit " width(s). Saved to: " ++
         output_path).

Definition usage : text :=
  lit "Usage: python update_widths_preserve.py source.xml reference.xml output.xml".

(** [main], on [sys.argv] (the script name first). *)
Definition main (argv : list text) : io unit :=
  match argv with
  | [_; source; reference; output] =>
      width_map ← build_width_map reference;
      apply_widths_surgically source width_map output
  | _ => print usage;; sys_exit 1
  end.

(** * Reading the patterns declaratively *)

(** The cursor at offset [n] of the subject [s]. *)
Definition cur (s : text) (n : nat) : cursor :=
  Cursor n (last (take n s)) (drop n s).

(** [run p c c']: [c'] is reached from [c] over characters of class [p]. *)
Inductive run (p : ascii -> bool) : cursor -> cursor -> Prop :=
| run_stop c : run p c c
| run_more n pv b r c' :
    p b = true -> run p (Cursor (S n) (Some b) r) c' ->
    run p (Cursor n pv (b :: r)) c'.

(** [lang r c cs c' cs']: some way of matching [r] leads from cursor [c]
    with groups [cs] to cursor [c'] with groups [cs'].  The matcher picks
    one of these ways, the first in its search order. *)
Inductive lang : re -> cursor -> caps -> cursor -> caps -> Prop :=
| L_str s c c' cs : eat s c = Some c' -> lang (Str s) c cs c' cs
| L_bnd c cs : boundary (prev c) (head (rest c)) = true -> lang Bnd c cs c cs
| L_eos c cs : at_eos (rest c) = true -> lang Eos c cs c cs
| L_star k c c' cs : run (cls k) c c' -> lang (Star k) c cs c' cs
| L_plus k n pv b r c' cs :
    cls k b = true -> run (cls k) (Cursor (S n) (Some b) r) c' ->
    lang (Plus k) (Cursor n pv (b :: r)) cs c' cs
| L_lstar k c c' cs : run (cls k) c c' -> lang (LStar k) c cs c' cs
| L_opt_some r c cs c' cs' : lang r c cs c' cs' -> lang (Opt r) c cs c' cs'
| L_opt_none r c cs : lang (Opt r) c cs c cs
| L_cat r1 r2 c cs c1 cs1 c2 cs2 :
    lang r1 c cs c1 cs1 -> lang r2 c1 cs1 c2 cs2 -> lang (Cat r1 r2) c cs c2 cs2
| L_alt_l r1 r2 c cs c' cs' : lang r1 c cs c' cs' -> lang (Alt r1 r2) c cs c' cs'
| L_alt_r r1 r2 c cs c' cs' : lang r2 c cs c' cs' -> lang (Alt r1 r2) c cs c' cs'
| L_grp i r c cs c' cs' :
    lang r c cs c' cs' -> lang (Grp i r) c cs c' ((i, (pos c, pos c')) :: cs').

(** Every character of [w] is of class [p]. *)
Definition all_in (p : ascii -> bool) (w : text) : Prop :=
  Forall (fun b => p b = true) w.

(** [search] and [finditer] resumed at offset [n] of the subject. *)
Definition search_from (r : re) (s : text) (n : nat) : option mobj :=
  search_at r n (last (take n s)) (drop n s).

(** A pattern none of whose matches is empty. *)
Definition nonempty (r : re) : Prop :=
  forall c m, try_at r c = Some m -> m_start m < m_end m.

Definition finditer_from (r : re) (s : text) (n : nat) : list mobj :=
  finditer_at r 0 n (last (take n s)) (drop n s).


(** The shape shared by the two attribute patterns. *)
Definition attr_re (name : text) : re :=
  Bnd +> Str (name ++ lit "=" ++ [dq]) +> Grp 1 (Star (CNot dq)) +> Str [dq].

(** [attr_at name s i v]: at offset [i] of [s], at a word boundary, stands
    [name], an equals sign and the value [v] between double quotes. *)
Definition attr_at (name s : text) (i : nat) (v : text) : Prop :=
  boundary (last (take i s)) (head (drop i s)) = true /\
  (dq ∉ v) /\
  exists r, drop i s = (name ++ lit "=" ++ [dq]) ++ v ++ dq :: r.

(** The match object of such an attribute. *)
Definition attr_match (name : text) (i : nat) (v : text) : mobj :=
  let a := i + length (name ++ lit "=" ++ [dq]) in
  Match i (a + length v + 1) [(1, (a, a + length v))].

(** [lit_at w s i]: at offset [i] of [s], at a word boundary, stands [w]. *)
Definition lit_at (w s : text) (i : nat) : Prop :=
  boundary (last (take i s)) (head (drop i s)) = true /\
  exists r, drop i s = w ++ r.

(** * The token stream *)

(** [toks r s lo ms]: [ms] are the successive leftmost matches of [r] in [s]
    from offset [lo] on, none of them empty. *)
Inductive toks (r : re) (s : text) : nat -> list mobj -> Prop :=
| toks_end lo : search_from r s lo = None -> toks r s lo []
| toks_next lo m ms :
    search_from r s lo = Some m ->
    lo <= m_start m -> m_start m < m_end m -> m_end m <= length s ->
    toks r s (m_end m) ms ->
    toks r s lo (m :: ms).

(** The scope after a token, as both loops update it. *)
Definition next_scope (cg : option text) (token : text) : option text :=
  match re_match group_open_re token with
  | Some gopen => Some (group token gopen 1)
  | None =>
      match re_match group_close_re token with
      | Some _ => None
      | None => cg
      end
  end.

(** A token that reaches the item branch of the loops. *)
Definition is_item (token : text) : bool :=
  match re_match group_open_re token, re_match group_close_re token,
        re_match ls_tag_re token with
  | None, None, Some _ => true
  | _, _, _ => false
  end.

(** The tokens paired with the scope in force when each is met. *)
Fixpoint scoped (cg : option text) (ts : list text) : list (option text * text) :=
  match ts with
  | [] => []
  | t :: ts' => (cg, t) :: scoped (next_scope cg t) ts'
  end.

Definition tokens (s : text) : list text := map (group0 s) (finditer token_re s).

Definition scoped_tokens (s : text) : list (option text * text) :=
  scoped None (tokens s).

(** The key under which an item token is looked up: it needs a scope and an
    Id attribute. *)
Definition item_key (p : option text * text) : option (text * text) :=
  match p with
  | (Some g, t) =>
      if is_item t then
        match re_search id_attr_re t with
        | Some id_m => Some (g, group t id_m 1)
        | None => None
        end
      else None
  | (None, _) => None
  end.

(** The width the table holds for a token, if any. *)
Definition new_width_of (wm : width_table) (p : option text * text) : option text :=
  match item_key p with
  | Some k => wm !! k
  | None => None
  end.

(** A token is rewritten exactly when the table holds a width for it. *)
Definition emit (wm : width_table) (p : option text * text) : text :=
  match new_width_of wm p with
  | Some w => edit_tag p.2 w
  | None => p.2
  end.

Definition keyed (wm : width_table) (p : option text * text) : bool :=
  match new_width_of wm p with Some _ => true | None => false end.

(** The source with each match replaced by the corresponding text of
    [outs], everything between the matches kept. *)
Fixpoint weave (s : text) (lo : nat) (ms : list mobj) (outs : list text) : text :=
  match ms, outs with
  | m :: ms', o :: outs' => slice s lo (m_start m) ++ o ++ weave s (m_end m) ms' outs'
  | _, _ => drop lo s
  end.

(** A token whose emitted text differs from its source text: its Width
    value was changed, or a Width attribute was inserted. *)
Definition altered (wm : width_table) (p : option text * text) : Prop :=
  emit wm p <> p.2.

(** The entry an item token of the reference contributes to the table: it
    needs a scope, an Id attribute and a Width attribute. *)
Definition scan_entry (p : option text * text) : option ((text * text) * text) :=
  match item_key p with
  | Some k =>
      match re_search width_attr_re p.2 with
      | Some w_m => Some (k, group p.2 w_m 1)
      | None => None
      end
  | None => None
  end.

(** The entries of a reference document, in document order. *)
Definition entries (ref_text : text) : list ((text * text) * text) :=
  omap scan_entry (scoped_tokens ref_text).

(** The value of the last entry of [l] under key [k]. *)
Fixpoint last_entry (k : text * text) (l : list ((text * text) * text)) : option text :=
  match l with
  | [] => None
  | (k', v) :: l' =>
      match last_entry k l' with
      | Some v' => Some v'
      | None => if decide (k' = k) then Some v else None
      end
  end.

(** [width_map[k] = v] for an entry [(k, v)]. *)
Definition insert_entry (tbl : width_table) (e : (text * text) * text) : width_table :=
  <[e.1 := e.2]> tbl.

(** * The shapes of the tokens *)

(** A scope-open tag: the opening text, attributes [a], the Id attribute
    with value [v], attributes [b] and the closing [>]. *)
Definition gopen_text (a v b : text) : text :=
  lit "<Group" ++ a ++ (lit "Id=" ++ [dq]) ++ v ++ dq :: b ++ lit ">".

(** What the scope-open pattern asks of the parts: no [>] in [a] and [b],
    a value that is not empty and has no quote, and the two word
    boundaries, after the tag name and before the attribute name. *)
Definition gopen_ok (a v b : text) : Prop :=
  (">"%char ∉ a) /\ (dq ∉ v) /\ v <> [] /\ (">"%char ∉ b) /\
  word_opt (head (a ++ lit "I")) = false /\
  word_opt (last (lit "p" ++ a)) = false.

(** An item tag: the opening text, a run [x] without [>] that does not
    start with a word character, and the closing [>]. *)
Definition ls_text (x : text) : text := lit "<LocalizedString" ++ x ++ lit ">".

Definition ls_ok (x : text) : Prop :=
  (">"%char ∉ x) /\ word_opt (head (x ++ lit ">")) = false.

(** The three shapes a token can have. *)
Inductive token_shape (t : text) : Prop :=
| shape_open a v b : t = gopen_text a v b -> gopen_ok a v b -> token_shape t
| shape_close : t = lit "</Group>" -> token_shape t
| shape_item x : t = ls_text x -> ls_ok x -> token_shape t.

(** The scope-open pattern from the Id attribute on. *)
Definition group_open_tail (g : nat) : re :=
  Bnd +> Str (lit "Id=" ++ [dq]) +> Grp g (Plus (CNot dq)) +> Str [dq] +>
  Star (CNot ">") +> Str (lit ">").

(** * Attributes of a tag, read off its text *)


(** A Height attribute starts right after [pre]: at a word boundary stand
    Height, an equals sign and a quote. *)
Definition height_at (tag pre post : text) : Prop :=
  tag = pre ++ (lit "Height=" ++ [dq]) ++ post /\ word_opt (last pre) = false.

(** The first Height attribute of the tag starts right after [pre]. *)
Definition first_height (tag pre post : text) : Prop :=
  height_at tag pre post /\
  forall pre' post', height_at tag pre' post' -> length pre <= length pre'.

(** The tag ends with the blanks [ws] and the closing delimiter [closer],
    [ws] being all the blanks there are before the delimiter. *)
Definition closes_with (tag body ws closer : text) : Prop :=
  tag = body ++ ws ++ closer /\
  all_in is_space ws /\
  (forall c, last body = Some c -> is_space c = false) /\
  (closer = lit "/>" \/
   (closer = lit ">" /\ ~ (ws = [] /\ last body = Some "/"%char))).

(** * Edit scripts *)






(** ** Concrete documents and tables *)

Definition doc_same_width : text :=
  xml "<Group Id='G'><LocalizedString Id='a' Width='5'/></Group>".

Definition table_G_a_5 : width_table := {[ (lit "G", lit "a") := lit "5" ]}.

Definition tag_plain : text := xml "<LocalizedString Id='a'/>".



(** [occurs w s]: the text [w] stands somewhere in [s]. *)
Definition occurs (w s : text) : Prop := exists x y, s = x ++ w ++ y.

(** Whether [s] starts with [w], and whether [w] stands somewhere in [s]. *)
Fixpoint starts_with (w s : text) : bool :=
  match w, s with
  | [], _ => true
  | a :: w', b :: s' => Ascii.eqb a b && starts_with w' s'
  | _ :: _, [] => false
  end.

Fixpoint occursb (w s : text) : bool :=
  starts_with w s || match s with [] => false | _ :: s' => occursb w s' end.



Definition doc_dialog : text :=
  xml "<Group Id='Dialog1'><LocalizedString Id='OkButton' Height='20'/></Group>".


(** * Patching a patched document *)

(** The texts between the tokens: before each token, what follows the
    previous one. *)
Fixpoint gaps_from (s : text) (lo : nat) (ms : list mobj) : list text :=
  match ms with
  | [] => []
  | m :: ms' => slice s lo (m_start m) :: gaps_from s (m_end m) ms'
  end.

Definition gaps (s : text) : list text := gaps_from s 0 (finditer token_re s).

(** No offset of [g] starts a group tag, that is the opening text of the
    scope-open pattern followed by something other than a word character. *)
Fixpoint group_free (g : text) : bool :=
  match g with
  | [] => true
  | _ :: g' =>
      negb (starts_with (lit "<Group") g && negb (word_opt (head (drop 6 g))))
      && group_free g'
  end.

(** A scope-open tag whose Id attribute is followed by no other text of
    that form. *)
Definition plain_open (t : text) : Prop :=
  exists a v b, t = gopen_text a v b /\ gopen_ok a v b /\
    ~ occurs (lit "Id=" ++ [dq]) (v ++ dq :: b).

(** The item pattern matches all of [t]. *)
Definition full_item (t : text) : Prop :=
  exists m, re_match ls_tag_re t = Some m /\ m_end m = length t.

(** The Id the loops read off a tag. *)
Definition id_of (t : text) : option text :=
  match re_search id_attr_re t with
  | Some id_m => Some (group t id_m 1)
  | None => None
  end.

(** Rewriting [t] with width [w] gives an item tag with the same Id, which
    rewriting with [w] once more leaves as it is. *)
Definition stable_tag (t w : text) : Prop :=
  let t' := edit_tag t w in
  full_item t' /\ id_of t' = id_of t /\ edit_tag t' w = t'.

(** A text that is found as one token wherever it stands. *)
Definition sure (t : text) : Prop :=
  plain_open t \/ t = lit "</Group>" \/ exists x, t = ls_text x /\ ls_ok x.





Definition doc_form : text :=
  xml "<Strings><Group Id='Dialog1'> <LocalizedString Id='Ok' Width='10' Height='20'/> <LocalizedString Id='Cancel' Height='20'/> <LocalizedString Id='Help'/> </Group></Strings>".

Definition table_form : width_table :=
  <[ (lit "Dialog1", lit "Ok") := lit "80" ]>
    (<[ (lit "Dialog1", lit "Cancel") := lit "90" ]>
       {[ (lit "Dialog1", lit "Help") := lit "70" ]}).

(** * Item tags written as a list of attributes *)

(** An attribute as it stands in a tag: the blanks before it, its name and
    its value between double quotes. *)
Record attr := Attr { a_sep : text; a_name : text; a_value : text }.

Definition attr_text (a : attr) : text :=
  a_sep a ++ a_name a ++ (lit "=" ++ [dq]) ++ a_value a ++ [dq].

Definition attrs_text (l : list attr) : text := List.concat (map attr_text l).

(** An item tag with the attributes [l], closed after [e]. *)
Definition item_text (l : list attr) (e : text) : text :=
  ls_text (attrs_text l ++ e).

(** A value that can stand between double quotes in a tag and does not make
    the text before its closing quote look like the start of an attribute. *)
Definition value_ok (v : text) : Prop :=
  (dq ∉ v) /\ (">"%char ∉ v) /\ last v <> Some "="%char.

Definition attr_ok (a : attr) : Prop :=
  a_sep a <> [] /\ all_in is_space (a_sep a) /\
  a_name a <> [] /\ all_in is_word (a_name a) /\ value_ok (a_value a).

(** Blanks and possibly the slash of a self-closing tag. *)
Definition end_ok (e : text) : Prop :=
  exists ws sl, e = ws ++ sl /\ all_in is_space ws /\ (sl = [] \/ sl = lit "/").

(** An item tag in the usual form: the tag name, attributes each written as
    blanks, a name, an equals sign and a quoted value, then blanks and
    possibly a slash before the closing bracket. *)
Definition attr_tag (t : text) : Prop :=
  exists l e, t = item_text l e /\ Forall attr_ok l /\ end_ok e.

(** The value of the first attribute of [l] named [n]. *)
Fixpoint first_value (n : text) (l : list attr) : option text :=
  match l with
  | [] => None
  | a :: l' => if decide (a_name a = n) then Some (a_value a) else first_value n l'
  end.

(** * Further readings of the code *)

(** A Width attribute with value [v] starts right after [pre]. *)
Definition width_at (tag pre v post : text) : Prop :=
  tag = pre ++ (lit "Width=" ++ [dq]) ++ v ++ dq :: post /\
  (dq ∉ v) /\ word_opt (last pre) = false.

(** The first Width attribute of the tag starts right after [pre]. *)
Definition first_width (tag pre v post : text) : Prop :=
  width_at tag pre v post /\
  forall pre' v' post', width_at tag pre' v' post' -> length pre <= length pre'.

Definition tag_width : text :=
  xml "<LocalizedString Id='a' Width='5' MinWidth='3' Height='2'/>".

Definition doc_reference : text :=
  xml "<Group Id='Dialog1'><LocalizedString Id='OkButton' Width='50'/></Group>".

(** A world with a source file and a reference file, nothing printed and
    no file opened yet. *)
Definition world_two_files : world :=
  World (<[ lit "source.xml" := doc_dialog ]> {[ lit "reference.xml" := doc_reference ]})
        ∅ [] [].

(** A document laid out as tags with text between them: each token comes
    with the text that stands before it, and [tail] follows the last one. *)
Fixpoint flat (d : list (text * text)) (tail : text) : text :=
  match d with
  | [] => tail
  | (g, t) :: d' => g ++ t ++ flat d' tail
  end.

(** The text [g] holds the opening text of none of the three tags. *)
Definition no_tag_start (g : text) : bool :=
  negb (occursb (lit "<Group") g) && negb (occursb (lit "</Group>") g) &&
  negb (occursb (lit "<LocalizedString") g).

(** [doc_form], tag by tag. *)
Definition layout_form : list (text * text) :=
  [ (xml "<Strings>", xml "<Group Id='Dialog1'>");
    (lit " ", xml "<LocalizedString Id='Ok' Width='10' Height='20'/>");
    (lit " ", xml "<LocalizedString Id='Cancel' Height='20'/>");
    (lit " ", xml "<LocalizedString Id='Help'/>");
    (lit " ", lit "</Group>") ].

(** * The matcher against the declarative reading *)

Lemma orelse_Some {A} (x y : option A) (a : A) :
  orelse x y = Some a -> x = Some a \/ (x = None /\ y = Some a).
Proof. destruct x; simpl; auto. Qed.

Lemma orelse_is_Some {A} (x y : option A) :
  is_Some x \/ is_Some y -> is_Some (orelse x y).
Proof. destruct x; simpl; intros [H|H]; eauto. destruct H; discriminate. Qed.

Lemma star_greedy_sound {A} p r : forall n pv (k : cursor -> option A) x,
  star_greedy p n pv r k = Some x ->
  exists c', run p (Cursor n pv r) c' /\ k c' = Some x.
Proof.
  induction r as [|b r IH]; simpl; intros n pv k x H.
  - eexists; split; [apply run_stop | exact H].
  - destruct (p b) eqn:Hp.
    + apply orelse_Some in H as [H | [_ H]].
      * apply IH in H as (c' & Hr & Hk). exists c'. split; [|exact Hk].
        now apply run_more.
      * eexists; split; [apply run_stop | exact H].
    + eexists; split; [apply run_stop | exact H].
Qed.

Lemma star_lazy_sound {A} p r : forall n pv (k : cursor -> option A) x,
  star_lazy p n pv r k = Some x ->
  exists c', run p (Cursor n pv r) c' /\ k c' = Some x.
Proof.
  induction r as [|b r IH]; simpl; intros n pv k x H.
  - eexists; split; [apply run_stop | exact H].
  - destruct (p b) eqn:Hp.
    + apply orelse_Some in H as [H | [_ H]].
      * eexists; split; [apply run_stop | exact H].
      * apply IH in H as (c' & Hr & Hk). exists c'. split; [|exact Hk].
        now apply run_more.
    + eexists; split; [apply run_stop | exact H].
Qed.

Lemma star_greedy_complete {A} p c c' (k : cursor -> option A) :
  run p c c' -> is_Some (k c') ->
  is_Some (star_greedy p (pos c) (prev c) (rest c) k).
Proof.
  induction 1 as [[n pv r]|n pv b r c' Hp Hr IH]; simpl; intros Hk.
  - destruct r as [|b r]; simpl; [exact Hk|].
    destruct (p b); [|exact Hk]. apply orelse_is_Some. now right.
  - rewrite Hp. apply orelse_is_Some. left. now apply IH.
Qed.

Lemma star_lazy_complete {A} p c c' (k : cursor -> option A) :
  run p c c' -> is_Some (k c') ->
  is_Some (star_lazy p (pos c) (prev c) (rest c) k).
Proof.
  induction 1 as [[n pv r]|n pv b r c' Hp Hr IH]; simpl; intros Hk.
  - destruct r as [|b r]; simpl; [exact Hk|].
    destruct (p b); [|exact Hk]. apply orelse_is_Some. now left.
  - rewrite Hp. apply orelse_is_Some. right. now apply IH.
Qed.

(** Whatever the matcher returns is a declarative match followed by a
    successful continuation. *)
Lemma exec_sound r : forall c cs k res,
  exec r c cs k = Some res ->
  exists c' cs', lang r c cs c' cs' /\ k c' cs' = Some res.
Proof.
  induction r as [s| | |p|p|p|r IH|r1 IH1 r2 IH2|r1 IH1 r2 IH2|i r IH];
    simpl; intros c cs k res H.
  - destruct (eat s c) as [c'|] eqn:He; [|discriminate].
    exists c', cs. split; [now constructor | exact H].
  - destruct (boundary _ _) eqn:Hb; [|discriminate].
    exists c, cs. split; [now constructor | exact H].
  - destruct (at_eos _) eqn:Hb; [|discriminate].
    exists c, cs. split; [now constructor | exact H].
  - apply star_greedy_sound in H as (c' & Hr & Hk). destruct c.
    exists c', cs. split; [now constructor | exact Hk].
  - destruct c as [n pv [|b r]]; simpl in H; [discriminate|].
    destruct (cls p b) eqn:Hp; [|discriminate].
    apply star_greedy_sound in H as (c' & Hr & Hk).
    exists c', cs. split; [now constructor | exact Hk].
  - apply star_lazy_sound in H as (c' & Hr & Hk). destruct c.
    exists c', cs. split; [now constructor | exact Hk].
  - apply orelse_Some in H as [H | [_ H]].
    + apply IH in H as (c' & cs' & Hl & Hk). exists c', cs'.
      split; [now apply L_opt_some | exact Hk].
    + exists c, cs. split; [apply L_opt_none | exact H].
  - apply IH1 in H as (c1 & cs1 & Hl1 & H).
    apply IH2 in H as (c2 & cs2 & Hl2 & H).
    exists c2, cs2. split; [econstructor; eassumption | exact H].
  - apply orelse_Some in H as [H | [_ H]].
    + apply IH1 in H as (c' & cs' & Hl & Hk). exists c', cs'.
      split; [now apply L_alt_l | exact Hk].
    + apply IH2 in H as (c' & cs' & Hl & Hk). exists c', cs'.
      split; [now apply L_alt_r | exact Hk].
  - apply IH in H as (c' & cs' & Hl & Hk).
    eexists c', _. split; [constructor; eassumption | exact Hk].
Qed.

(** If some declarative match can be continued successfully, the matcher
    does not fail. *)
Lemma exec_complete r c cs c' cs' :
  lang r c cs c' cs' ->
  forall k, is_Some (k c' cs') -> is_Some (exec r c cs k).
Proof.
  induction 1; simpl; intros k0 Hk.
  - rewrite H. exact Hk.
  - rewrite H. exact Hk.
  - rewrite H. exact Hk.
  - eapply (star_greedy_complete _ _ _ (fun c' => k0 c' cs)); eassumption.
  - rewrite H.
    apply (star_greedy_complete _ _ _ (fun c' => k0 c' cs) H0 Hk).
  - eapply (star_lazy_complete _ _ _ (fun c' => k0 c' cs)); eassumption.
  - apply orelse_is_Some. left. now apply IHlang.
  - apply orelse_is_Some. now right.
  - apply IHlang1. now apply IHlang2.
  - apply orelse_is_Some. left. now apply IHlang.
  - apply orelse_is_Some. right. now apply IHlang.
  - now apply IHlang.
Qed.

Lemma try_at_Some r c m :
  try_at r c = Some m ->
  exists c', lang r c [] c' (m_caps m) /\ m_start m = pos c /\ m_end m = pos c'.
Proof.
  unfold try_at. destruct (exec r c [] accept) as [[c' cs]|] eqn:He; [|discriminate].
  intros [= <-]. apply exec_sound in He as (c1 & cs1 & Hl & [= -> ->]).
  exists c'. auto.
Qed.

Lemma try_at_None r c c' cs' : try_at r c = None -> ~ lang r c [] c' cs'.
Proof.
  unfold try_at. intros H Hl.
  destruct (exec_complete _ _ _ _ _ Hl accept) as [[c1 cs1] He]; [now eexists|].
  now rewrite He in H.
Qed.

Lemma try_at_is_Some r c c' cs' : lang r c [] c' cs' -> is_Some (try_at r c).
Proof.
  intros Hl. destruct (try_at r c) eqn:H; [now eexists|].
  now apply try_at_None with (c' := c') (cs' := cs') in H.
Qed.

(** A pattern with a single way of matching at [c] yields exactly it. *)
Lemma try_at_unique r c c1 cs1 :
  lang r c [] c1 cs1 ->
  (forall c2 cs2, lang r c [] c2 cs2 -> pos c2 = pos c1 /\ cs2 = cs1) ->
  try_at r c = Some (Match (pos c) (pos c1) cs1).
Proof.
  intros Hl Hu. destruct (try_at_is_Some _ _ _ _ Hl) as [m Hm].
  rewrite Hm. apply try_at_Some in Hm as (c' & Hl' & Hs & He).
  apply Hu in Hl' as [Hp Hc]. destruct m; simpl in *. congruence.
Qed.

(** * Cursors as offsets into the subject *)

Lemma cur_S s n b r : drop n s = b :: r -> cur s (S n) = Cursor (S n) (Some b) r.
Proof.
  intros H. unfold cur.
  assert (Hl : s !! n = Some b).
  { rewrite <- (Nat.add_0_r n), <- lookup_drop, H. reflexivity. }
  rewrite (take_S_r _ _ _ Hl), last_snoc. f_equal.
  rewrite (drop_S _ _ _ Hl) in H. congruence.
Qed.

Lemma drop_app_bound (s : text) n w r : drop n s = w ++ r -> n <= length s ->
  n + length w <= length s.
Proof.
  intros H Hn. apply (f_equal length) in H.
  rewrite length_drop, length_app in H. lia.
Qed.

Lemma drop_app_drop (s : text) n w r : drop n s = w ++ r -> drop (n + length w) s = r.
Proof.
  intros H. rewrite <- drop_drop, H. apply drop_app_length.
Qed.

Lemma drop_slice (s : text) n w r : drop n s = w ++ r -> slice s n (n + length w) = w.
Proof.
  intros H. unfold slice. rewrite H.
  replace (n + length w - n) with (length w) by lia. apply take_app_length.
Qed.

Lemma eat_cur w : forall s n c',
  eat w (cur s n) = Some c' ->
  c' = cur s (n + length w) /\ exists r, drop n s = w ++ r.
Proof.
  induction w as [|a w IH]; simpl; intros s n c' H.
  - injection H as <-. rewrite Nat.add_0_r. split; [reflexivity|]. now eexists.
  - destruct (drop n s) as [|b r'] eqn:Hd; [discriminate|].
    destruct (Ascii.eqb_spec a b) as [->|]; [|discriminate].
    rewrite <- (cur_S _ _ _ _ Hd) in H. apply IH in H as [-> [r Hr]].
    split; [f_equal; lia|]. exists r.
    apply drop_app_drop with (w := [b]) in Hd. simpl in Hd.
    rewrite Nat.add_1_r in Hd. congruence.
Qed.

Lemma eat_cur_intro w : forall s n r,
  drop n s = w ++ r -> eat w (cur s n) = Some (cur s (n + length w)).
Proof.
  induction w as [|a w IH]; simpl; intros s n r H.
  - now rewrite Nat.add_0_r.
  - rewrite H, Ascii.eqb_refl, <- (cur_S _ _ _ _ H).
    rewrite (IH s (S n) r); [f_equal; f_equal; lia|].
    apply drop_app_drop with (w := [a]) in H. simpl in H.
    now rewrite Nat.add_1_r in H.
Qed.

Lemma run_cur p s c c' : run p c c' -> forall n, c = cur s n ->
  exists w r, drop n s = w ++ r /\ all_in p w /\ c' = cur s (n + length w).
Proof.
  induction 1 as [c|n0 pv b r c' Hp Hr IH]; intros n Hc.
  - exists [], (drop n s). simpl. rewrite Nat.add_0_r. repeat split; auto.
    constructor.
  - injection Hc as -> -> Hd. symmetry in Hd.
    destruct (IH (S n) (eq_sym (cur_S _ _ _ _ Hd))) as (w & r' & Hw & Ha & ->).
    exists (b :: w), r'. split; [|split].
    + apply drop_app_drop with (w := [b]) in Hd as Hd'. simpl in Hd'.
      rewrite Nat.add_1_r in Hd'. rewrite Hd. simpl. congruence.
    + now constructor.
    + simpl. f_equal. lia.
Qed.

Lemma run_cur_intro p s w : forall n r,
  drop n s = w ++ r -> all_in p w -> run p (cur s n) (cur s (n + length w)).
Proof.
  induction w as [|b w IH]; simpl; intros n r H Ha.
  - rewrite Nat.add_0_r. apply run_stop.
  - inversion Ha as [|? ? Hb Ha']; subst.
    unfold cur at 1. rewrite H. apply run_more; [exact Hb|].
    rewrite <- (cur_S _ _ _ _ H).
    replace (n + S (length w)) with (S n + length w) by lia.
    apply IH with (r := r); [|exact Ha'].
    apply drop_app_drop with (w := [b]) in H. simpl in H.
    now rewrite Nat.add_1_r in H.
Qed.

(** A match that starts inside the subject stays inside it. *)
Lemma lang_cur s r c cs c' cs' : lang r c cs c' cs' ->
  forall n, c = cur s n -> n <= length s ->
  exists j, c' = cur s j /\ n <= j <= length s.
Proof.
  induction 1; intros m Hc Hm; subst.
  - apply eat_cur in H as [-> [r Hr]]. eexists; split; [reflexivity|].
    apply drop_app_bound in Hr; lia.
  - exists m. auto with lia.
  - exists m. auto with lia.
  - destruct (run_cur _ s _ _ H m eq_refl) as (w & r & Hw & _ & ->).
    eexists; split; [reflexivity|]. apply drop_app_bound in Hw; lia.
  - destruct (run_cur _ s _ _ (run_more _ _ _ _ _ _ H H0) m Hc)
      as (w & r' & Hw & _ & ->).
    eexists; split; [reflexivity|]. apply drop_app_bound in Hw; lia.
  - destruct (run_cur _ s _ _ H m eq_refl) as (w & r & Hw & _ & ->).
    eexists; split; [reflexivity|]. apply drop_app_bound in Hw; lia.
  - now apply IHlang.
  - exists m. auto with lia.
  - destruct (IHlang1 m eq_refl Hm) as (j1 & -> & Hj1).
    destruct (IHlang2 j1 eq_refl) as (j2 & -> & Hj2); [lia|].
    exists j2. split; [reflexivity | lia].
  - now apply IHlang.
  - now apply IHlang.
  - now apply IHlang.
Qed.

Lemma try_at_cur r s n m : try_at r (cur s n) = Some m -> n <= length s ->
  m_start m = n /\ n <= m_end m <= length s /\
  lang r (cur s n) [] (cur s (m_end m)) (m_caps m).
Proof.
  intros H Hn. apply try_at_Some in H as (c' & Hl & Hs & He).
  destruct (lang_cur s _ _ _ _ _ Hl n eq_refl Hn) as (j & -> & Hj).
  simpl in Hs, He. rewrite Hs, He. auto.
Qed.

(** * [search] and [finditer] *)

Lemma search_from_0 r s : re_search r s = search_from r s 0.
Proof. reflexivity. Qed.

Lemma search_from_unfold r s n :
  search_from r s n =
  match try_at r (cur s n) with
  | Some m => Some m
  | None => if decide (n < length s) then search_from r s (S n) else None
  end.
Proof.
  unfold search_from. destruct (drop n s) as [|b rs] eqn:Hd.
  - simpl. fold (cur s n). unfold cur at 1. rewrite Hd.
    destruct (try_at _ _); [reflexivity|].
    apply (f_equal length) in Hd. rewrite length_drop in Hd. simpl in Hd.
    destruct (decide _); [lia | reflexivity].
  - assert (Hlt : n < length s).
    { apply (f_equal length) in Hd. rewrite length_drop in Hd. simpl in Hd. lia. }
    simpl. unfold cur at 1. rewrite Hd.
    destruct (try_at _ _); [reflexivity|].
    destruct (decide _); [|lia].
    pose proof (cur_S _ _ _ _ Hd) as Hc. unfold cur in Hc.
    injection Hc as -> ->. reflexivity.
Qed.

(** [search] returns the match at the leftmost offset that has one. *)
Lemma search_from_Some r s m : forall n,
  search_from r s n = Some m -> n <= length s ->
  n <= m_start m <= length s /\ try_at r (cur s (m_start m)) = Some m /\
  forall j, n <= j < m_start m -> try_at r (cur s j) = None.
Proof.
  intros n. remember (length s - n) as k eqn:Hk.
  revert n Hk. induction k as [|k IH]; intros n Hk H Hn;
    rewrite search_from_unfold in H;
    destruct (try_at r (cur s n)) as [m'|] eqn:Ht.
  - injection H as ->. destruct (try_at_cur _ _ _ _ Ht Hn) as (Hs & _).
    rewrite Hs. split; [lia|]. split; [exact Ht|]. intros; lia.
  - destruct (decide _); [lia | discriminate].
  - injection H as ->. destruct (try_at_cur _ _ _ _ Ht Hn) as (Hs & _).
    rewrite Hs. split; [lia|]. split; [exact Ht|]. intros; lia.
  - destruct (decide _); [|discriminate].
    destruct (IH (S n)) as (Hb & Hm & Hj); [lia | exact H | lia |].
    repeat split; [lia | lia | exact Hm |].
    intros j Hjr. destruct (decide (j = n)) as [->|]; [exact Ht|].
    apply Hj. lia.
Qed.

Lemma search_from_None r s : forall n,
  search_from r s n = None -> forall j, n <= j <= length s ->
  try_at r (cur s j) = None.
Proof.
  intros n. remember (length s - n) as k eqn:Hk.
  revert n Hk. induction k as [|k IH]; intros n Hk H j Hj;
    rewrite search_from_unfold in H;
    destruct (try_at r (cur s n)) as [m'|] eqn:Ht; try discriminate.
  - replace j with n by lia. exact Ht.
  - destruct (decide _); [|replace j with n by lia; exact Ht].
    destruct (decide (j = n)) as [->|]; [exact Ht|].
    apply (IH (S n)); [lia | exact H | lia].
Qed.

Lemma search_from_intro r s n i m : n <= i <= length s ->
  try_at r (cur s i) = Some m ->
  (forall j, n <= j < i -> try_at r (cur s j) = None) ->
  search_from r s n = Some m.
Proof.
  intros Hi Hm Hj.
  destruct (search_from r s n) as [m'|] eqn:Hs.
  - destruct (search_from_Some _ _ _ _ Hs) as (Hb & Hm' & Hj'); [lia|].
    destruct (Nat.lt_trichotomy (m_start m') i) as [Hlt|[Heq|Hgt]].
    + rewrite Hj in Hm'; [discriminate | lia].
    + rewrite Heq in Hm'. congruence.
    + rewrite Hj' in Hm; [discriminate | lia].
  - rewrite (search_from_None _ _ _ Hs i) in Hm; [discriminate | lia].
Qed.

Lemma finditer_from_0 r s : finditer r s = finditer_from r s 0.
Proof. reflexivity. Qed.

Lemma finditer_skip r s k : forall n, n + k <= length s ->
  finditer_at r k n (last (take n s)) (drop n s) = finditer_from r s (n + k).
Proof.
  induction k as [|k IH]; intros n Hn.
  - now rewrite Nat.add_0_r.
  - destruct (drop n s) as [|b rs] eqn:Hd.
    { apply (f_equal length) in Hd. rewrite length_drop in Hd. simpl in Hd. lia. }
    simpl. pose proof (cur_S _ _ _ _ Hd) as Hc. unfold cur in Hc.
    injection Hc as <- <-. rewrite IH by lia. f_equal. lia.
Qed.

Lemma finditer_at_0 r n pv rs :
  finditer_at r 0 n pv rs =
  match try_at r (Cursor n pv rs) with
  | Some m =>
      m :: match rs with
           | b :: rs' => finditer_at r (m_end m - n - 1) (S n) (Some b) rs'
           | [] => []
           end
  | None =>
      match rs with
      | b :: rs' => finditer_at r 0 (S n) (Some b) rs'
      | [] => []
      end
  end.
Proof. destruct rs; reflexivity. Qed.

(** The equation [finditer] obeys: search, emit, resume at the end of the
    match. *)
Lemma finditer_from_unfold r s (Hne : nonempty r) : forall n, n <= length s ->
  finditer_from r s n =
  match search_from r s n with
  | Some m => m :: finditer_from r s (m_end m)
  | None => []
  end.
Proof.
  intros n. remember (length s - n) as k eqn:Hk.
  revert n Hk. induction k as [|k IH]; intros n Hk Hn;
    rewrite search_from_unfold; unfold finditer_from at 1;
    rewrite finditer_at_0; fold (cur s n);
    destruct (try_at r (cur s n)) as [m|] eqn:Ht.
  - pose proof (Hne _ _ Ht). destruct (try_at_cur _ _ _ _ Ht Hn). lia.
  - destruct (decide _); [lia|].
    rewrite drop_ge by lia. reflexivity.
  - pose proof (Hne _ _ Ht). destruct (try_at_cur _ _ _ _ Ht Hn) as (Hs & Hb & _).
    f_equal. destruct (drop n s) as [|b rs] eqn:Hd.
    { apply (f_equal length) in Hd. rewrite length_drop in Hd. simpl in Hd. lia. }
    pose proof (cur_S _ _ _ _ Hd) as Hc. unfold cur in Hc.
    injection Hc as <- <-. rewrite finditer_skip by lia. f_equal. lia.
  - destruct (decide _) as [Hlt|Hge].
    + destruct (drop n s) as [|b rs] eqn:Hd.
      { apply (f_equal length) in Hd. rewrite length_drop in Hd. simpl in Hd. lia. }
      pose proof (cur_S _ _ _ _ Hd) as Hc. unfold cur in Hc.
      injection Hc as <- <-. apply (IH (S n)); lia.
    + rewrite drop_ge by lia. reflexivity.
Qed.

(** * Inversion of the declarative reading at an offset *)

Lemma lang_str_inv w c cs c' cs' : lang (Str w) c cs c' cs' ->
  eat w c = Some c' /\ cs' = cs.
Proof. inversion 1; subst; auto. Qed.

Lemma lang_bnd_inv c cs c' cs' : lang Bnd c cs c' cs' ->
  c' = c /\ cs' = cs /\ boundary (prev c) (head (rest c)) = true.
Proof. inversion 1; subst; auto. Qed.

Lemma lang_eos_inv c cs c' cs' : lang Eos c cs c' cs' ->
  c' = c /\ cs' = cs /\ at_eos (rest c) = true.
Proof. inversion 1; subst; auto. Qed.

Lemma lang_star_inv k c cs c' cs' : lang (Star k) c cs c' cs' ->
  run (cls k) c c' /\ cs' = cs.
Proof. inversion 1; subst; auto. Qed.

Lemma lang_lstar_inv k c cs c' cs' : lang (LStar k) c cs c' cs' ->
  run (cls k) c c' /\ cs' = cs.
Proof. inversion 1; subst; auto. Qed.

Lemma lang_plus_inv k c cs c' cs' : lang (Plus k) c cs c' cs' ->
  run (cls k) c c' /\ pos c < pos c' /\ cs' = cs.
Proof.
  inversion 1 as [| | | |k0 n pv b r c0 cs0 Hb Hr| | | | | | |]; subst.
  split; [now apply run_more|]. split; [|reflexivity].
  simpl. clear Hb H. remember (Cursor (S n) (Some b) r) as c1 eqn:Hc1.
  assert (Hle : S n <= pos c1) by (subst; simpl; lia).
  clear Hc1. induction Hr; simpl in *; [lia|]. apply IHHr. lia.
Qed.

Lemma lang_str_cur s w n cs c' cs' : lang (Str w) (cur s n) cs c' cs' ->
  c' = cur s (n + length w) /\ cs' = cs /\ exists r, drop n s = w ++ r.
Proof. intros [H ->]%lang_str_inv. apply eat_cur in H as [-> Hr]. auto. Qed.

Lemma lang_bnd_cur s n cs c' cs' : lang Bnd (cur s n) cs c' cs' ->
  c' = cur s n /\ cs' = cs /\
  boundary (last (take n s)) (head (drop n s)) = true.
Proof. intros (-> & -> & H)%lang_bnd_inv. auto. Qed.

Lemma lang_eos_cur s n cs c' cs' : lang Eos (cur s n) cs c' cs' ->
  c' = cur s n /\ cs' = cs /\ at_eos (drop n s) = true.
Proof. intros (-> & -> & H)%lang_eos_inv. auto. Qed.

Lemma lang_star_cur s k n cs c' cs' : lang (Star k) (cur s n) cs c' cs' ->
  exists w r, drop n s = w ++ r /\ all_in (cls k) w /\
    c' = cur s (n + length w) /\ cs' = cs.
Proof.
  intros [H ->]%lang_star_inv.
  destruct (run_cur _ s _ _ H n eq_refl) as (w & r & ? & ? & ?).
  exists w, r. auto.
Qed.

Lemma lang_lstar_cur s k n cs c' cs' : lang (LStar k) (cur s n) cs c' cs' ->
  exists w r, drop n s = w ++ r /\ all_in (cls k) w /\
    c' = cur s (n + length w) /\ cs' = cs.
Proof.
  intros [H ->]%lang_lstar_inv.
  destruct (run_cur _ s _ _ H n eq_refl) as (w & r & ? & ? & ?).
  exists w, r. auto.
Qed.

Lemma lang_plus_cur s k n cs c' cs' : lang (Plus k) (cur s n) cs c' cs' ->
  exists w r, drop n s = w ++ r /\ all_in (cls k) w /\ w <> [] /\
    c' = cur s (n + length w) /\ cs' = cs.
Proof.
  intros (H & Hlt & ->)%lang_plus_inv.
  destruct (run_cur _ s _ _ H n eq_refl) as (w & r & Hw & Ha & ->).
  exists w, r. repeat split; auto.
  intros ->. simpl in Hlt. lia.
Qed.

Lemma lang_cat_inv r1 r2 c cs c2 cs2 : lang (Cat r1 r2) c cs c2 cs2 ->
  exists c1 cs1, lang r1 c cs c1 cs1 /\ lang r2 c1 cs1 c2 cs2.
Proof. inversion 1; subst. eauto. Qed.

Lemma lang_alt_inv r1 r2 c cs c' cs' : lang (Alt r1 r2) c cs c' cs' ->
  lang r1 c cs c' cs' \/ lang r2 c cs c' cs'.
Proof. inversion 1; subst; auto. Qed.

Lemma lang_opt_inv r c cs c' cs' : lang (Opt r) c cs c' cs' ->
  lang r c cs c' cs' \/ (c' = c /\ cs' = cs).
Proof. inversion 1; subst; auto. Qed.

Lemma lang_grp_inv i r c cs c' cs' : lang (Grp i r) c cs c' cs' ->
  exists cs1, lang r c cs c' cs1 /\ cs' = (i, (pos c, pos c')) :: cs1.
Proof. inversion 1; subst. eauto. Qed.

(** Building declarative matches at an offset. *)

Lemma lang_str_intro s w n r cs : drop n s = w ++ r ->
  lang (Str w) (cur s n) cs (cur s (n + length w)) cs.
Proof. intros H. constructor. now apply eat_cur_intro with (r := r). Qed.

Lemma lang_bnd_intro s n cs :
  boundary (last (take n s)) (head (drop n s)) = true ->
  lang Bnd (cur s n) cs (cur s n) cs.
Proof. intros H. now constructor. Qed.

Lemma lang_star_intro s k n w r cs : drop n s = w ++ r -> all_in (cls k) w ->
  lang (Star k) (cur s n) cs (cur s (n + length w)) cs.
Proof. intros H Ha. constructor. now apply run_cur_intro with (r := r). Qed.

Lemma lang_lstar_intro s k n w r cs : drop n s = w ++ r -> all_in (cls k) w ->
  lang (LStar k) (cur s n) cs (cur s (n + length w)) cs.
Proof. intros H Ha. constructor. now apply run_cur_intro with (r := r). Qed.

Lemma lang_plus_intro s k n w r cs : drop n s = w ++ r -> all_in (cls k) w ->
  w <> [] -> lang (Plus k) (cur s n) cs (cur s (n + length w)) cs.
Proof.
  intros H Ha Hne. destruct w as [|b w]; [done|].
  inversion Ha; subst. unfold cur at 1. rewrite H. simpl.
  apply L_plus; [assumption|].
  rewrite <- (cur_S s n b (w ++ r) H).
  replace (n + S (length w)) with (S n + length w) by lia.
  apply run_cur_intro with (r := r); [|assumption].
  apply drop_app_drop with (w := [b]) in H. simpl in H.
  now rewrite Nat.add_1_r in H.
Qed.

(** * Facts on text *)

Lemma all_in_not c w : all_in (cls (CNot c)) w <-> c ∉ w.
Proof.
  unfold all_in. rewrite Forall_forall. split.
  - intros H Hin. apply H in Hin. simpl in Hin.
    now rewrite Ascii.eqb_refl in Hin.
  - intros H b Hb. simpl. destruct (Ascii.eqb_spec b c) as [->|]; [|reflexivity].
    exfalso. now apply H.
Qed.

(** The first occurrence of a character splits a text in one way only. *)
Lemma split_first (c : ascii) (v v' r r' : text) :
  c ∉ v -> c ∉ v' -> v ++ c :: r = v' ++ c :: r' -> v = v' /\ r = r'.
Proof.
  revert v'. induction v as [|a v IH]; intros [|a' v'] Hv Hv' H; simpl in H.
  - injection H as ->. auto.
  - injection H as <- _. exfalso. apply Hv'. left.
  - injection H as -> _. exfalso. apply Hv. left.
  - injection H as -> H. apply IH in H as [-> ->]; auto.
    + intros Hin. apply Hv. now right.
    + intros Hin. apply Hv'. now right.
Qed.

Lemma take_drop_slice (s : text) i j : i <= j ->
  s = take i s ++ slice s i j ++ drop j s.
Proof.
  intros H. unfold slice.
  rewrite <- (take_drop i s) at 1. f_equal.
  rewrite <- (take_drop (j - i) (drop i s)) at 1. f_equal.
  rewrite drop_drop. f_equal. lia.
Qed.

(** * The attribute patterns *)

Lemma id_attr_re_eq : id_attr_re = attr_re (lit "Id").
Proof. reflexivity. Qed.

Lemma width_attr_re_eq : width_attr_re = attr_re (lit "Width").
Proof. reflexivity. Qed.

Lemma attr_lang_inv name s i c' cs' :
  lang (attr_re name) (cur s i) [] c' cs' ->
  exists v, attr_at name s i v /\
    c' = cur s (m_end (attr_match name i v)) /\
    cs' = m_caps (attr_match name i v).
Proof.
  unfold attr_re. intros H.
  apply lang_cat_inv in H as (c1 & cs1 & H1 & H).
  apply lang_bnd_cur in H1 as (-> & -> & Hb).
  apply lang_cat_inv in H as (c2 & cs2 & H2 & H).
  apply lang_str_cur in H2 as (-> & -> & r2 & Hr2).
  apply lang_cat_inv in H as (c3 & cs3 & H3 & H).
  apply lang_grp_inv in H3 as (cs3' & H3 & ->).
  apply lang_star_cur in H3 as (v & r3 & Hr3 & Hv & -> & ->).
  apply lang_str_cur in H as (-> & -> & r4 & Hr4).
  exists v. split; [|split].
  - split; [exact Hb|]. split; [now apply all_in_not|].
    exists r4. rewrite Hr2. f_equal.
    pose proof (drop_app_drop _ _ _ _ Hr2) as E2.
    pose proof (drop_app_drop _ _ _ _ Hr3) as E3.
    rewrite E2 in Hr3. rewrite E3 in Hr4. now subst.
  - simpl. f_equal.
  - reflexivity.
Qed.

Lemma attr_lang_intro name s i v : attr_at name s i v ->
  lang (attr_re name) (cur s i) [] (cur s (m_end (attr_match name i v)))
    (m_caps (attr_match name i v)).
Proof.
  intros (Hb & Hv & r & Hr). unfold attr_re.
  eapply L_cat; [now apply lang_bnd_intro|].
  eapply L_cat; [eapply lang_str_intro; exact Hr|].
  pose proof (drop_app_drop _ _ _ _ Hr) as Hr2.
  eapply L_cat.
  - apply (L_grp 1 (Star (CNot dq)) (cur s (i + length (name ++ lit "=" ++ [dq])))
             [] (cur s (i + length (name ++ lit "=" ++ [dq]) + length v)) []).
    eapply lang_star_intro; [exact Hr2 | now apply all_in_not].
  - simpl pos.
    apply (lang_str_intro s [dq] _ r).
    apply drop_app_drop in Hr2. exact Hr2.
Qed.

Lemma attr_at_unique name s i v v' : attr_at name s i v -> attr_at name s i v' -> v = v'.
Proof.
  intros (_ & Hv & r & Hr) (_ & Hv' & r' & Hr'). rewrite Hr in Hr'.
  apply app_inv_head in Hr'. now apply split_first in Hr' as [-> _].
Qed.

Lemma attr_try_at name s i v : attr_at name s i v ->
  try_at (attr_re name) (cur s i) = Some (attr_match name i v).
Proof.
  intros Ha. pose proof (attr_lang_intro _ _ _ _ Ha) as Hl.
  apply try_at_unique in Hl; [exact Hl|].
  intros c2 cs2 H2. apply attr_lang_inv in H2 as (v' & Ha' & -> & ->).
  now rewrite (attr_at_unique _ _ _ _ _ Ha Ha').
Qed.

Lemma attr_try_at_inv name s i m :
  try_at (attr_re name) (cur s i) = Some m ->
  exists v, attr_at name s i v /\ m = attr_match name i v.
Proof.
  intros H. apply try_at_Some in H as Hl. destruct Hl as (c' & Hl & Hs & He).
  apply attr_lang_inv in Hl as (v & Ha & -> & Hc).
  exists v. split; [exact Ha|]. destruct m; simpl in *. now subst.
Qed.

Lemma attr_try_at_None name s i :
  try_at (attr_re name) (cur s i) = None <-> forall v, ~ attr_at name s i v.
Proof.
  split.
  - intros H v Ha. now rewrite (attr_try_at _ _ _ _ Ha) in H.
  - intros H. destruct (try_at _ _) as [m|] eqn:Ht; [|reflexivity].
    apply attr_try_at_inv in Ht as (v & Ha & _). now apply H in Ha.
Qed.

(** [search] for an attribute: the first offset at which one stands. *)
Lemma attr_search_Some name s m : re_search (attr_re name) s = Some m ->
  exists i v, m = attr_match name i v /\ i <= length s /\ attr_at name s i v /\
    forall j v', j < i -> ~ attr_at name s j v'.
Proof.
  rewrite search_from_0. intros H.
  apply search_from_Some in H as (Hb & Ht & Hj); [|lia].
  apply attr_try_at_inv in Ht as (v & Ha & Hm).
  exists (m_start m), v. split; [exact Hm|]. split; [lia|]. split; [exact Ha|].
  intros j v' Hlt Ha'. specialize (Hj j).
  rewrite (attr_try_at _ _ _ _ Ha') in Hj. discriminate Hj. lia.
Qed.


Lemma attr_search_intro name s i v : i <= length s -> attr_at name s i v ->
  (forall j v', j < i -> ~ attr_at name s j v') ->
  re_search (attr_re name) s = Some (attr_match name i v).
Proof.
  intros Hi Ha Hj. rewrite search_from_0.
  apply search_from_intro with (i := i); [lia | now apply attr_try_at |].
  intros j Hjr. apply attr_try_at_None. intros v'. apply Hj. lia.
Qed.

Lemma attr_search_None_intro name s : (forall i v, ~ attr_at name s i v) ->
  re_search (attr_re name) s = None.
Proof.
  intros H. destruct (re_search _ _) as [m|] eqn:Hs; [|reflexivity].
  apply attr_search_Some in Hs as (i & v & _ & _ & Ha & _). now apply H in Ha.
Qed.

(** The group of an attribute match is the value. *)
Lemma attr_group name s i v : attr_at name s i v ->
  group s (attr_match name i v) 1 = v.
Proof.
  intros (_ & _ & r & Hr). unfold group, attr_match. simpl.
  apply drop_app_drop in Hr as Hr2.
  apply drop_slice in Hr2. exact Hr2.
Qed.

(** * The token pattern *)

Lemma run_pos p c c' : run p c c' -> pos c <= pos c'.
Proof. induction 1; simpl in *; lia. Qed.

Lemma eat_pos w : forall c c', eat w c = Some c' -> pos c' = pos c + length w.
Proof.
  induction w as [|a w IH]; simpl; intros c c' H.
  - injection H as <-. lia.
  - destruct (rest c) as [|b r]; [discriminate|].
    destruct (Ascii.eqb a b); [|discriminate].
    apply IH in H. simpl in H. lia.
Qed.

Lemma lang_pos r c cs c' cs' : lang r c cs c' cs' -> pos c <= pos c'.
Proof.
  induction 1; simpl in *; try lia.
  - apply eat_pos in H. lia.
  - now apply run_pos in H.
  - apply run_pos in H0. simpl in H0. lia.
  - now apply run_pos in H.
Qed.

Lemma lang_str_cat_pos w r c cs c' cs' :
  lang (Str w +> r) c cs c' cs' -> pos c + length w <= pos c'.
Proof.
  intros (c1 & cs1 & [H1 _]%lang_str_inv & H2%lang_pos)%lang_cat_inv.
  apply eat_pos in H1. lia.
Qed.

Lemma token_re_nonempty : nonempty token_re.
Proof.
  intros c m (c' & Hl & -> & ->)%try_at_Some.
  unfold token_re in Hl. apply lang_grp_inv in Hl as (cs1 & Hl & _).
  apply lang_alt_inv in Hl as [Hl|Hl].
  - apply lang_str_cat_pos in Hl. simpl in Hl. lia.
  - apply lang_alt_inv in Hl as [Hl|Hl].
    + apply lang_str_inv in Hl as [Hl _]. apply eat_pos in Hl. simpl in Hl. lia.
    + apply lang_str_cat_pos in Hl. simpl in Hl. lia.
Qed.

(** [finditer] yields the token stream. *)
Lemma finditer_from_toks r s : nonempty r -> forall lo, lo <= length s ->
  toks r s lo (finditer_from r s lo).
Proof.
  intros Hne lo. remember (length s - lo) as k eqn:Hk. revert lo Hk.
  induction k as [k IH] using lt_wf_ind. intros lo Hk Hlo.
  rewrite finditer_from_unfold by assumption.
  destruct (search_from r s lo) as [m|] eqn:Hs; [|now constructor].
  destruct (search_from_Some _ _ _ _ Hs Hlo) as (Hb & Ht & _).
  pose proof (Hne _ _ Ht) as Hlt.
  destruct (try_at_cur _ _ _ _ Ht) as (_ & Hb' & _); [lia|].
  apply toks_next; try assumption; try lia.
  apply (IH (length s - m_end m)); lia.
Qed.

Lemma finditer_toks s : toks token_re s 0 (finditer token_re s).
Proof. apply (finditer_from_toks _ _ token_re_nonempty 0). lia. Qed.

(** Between two tokens, and around them, the source is cut without loss. *)
Lemma toks_cut r s lo m ms : toks r s lo (m :: ms) ->
  drop lo s = slice s lo (m_start m) ++ group0 s m ++ drop (m_end m) s.
Proof.
  inversion 1; subst. unfold group0, slice.
  rewrite <- (take_drop (m_start m - lo) (drop lo s)) at 1. f_equal.
  rewrite drop_drop. replace (lo + (m_start m - lo)) with (m_start m) by lia.
  rewrite <- (take_drop (m_end m - m_start m) (drop (m_start m) s)) at 1. f_equal.
  rewrite drop_drop. f_equal. lia.
Qed.

Lemma weave_id r s : forall lo ms, toks r s lo ms ->
  weave s lo ms (map (group0 s) ms) = drop lo s.
Proof.
  induction 1 as [|lo m ms Hs H1 H2 H3 Ht IH]; [reflexivity|].
  simpl. rewrite IH. symmetry. eapply toks_cut. econstructor; eassumption.
Qed.

(** * The loops, token by token *)


Lemma patch_step_eq src wm st m :
  patch_step src wm st m =
  let p := (current_group st, group0 src m) in
  PatchState
    (out_parts st ++ [slice src (last_idx st) (m_start m); emit wm p])
    (m_end m)
    (next_scope (current_group st) (group0 src m))
    (updated_count st + (if keyed wm p then 1 else 0)).
Proof.
  unfold patch_step, next_scope, emit, keyed, new_width_of, item_key, is_item,
    patch_item.
  destruct st as [parts li cg n].
  cbn [fst snd out_parts last_idx current_group updated_count].
  destruct (re_match group_open_re _).
  { destruct cg; rewrite <- app_assoc, Nat.add_0_r; reflexivity. }
  destruct (re_match group_close_re _).
  { destruct cg; rewrite <- app_assoc, Nat.add_0_r; reflexivity. }
  destruct (re_match ls_tag_re _); destruct cg as [g|];
    try (rewrite <- app_assoc, Nat.add_0_r; reflexivity).
  destruct (re_search id_attr_re _);
    [|rewrite <- app_assoc, Nat.add_0_r; reflexivity].
  destruct (wm !! _); rewrite <- app_assoc, ?Nat.add_0_r; reflexivity.
Qed.

Lemma patch_fold src wm : forall ms st,
  let st' := fold_left (patch_step src wm) ms st in
  let ps := scoped (current_group st) (map (group0 src) ms) in
  List.concat (out_parts st' ++ [drop (last_idx st') src]) =
    List.concat (out_parts st) ++ weave src (last_idx st) ms (map (emit wm) ps) /\
  updated_count st' = updated_count st + length (filter (fun p => keyed wm p = true) ps).
Proof.
  induction ms as [|m ms IH]; intros st; cbn zeta.
  - simpl. rewrite concat_app. simpl. rewrite app_nil_r. split; [reflexivity | lia].
  - cbn [fold_left map scoped weave].
    destruct (IH (patch_step src wm st m)) as [IH1 IH2]. cbn zeta in IH1, IH2.
    rewrite IH1, IH2. rewrite patch_step_eq. cbn [out_parts last_idx current_group updated_count].
    split.
    + rewrite concat_app. simpl. rewrite app_nil_r, <- !app_assoc. reflexivity.
    + rewrite filter_cons. destruct (keyed wm _) eqn:Hk.
      * rewrite decide_True by reflexivity. simpl. lia.
      * rewrite decide_False by discriminate. lia.
Qed.

(** The patcher is the weaving of the emitted tokens into the source, and
    its count is the number of tokens the table holds a width for. *)
Lemma apply_widths_text_eq src wm :
  apply_widths_text src wm =
  (weave src 0 (finditer token_re src) (map (emit wm) (scoped_tokens src)),
   length (filter (fun p => keyed wm p = true) (scoped_tokens src))).
Proof.
  unfold apply_widths_text, patch_loop.
  destruct (patch_fold src wm (finditer token_re src) patch_init) as [H1 H2].
  cbn zeta in H1, H2. rewrite H1, H2. reflexivity.
Qed.

(** * Edit scripts of the patcher *)




Lemma attr_match_end name s i v : attr_at name s i v ->
  exists r, drop i s = (name ++ lit "=" ++ [dq]) ++ v ++ dq :: r /\
    drop (m_end (attr_match name i v)) s = r.
Proof.
  intros (_ & _ & r & Hr). exists r. split; [exact Hr|].
  unfold attr_match. cbn [m_end].
  pose proof (drop_app_drop _ _ _ _ Hr) as H1.
  pose proof (drop_app_drop _ _ _ _ H1) as H2.
  pose proof (drop_app_drop _ _ [dq] _ H2) as H3.
  exact H3.
Qed.



Lemma scoped_snd ts : forall cg, map snd (scoped cg ts) = ts.
Proof. induction ts as [|t ts IH]; intros cg; simpl; [reflexivity | now rewrite IH]. Qed.


(** * The item pattern and the closing delimiter *)

Lemma search_is_Some r s i c' cs' : i <= length s ->
  lang r (cur s i) [] c' cs' -> is_Some (re_search r s).
Proof.
  intros Hi Hl. rewrite search_from_0.
  destruct (search_from r s 0) eqn:Hs; [now eexists|].
  assert (Hn : try_at r (cur s i) = None).
  { apply (search_from_None _ _ _ Hs i). lia. }
  now apply try_at_None with (c' := c') (cs' := cs') in Hn.
Qed.

Lemma take_end (s : text) i w r : drop i s = w ++ r ->
  take (i + length w) s = take i s ++ w.
Proof.
  intros H. rewrite <- take_take_drop, H. f_equal. apply take_app_length.
Qed.

Lemma last_end (s : text) i w r : drop i s = w ++ r ->
  last (take (i + length w) s) = last (take i s ++ w).
Proof. intros H. now rewrite (take_end _ _ _ _ H). Qed.

Lemma boundary_word_l p n : word_opt p = true ->
  boundary p n = negb (word_opt n).
Proof. unfold boundary. now intros ->. Qed.

Lemma boundary_word_r p n : word_opt n = true ->
  boundary p n = negb (word_opt p).
Proof. unfold boundary. intros ->. now destruct (word_opt p). Qed.

Lemma last_app_ne {A} (l w : list A) : w <> [] -> last (l ++ w) = last w.
Proof.
  intros Hw. destruct (last w) as [x|] eqn:Hl.
  - apply last_app_Some. now left.
  - apply last_None in Hl. contradiction.
Qed.

Lemma head_app_ne {A} (l r : list A) : l <> [] -> head (l ++ r) = head l.
Proof. now destruct l. Qed.

Ltac norm_app :=
  rewrite <- ?app_assoc; cbn [app]; rewrite <- ?app_assoc; try reflexivity.

Ltac norm_app_in H :=
  rewrite <- ?app_assoc in H; cbn [app] in H; rewrite <- ?app_assoc in H.

Lemma ls_text_length x : length (ls_text x) = 16 + length x + 1.
Proof. unfold ls_text. rewrite !length_app. simpl. lia. Qed.

(** A match of the item pattern is the opening text, a run free of [>]
    and a [>]. *)
Lemma ls_lang_inv s i cs0 c' cs' : lang ls_tag_re (cur s i) cs0 c' cs' ->
  exists x r, drop i s = ls_text x ++ r /\ ls_ok x /\
    c' = cur s (i + length (ls_text x)) /\ cs' = cs0.
Proof.
  unfold ls_tag_re. intros H.
  apply lang_cat_inv in H as (c1 & cs1 & H1 & H).
  apply lang_str_cur in H1 as (-> & -> & r1 & Hr1).
  apply lang_cat_inv in H as (c2 & cs2 & H2 & H).
  apply lang_bnd_cur in H2 as (-> & -> & Hb).
  apply lang_cat_inv in H as (c3 & cs3 & H3 & H).
  apply lang_lstar_cur in H3 as (w & r3 & Hr3 & Hw & -> & ->).
  apply lang_cat_inv in H as (c4 & cs4 & H4 & H).
  pose proof (drop_app_drop _ _ _ _ Hr1) as E1.
  pose proof (drop_app_drop _ _ _ _ Hr3) as E3.
  pose proof (last_end _ _ _ _ Hr1) as L1.
  rewrite L1, E1 in Hb.
  rewrite boundary_word_l in Hb by (now rewrite last_app_ne).
  apply negb_true_iff in Hb.
  rewrite E1 in Hr3. apply all_in_not in Hw.
  assert (Hx : exists x r, r1 = x ++ lit ">" ++ r /\ (">"%char ∉ x) /\
            c' = cur s (i + 16 + length x + 1) /\ cs' = cs0).
  { apply lang_opt_inv in H4 as [H4|[-> ->]].
    - apply lang_str_cur in H4 as (-> & -> & r4 & Hr4).
      apply lang_str_cur in H as (-> & -> & r5 & Hr5).
      pose proof (drop_app_drop _ _ _ _ Hr4) as E4.
      rewrite E3 in Hr4. rewrite E4 in Hr5.
      exists (w ++ lit "/"), r5. split; [|split; [|split]].
      + rewrite Hr3, Hr4, Hr5. norm_app.
      + rewrite elem_of_app. intros [Hin|Hin]; [now apply Hw|].
        apply list_elem_of_singleton in Hin. discriminate.
      + f_equal. rewrite length_app. simpl. lia.
      + reflexivity.
    - apply lang_str_cur in H as (-> & -> & r5 & Hr5).
      rewrite E3 in Hr5.
      exists w, r5. split; [|split; [|split]]; auto.
      rewrite Hr3, Hr5. norm_app. }
  destruct Hx as (x & r & Hx & Hgt & -> & ->).
  exists x, r. split; [|split; [|split]].
  - rewrite Hr1, Hx. unfold ls_text. norm_app.
  - split; [exact Hgt|]. rewrite Hx in Hb.
    rewrite app_assoc, head_app_ne in Hb; [exact Hb|].
    destruct x; discriminate.
  - rewrite ls_text_length. f_equal. lia.
  - reflexivity.
Qed.

Lemma ls_lang_intro s i x r cs0 : drop i s = ls_text x ++ r -> ls_ok x ->
  lang ls_tag_re (cur s i) cs0 (cur s (i + length (ls_text x))) cs0.
Proof.
  intros Hd [Hgt Hb]. unfold ls_text in Hd. rewrite <- !app_assoc in Hd.
  pose proof (drop_app_drop _ _ _ _ Hd) as E1.
  pose proof (drop_app_drop _ _ _ _ E1) as E2.
  unfold ls_tag_re.
  eapply L_cat; [eapply lang_str_intro; exact Hd|].
  eapply L_cat.
  { apply lang_bnd_intro. rewrite (last_end _ _ _ _ Hd), E1.
    rewrite boundary_word_l by (now rewrite last_app_ne).
    apply negb_true_iff. rewrite app_assoc, head_app_ne; [exact Hb|].
    destruct x; discriminate. }
  eapply L_cat.
  { eapply lang_lstar_intro; [exact E1 | now apply all_in_not]. }
  eapply L_cat; [apply L_opt_none|].
  rewrite ls_text_length.
  replace (i + (16 + length x + 1))
    with (i + length (lit "<LocalizedString") + length x + length (lit ">"))
    by (simpl; lia).
  eapply lang_str_intro. exact E2.
Qed.

(** A text fully matched by the item pattern has the shape of an item. *)
Lemma ls_full_match tag m : re_match ls_tag_re tag = Some m ->
  m_end m = length tag -> exists x, tag = ls_text x /\ ls_ok x.
Proof.
  intros Hm He. change (try_at ls_tag_re (cur tag 0) = Some m) in Hm.
  apply try_at_Some in Hm as (c' & Hl & _ & Hc).
  apply ls_lang_inv in Hl as (x & r & Hr & Hok & -> & _).
  change (drop 0 tag) with tag in Hr. simpl in Hc. rewrite He in Hc.
  assert (Hlen : length tag = length (ls_text x) + length r).
  { rewrite Hr, length_app. lia. }
  destruct r; [|simpl in Hlen; lia].
  exists x. rewrite app_nil_r in Hr. auto.
Qed.

(** The closing pattern matches at the final [>] of a text that ends
    with it. *)
Lemma close_lang_last y :
  lang close_re (cur (y ++ lit ">") (length y)) []
    (cur (y ++ lit ">") (length y + 1)) [].
Proof.
  set (s := y ++ lit ">").
  assert (Hd : drop (length y) s = [] ++ lit ">") by apply drop_app_length.
  assert (Hd' : drop (length y) s = lit ">" ++ []) by apply drop_app_length.
  assert (Hd1 : drop (length y + 1) s = [] ++ []).
  { apply drop_ge. unfold s. rewrite length_app. simpl. lia. }
  pose proof (lang_star_intro s CSpace _ _ _ [] Hd (Forall_nil_2 _)) as L1.
  pose proof (lang_str_intro s _ _ _ [] Hd') as L2.
  pose proof (lang_star_intro s CSpace _ _ _ [] Hd1 (Forall_nil_2 _)) as L3.
  simpl length in L1, L2, L3. rewrite Nat.add_0_r in L1, L3.
  assert (L4 : lang Eos (cur s (length y + 1)) [] (cur s (length y + 1)) []).
  { constructor. simpl. now rewrite Hd1. }
  unfold close_re.
  eapply L_cat; [exact L1|].
  eapply L_cat; [apply L_opt_none|].
  eapply L_cat; [exact L2|].
  eapply L_cat; [exact L3 | exact L4].
Qed.

Lemma close_search_found y : is_Some (re_search close_re (y ++ lit ">")).
Proof.
  eapply search_is_Some; [|apply close_lang_last].
  rewrite length_app. lia.
Qed.

(** * The shapes of the matches of the token pattern *)


Lemma gopen_text_app a v b r :
  gopen_text a v b ++ r =
  lit "<Group" ++ a ++ (lit "Id=" ++ [dq]) ++ v ++ [dq] ++ b ++ lit ">" ++ r.
Proof. unfold gopen_text. norm_app. Qed.

Lemma gopen_text_length a v b :
  length (gopen_text a v b) = 6 + length a + 4 + length v + 1 + length b + 1.
Proof.
  unfold gopen_text. rewrite !length_app. cbn [length]. rewrite !length_app.
  simpl. lia.
Qed.

Lemma group_open_pat_eq g :
  group_open_pat g =
  Str (lit "<Group") +> Bnd +> Star (CNot ">") +> group_open_tail g.
Proof. reflexivity. Qed.

Lemma tail_lang_inv g s q cs0 c' cs' :
  lang (group_open_tail g) (cur s q) cs0 c' cs' ->
  exists v b r,
    drop q s = (lit "Id=" ++ [dq]) ++ v ++ [dq] ++ b ++ lit ">" ++ r /\
    boundary (last (take q s)) (Some "I"%char) = true /\
    (dq ∉ v) /\ v <> [] /\ (">"%char ∉ b) /\
    c' = cur s (q + 4 + length v + 1 + length b + 1) /\
    cs' = (g, (q + 4, q + 4 + length v)) :: cs0.
Proof.
  unfold group_open_tail. intros H.
  apply lang_cat_inv in H as (c4 & cs4 & H4 & H).
  apply lang_bnd_cur in H4 as (-> & -> & Hb2).
  apply lang_cat_inv in H as (c5 & cs5 & H5 & H).
  apply lang_str_cur in H5 as (-> & -> & r5 & Hr5).
  apply lang_cat_inv in H as (c6 & cs6 & H6 & H).
  apply lang_grp_inv in H6 as (cs6' & H6 & ->).
  apply lang_plus_cur in H6 as (v & r6 & Hr6 & Hv & Hvne & -> & ->).
  apply lang_cat_inv in H as (c7 & cs7 & H7 & H).
  apply lang_str_cur in H7 as (-> & -> & r7 & Hr7).
  apply lang_cat_inv in H as (c8 & cs8 & H8 & H).
  apply lang_star_cur in H8 as (b & r8 & Hr8 & Hbb & -> & ->).
  apply lang_str_cur in H as (-> & -> & r9 & Hr9).
  pose proof (drop_app_drop _ _ _ _ Hr5) as E5.
  pose proof (drop_app_drop _ _ _ _ Hr6) as E6.
  pose proof (drop_app_drop _ _ _ _ Hr7) as E7.
  pose proof (drop_app_drop _ _ _ _ Hr8) as E8.
  rewrite E5 in Hr6. rewrite E6 in Hr7. rewrite E7 in Hr8. rewrite E8 in Hr9.
  apply all_in_not in Hv, Hbb.
  exists v, b, r9. split; [|split; [|split; [|split; [|split; [|split]]]]];
    try assumption; try reflexivity.
  - rewrite Hr5, Hr6, Hr7, Hr8, Hr9. reflexivity.
  - now rewrite Hr5 in Hb2.
Qed.

Lemma tail_lang_intro g s q v b r cs0 :
  drop q s = (lit "Id=" ++ [dq]) ++ v ++ [dq] ++ b ++ lit ">" ++ r ->
  boundary (last (take q s)) (Some "I"%char) = true ->
  (dq ∉ v) -> v <> [] -> (">"%char ∉ b) ->
  lang (group_open_tail g) (cur s q) cs0
    (cur s (q + 4 + length v + 1 + length b + 1))
    ((g, (q + 4, q + 4 + length v)) :: cs0).
Proof.
  intros E2 Hbd Hv Hvne Hb.
  pose proof (drop_app_drop _ _ _ _ E2) as E3.
  pose proof (drop_app_drop _ _ _ _ E3) as E4.
  pose proof (drop_app_drop _ _ _ _ E4) as E5.
  pose proof (drop_app_drop _ _ _ _ E5) as E6.
  simpl length in E3, E4, E5, E6.
  pose proof (lang_bnd_intro s q cs0) as L1. rewrite E2 in L1.
  specialize (L1 Hbd).
  pose proof (lang_str_intro s _ _ _ cs0 E2) as L2. simpl length in L2.
  assert (Hv' : all_in (cls (CNot dq)) v) by now apply all_in_not.
  pose proof (L_grp g _ _ _ _ _ (lang_plus_intro s _ _ _ _ cs0 E3 Hv' Hvne)) as L3.
  simpl pos in L3.
  pose proof (lang_str_intro s _ _ _ ((g, (q + 4, q + 4 + length v)) :: cs0) E4)
    as L4. simpl length in L4.
  assert (Hb' : all_in (cls (CNot ">")) b) by now apply all_in_not.
  pose proof (lang_star_intro s _ _ _ _ ((g, (q + 4, q + 4 + length v)) :: cs0)
                E5 Hb') as L5.
  pose proof (lang_str_intro s _ _ _ ((g, (q + 4, q + 4 + length v)) :: cs0) E6)
    as L6. simpl length in L6.
  unfold group_open_tail.
  eapply L_cat; [exact L1|]. eapply L_cat; [exact L2|].
  eapply L_cat; [exact L3|]. eapply L_cat; [exact L4|].
  eapply L_cat; [exact L5 | exact L6].
Qed.

(** The tail of the scope-open pattern has one match at most at an offset. *)
Lemma tail_lang_unique g s q cs0 c1 cs1 c2 cs2 :
  lang (group_open_tail g) (cur s q) cs0 c1 cs1 ->
  lang (group_open_tail g) (cur s q) cs0 c2 cs2 ->
  c1 = c2 /\ cs1 = cs2.
Proof.
  intros (v & b & r & Hd & _ & Hv & _ & Hb & -> & ->)%tail_lang_inv
         (v' & b' & r' & Hd' & _ & Hv' & _ & Hb' & -> & ->)%tail_lang_inv.
  rewrite Hd in Hd'. apply app_inv_head in Hd'.
  apply split_first in Hd' as [<- Hd']; [|assumption..].
  change (lit ">" ++ r) with (">"%char :: r) in Hd'.
  change (lit ">" ++ r') with (">"%char :: r') in Hd'.
  apply split_first in Hd' as [<- _]; [|assumption..].
  auto.
Qed.

Lemma head_boundary_iff a :
  word_opt (head (a ++ lit "I")) = false <->
  forall r, boundary (Some "p"%char) (head (a ++ (lit "Id=" ++ [dq]) ++ r)) = true.
Proof.
  split.
  - intros H r. rewrite boundary_word_l by reflexivity. apply negb_true_iff.
    refine (eq_trans _ H). f_equal. destruct a; reflexivity.
  - intros H. specialize (H []). rewrite boundary_word_l in H by reflexivity.
    apply negb_true_iff in H. refine (eq_trans _ H). f_equal.
    destruct a; reflexivity.
Qed.

Lemma last_Group_app l a : last (l ++ lit "<Group" ++ a) = last (lit "p" ++ a).
Proof.
  change (lit "<Group") with (lit "<Grou" ++ lit "p").
  rewrite <- (app_assoc (lit "<Grou") (lit "p") a), (app_assoc l).
  now rewrite last_app_ne by discriminate.
Qed.

Lemma gopen_lang_inv g s i cs0 c' cs' :
  lang (group_open_pat g) (cur s i) cs0 c' cs' ->
  exists a v b r,
    drop i s = gopen_text a v b ++ r /\ gopen_ok a v b /\
    c' = cur s (i + length (gopen_text a v b)) /\
    cs' = (g, (i + 6 + length a + 4, i + 6 + length a + 4 + length v)) :: cs0.
Proof.
  rewrite group_open_pat_eq. intros H.
  apply lang_cat_inv in H as (c1 & cs1 & H1 & H).
  apply lang_str_cur in H1 as (-> & -> & r1 & Hr1).
  apply lang_cat_inv in H as (c2 & cs2 & H2 & H).
  apply lang_bnd_cur in H2 as (-> & -> & Hb1).
  apply lang_cat_inv in H as (c3 & cs3 & H3 & H).
  apply lang_star_cur in H3 as (a & r3 & Hr3 & Ha & -> & ->).
  apply tail_lang_inv in H as (v & b & r & Hd & Hb2 & Hv & Hvne & Hb & -> & ->).
  pose proof (drop_app_drop _ _ _ _ Hr1) as E1.
  pose proof (drop_app_drop _ _ _ _ Hr3) as E3.
  simpl length in Hb1, Hb2, Hr3, Hd, E1, E3.
  rewrite E1 in Hr3. rewrite E3 in Hd. subst r1 r3.
  apply all_in_not in Ha.
  exists a, v, b, r. split; [|split; [|split]].
  - rewrite gopen_text_app. exact Hr1.
  - repeat split; try assumption.
    + pose proof (last_end _ _ _ _ Hr1) as L1. simpl length in L1.
      rewrite L1, E1 in Hb1.
      rewrite last_app_ne in Hb1 by discriminate.
      apply head_boundary_iff. intros r0.
      rewrite boundary_word_l in Hb1 by reflexivity.
      rewrite boundary_word_l by reflexivity.
      refine (eq_trans _ Hb1). do 2 f_equal. destruct a; reflexivity.
    + rewrite boundary_word_r in Hb2 by reflexivity.
      apply negb_true_iff in Hb2. refine (eq_trans _ Hb2). f_equal.
      rewrite app_assoc in Hr1. pose proof (last_end _ _ _ _ Hr1) as L2.
      rewrite length_app in L2. simpl length in L2. rewrite Nat.add_assoc in L2.
      rewrite L2. symmetry. apply last_Group_app.
  - rewrite gopen_text_length. simpl length. f_equal. lia.
  - simpl length. reflexivity.
Qed.

Lemma gopen_tail_boundary s i a r : drop i s = lit "<Group" ++ a ++ r ->
  word_opt (last (lit "p" ++ a)) = false ->
  boundary (last (take (i + 6 + length a) s)) (Some "I"%char) = true.
Proof.
  intros Hd B2. rewrite boundary_word_r by reflexivity. apply negb_true_iff.
  refine (eq_trans _ B2). f_equal.
  rewrite app_assoc in Hd. pose proof (last_end _ _ _ _ Hd) as L2.
  rewrite length_app in L2. simpl length in L2. rewrite Nat.add_assoc in L2.
  rewrite L2. apply last_Group_app.
Qed.

Lemma gopen_lang_intro g s i a v b r cs0 :
  drop i s = gopen_text a v b ++ r -> gopen_ok a v b ->
  lang (group_open_pat g) (cur s i) cs0 (cur s (i + length (gopen_text a v b)))
    ((g, (i + 6 + length a + 4, i + 6 + length a + 4 + length v)) :: cs0).
Proof.
  intros Hd (Ha & Hv & Hvne & Hb & B1 & B2).
  rewrite gopen_text_length. rewrite gopen_text_app in Hd.
  pose proof (drop_app_drop _ _ _ _ Hd) as E1.
  pose proof (drop_app_drop _ _ _ _ E1) as E2.
  simpl length in E1, E2.
  pose proof (lang_str_intro s _ _ _ cs0 Hd) as L1. simpl length in L1.
  assert (L2 : lang Bnd (cur s (i + 6)) cs0 (cur s (i + 6)) cs0).
  { apply lang_bnd_intro. pose proof (last_end _ _ _ _ Hd) as L.
    simpl length in L. rewrite L, E1, last_app_ne by discriminate.
    now apply head_boundary_iff. }
  assert (Ha' : all_in (cls (CNot ">")) a) by now apply all_in_not.
  pose proof (lang_star_intro s _ _ _ _ cs0 E1 Ha') as L3.
  pose proof (tail_lang_intro g s _ v b r cs0 E2
                (gopen_tail_boundary _ _ _ _ Hd B2) Hv Hvne Hb) as L4.
  rewrite group_open_pat_eq.
  eapply L_cat; [exact L1|]. eapply L_cat; [exact L2|].
  eapply L_cat; [exact L3|].
  replace (i + (6 + length a + 4 + length v + 1 + length b + 1))
    with (i + 6 + length a + 4 + length v + 1 + length b + 1) by lia.
  exact L4.
Qed.

(** Every match of the token pattern has one of the three shapes. *)
Lemma token_lang_inv s i c' cs' : lang token_re (cur s i) [] c' cs' ->
  exists t r, drop i s = t ++ r /\ token_shape t /\ c' = cur s (i + length t).
Proof.
  unfold token_re. intros H.
  apply lang_grp_inv in H as (cs1 & H & _).
  apply lang_alt_inv in H as [H|H]; [|apply lang_alt_inv in H as [H|H]].
  - apply gopen_lang_inv in H as (a & v & b & r & Hd & Hok & -> & _).
    exists (gopen_text a v b), r. split; [exact Hd|]. split; [|reflexivity].
    now apply shape_open with (a := a) (v := v) (b := b).
  - apply lang_str_cur in H as (-> & _ & r & Hd).
    exists (lit "</Group>"), r. split; [exact Hd|]. split; [|reflexivity].
    now apply shape_close.
  - apply ls_lang_inv in H as (x & r & Hd & Hok & -> & _).
    exists (ls_text x), r. split; [exact Hd|]. split; [|reflexivity].
    now apply shape_item with (x := x).
Qed.

Lemma toks_shape s : forall lo ms, toks token_re s lo ms -> lo <= length s ->
  Forall (fun m => token_shape (group0 s m)) ms.
Proof.
  induction 1 as [|lo m ms Hs H1 H2 H3 Ht IH]; intros Hlo; constructor.
  - apply search_from_Some in Hs as (_ & Hm & _); [|exact Hlo].
    apply try_at_cur in Hm as (_ & _ & Hl); [|lia].
    apply token_lang_inv in Hl as (t & r & Hd & Hsh & Hc).
    unfold cur in Hc. injection Hc as Hc _ _.
    unfold group0. rewrite Hc. now rewrite (drop_slice _ _ _ _ Hd).
  - apply IH. exact H3.
Qed.

Lemma tokens_shape s : Forall token_shape (tokens s).
Proof.
  unfold tokens. apply Forall_map.
  apply (toks_shape s 0 _ (finditer_toks s)). lia.
Qed.

(** What the three patterns say of a token of each shape. *)

Lemma match_open_shape a v b : gopen_ok a v b ->
  is_Some (re_match group_open_re (gopen_text a v b)).
Proof.
  intros Hok. eapply try_at_is_Some.
  apply (gopen_lang_intro 1 (gopen_text a v b) 0 a v b [] []); [|exact Hok].
  now rewrite app_nil_r.
Qed.

Lemma match_item_shape x : ls_ok x -> is_item (ls_text x) = true.
Proof.
  intros Hok. unfold is_item.
  destruct (re_match ls_tag_re (ls_text x)) as [m|] eqn:Hm.
  - reflexivity.
  - exfalso. change (try_at ls_tag_re (cur (ls_text x) 0) = None) in Hm.
    eapply try_at_None in Hm. apply Hm.
    apply (ls_lang_intro (ls_text x) 0 x [] []); [|exact Hok].
    now rewrite app_nil_r.
Qed.

(** Among the tokens, the item branch is reached by the item tags only. *)
Lemma is_item_shape t : token_shape t -> is_item t = true ->
  exists x, t = ls_text x /\ ls_ok x.
Proof.
  intros [a v b -> Hok| -> |x -> Hok] Hi.
  - unfold is_item in Hi. destruct (match_open_shape a v b Hok) as [m Hm].
    rewrite Hm in Hi. discriminate.
  - discriminate Hi.
  - eauto.
Qed.

Lemma ls_text_inj x x' r r' : (">"%char ∉ x) -> (">"%char ∉ x') ->
  ls_text x ++ r = ls_text x' ++ r' -> x = x' /\ r = r'.
Proof.
  unfold ls_text. intros Hx Hx' H. rewrite <- !app_assoc in H.
  apply app_inv_head in H. cbn [app lit] in H.
  change (lit ">" ++ r) with (">"%char :: r) in H.
  change (lit ">" ++ r') with (">"%char :: r') in H.
  now apply split_first in H.
Qed.

(** The item pattern matches an item tag as a whole. *)
Lemma match_item_full x : ls_ok x ->
  exists m, re_match ls_tag_re (ls_text x) = Some m /\
    m_end m = length (ls_text x).
Proof.
  intros Hok.
  assert (Hl : lang ls_tag_re (cur (ls_text x) 0) []
                 (cur (ls_text x) (0 + length (ls_text x))) []).
  { apply (ls_lang_intro (ls_text x) 0 x [] []); [|exact Hok].
    now rewrite app_nil_r. }
  destruct (try_at_is_Some _ _ _ _ Hl) as [m Hm].
  exists m. split; [exact Hm|].
  apply try_at_Some in Hm as (c' & Hl' & _ & ->).
  apply ls_lang_inv in Hl' as (x' & r' & Hd & [Hx' _] & -> & _).
  change (drop 0 (ls_text x)) with (ls_text x) in Hd.
  rewrite <- (app_nil_r (ls_text x)) in Hd at 1.
  destruct Hok as [Hx _].
  apply ls_text_inj in Hd as [<- _]; auto.
Qed.

(** Every token that reaches the item branch is matched as a whole by the
    item pattern. *)
Lemma item_tokens_full src :
  Forall (fun t => is_item t = true ->
            exists m, re_match ls_tag_re t = Some m /\ m_end m = length t)
         (tokens src).
Proof.
  eapply Forall_impl; [apply tokens_shape|].
  intros t Hsh Hi. apply is_item_shape in Hi as (x & -> & Hok); [|exact Hsh].
  now apply match_item_full.
Qed.

(** * Offsets and decompositions *)

Lemma drop_decomp (s : text) i r : drop i s = r -> i <= length s ->
  s = take i s ++ r /\ length (take i s) = i.
Proof.
  intros <- Hi. split; [now rewrite take_drop | now apply length_take_le].
Qed.

Lemma drop_nonempty (s : text) i c r : drop i s = c :: r -> i <= length s.
Proof.
  intros H. destruct (decide (i <= length s)); [assumption|].
  rewrite drop_ge in H by lia. discriminate.
Qed.



(** * The Height pattern *)

Lemma height_lang_iff s i c' cs' :
  lang height_re (cur s i) [] c' cs' <->
  lit_at (lit "Height=" ++ [dq]) s i /\ c' = cur s (i + 8) /\ cs' = [].
Proof.
  unfold height_re. split.
  - intros H. apply lang_cat_inv in H as (c1 & cs1 & H1 & H).
    apply lang_bnd_cur in H1 as (-> & -> & Hb).
    apply lang_str_cur in H as (-> & -> & r & Hr).
    split; [|auto]. split; [exact Hb | eauto].
  - intros ((Hb & r & Hr) & -> & ->).
    eapply L_cat; [now apply lang_bnd_intro|].
    apply (lang_str_intro s _ i r [] Hr).
Qed.

Lemma height_at_iff tag pre post :
  height_at tag pre post <->
  lit_at (lit "Height=" ++ [dq]) tag (length pre) /\
  pre = take (length pre) tag /\
  post = drop (length pre + 8) tag.
Proof.
  split.
  - intros [-> Hb]. split; [split|split].
    + rewrite take_app_length, drop_app_length.
      rewrite boundary_word_r by reflexivity. now rewrite Hb.
    + exists post. now rewrite drop_app_length.
    + now rewrite take_app_length.
    + rewrite <- drop_drop, drop_app_length.
      now rewrite (drop_app_length' (lit "Height=" ++ [dq])).
  - intros ((Hb & r & Hr) & Hpre & Hpost).
    apply drop_nonempty in Hr as Hi.
    pose proof (drop_app_drop _ _ _ _ Hr) as E. simpl length in E.
    rewrite E in Hpost. subst r.
    destruct (drop_decomp _ _ _ Hr Hi) as [Ht _]. rewrite <- Hpre in Ht.
    split; [exact Ht|].
    rewrite Hr, <- Hpre in Hb. rewrite boundary_word_r in Hb by reflexivity.
    now apply negb_true_iff in Hb.
Qed.

Lemma no_height_search tag :
  (forall pre post, ~ height_at tag pre post) <-> re_search height_re tag = None.
Proof.
  split.
  - intros H. destruct (re_search height_re tag) as [m|] eqn:Hs; [|reflexivity].
    exfalso. rewrite search_from_0 in Hs.
    apply search_from_Some in Hs as (Hb & Hm & _); [|lia].
    apply try_at_cur in Hm as (_ & _ & Hl); [|lia].
    apply height_lang_iff in Hl as (Hl & _).
    apply (H (take (m_start m) tag) (drop (m_start m + 8) tag)).
    apply height_at_iff. rewrite length_take_le by lia. auto.
  - intros H pre post Ha. apply height_at_iff in Ha as (Hl & _ & _).
    destruct Hl as (Hb & r & Hr). apply drop_nonempty in Hr as Hi.
    rewrite search_from_0 in H.
    pose proof (search_from_None _ _ _ H (length pre)) as Hn.
    eapply try_at_None in Hn; [|lia]. apply Hn.
    apply height_lang_iff. split; [|split; reflexivity]. split; eauto.
Qed.

Lemma first_height_search tag pre post : first_height tag pre post ->
  exists m, re_search height_re tag = Some m /\ m_start m = length pre.
Proof.
  intros [Ha Hfirst].
  apply height_at_iff in Ha as (Hl & Hpre & Hpost).
  assert (Hi : length pre <= length tag).
  { destruct Hl as (_ & r & Hr). now apply drop_nonempty in Hr. }
  assert (Hlang : lang height_re (cur tag (length pre)) []
                    (cur tag (length pre + 8)) []).
  { apply height_lang_iff. auto. }
  destruct (try_at_is_Some _ _ _ _ Hlang) as [m Hm].
  exists m. split.
  - rewrite search_from_0. apply search_from_intro with (i := length pre);
      [lia | exact Hm |].
    intros j Hj. destruct (try_at height_re (cur tag j)) as [m'|] eqn:Hm';
      [|reflexivity].
    exfalso. apply try_at_cur in Hm' as (_ & _ & Hl'); [|lia].
    apply height_lang_iff in Hl' as (Hl' & _).
    assert (Ha' : height_at tag (take j tag) (drop (j + 8) tag)).
    { apply height_at_iff. rewrite length_take_le by lia. auto. }
    apply Hfirst in Ha'. rewrite length_take_le in Ha' by lia. lia.
  - apply try_at_cur in Hm as (Hs & _); [exact Hs | exact Hi].
Qed.

(** * The closing pattern *)

Lemma all_in_last p l c : all_in p l -> last l = Some c -> p c = true.
Proof.
  intros Ha Hl. apply last_Some_elem_of in Hl.
  unfold all_in in Ha. rewrite Forall_forall in Ha. now apply Ha.
Qed.

Lemma all_in_app p l1 l2 : all_in p (l1 ++ l2) <-> all_in p l1 /\ all_in p l2.
Proof. apply Forall_app. Qed.

Lemma at_eos_space r : at_eos r = true -> all_in is_space r.
Proof.
  destruct r as [|c [|d r]]; simpl; intros H; try discriminate.
  - constructor.
  - apply Ascii.eqb_eq in H as ->. repeat constructor.
Qed.

Lemma close_lang_inv s j c' cs' : lang close_re (cur s j) [] c' cs' ->
  exists ws1 sl t,
    drop j s = ws1 ++ sl ++ lit ">" ++ t /\
    all_in is_space ws1 /\ (sl = [] \/ sl = lit "/") /\ all_in is_space t.
Proof.
  unfold close_re. intros H.
  apply lang_cat_inv in H as (c1 & cs1 & H1 & H).
  apply lang_star_cur in H1 as (ws1 & r1 & Hr1 & Hw1 & -> & ->).
  apply lang_cat_inv in H as (c2 & cs2 & H2 & H).
  pose proof (drop_app_drop _ _ _ _ Hr1) as E1.
  assert (Hsl : exists sl r2, r1 = sl ++ r2 /\ (sl = [] \/ sl = lit "/") /\
            c2 = cur s (j + length ws1 + length sl) /\ cs2 = []).
  { apply lang_opt_inv in H2 as [H2|[-> ->]].
    - apply lang_str_cur in H2 as (-> & -> & r2 & Hr2). rewrite E1 in Hr2.
      exists (lit "/"), r2. auto.
    - exists [], r1. simpl. rewrite Nat.add_0_r. auto. }
  destruct Hsl as (sl & r2 & -> & Hsl & -> & ->).
  pose proof (drop_app_drop _ _ _ _ E1) as E2.
  apply lang_cat_inv in H as (c3 & cs3 & H3 & H).
  apply lang_str_cur in H3 as (-> & -> & r3 & Hr3). rewrite E2 in Hr3. subst r2.
  pose proof (drop_app_drop _ _ _ _ E2) as E3.
  apply lang_cat_inv in H as (c4 & cs4 & H4 & H).
  apply lang_star_cur in H4 as (ws2 & r4 & Hr4 & Hw2 & -> & ->).
  rewrite E3 in Hr4. subst r3.
  pose proof (drop_app_drop _ _ _ _ E3) as E4.
  apply lang_eos_cur in H as (_ & _ & He). rewrite E4 in He.
  exists ws1, sl, (ws2 ++ r4). split; [exact Hr1|]. split; [exact Hw1|].
  split; [exact Hsl|]. apply all_in_app. split; [exact Hw2|].
  now apply at_eos_space.
Qed.

Lemma close_lang_intro s j ws sl : drop j s = ws ++ sl ++ lit ">" ->
  all_in is_space ws -> sl = [] \/ sl = lit "/" ->
  exists c', lang close_re (cur s j) [] c' [].
Proof.
  intros Hd Hw Hsl.
  pose proof (drop_app_drop _ _ _ _ Hd) as E1.
  pose proof (drop_app_drop _ _ _ _ E1) as E2.
  rewrite <- (app_nil_r (lit ">")) in E2.
  pose proof (drop_app_drop _ _ _ _ E2) as E3.
  pose proof (lang_star_intro s CSpace _ _ _ [] Hd Hw) as L1.
  assert (L2 : lang (Opt (Str (lit "/"))) (cur s (j + length ws)) []
                 (cur s (j + length ws + length sl)) []).
  { destruct Hsl as [->| ->].
    - simpl. rewrite Nat.add_0_r. apply L_opt_none.
    - apply L_opt_some. eapply lang_str_intro. exact E1. }
  pose proof (lang_str_intro s _ _ _ [] E2) as L3.
  assert (E3' : drop (j + length ws + length sl + length (lit ">")) s = [] ++ [])
    by exact E3.
  pose proof (lang_star_intro s CSpace _ _ _ [] E3' (Forall_nil_2 _)) as L4.
  simpl length in L4. rewrite Nat.add_0_r in L4.
  assert (L5 : lang Eos (cur s (j + length ws + length sl + 1)) []
                 (cur s (j + length ws + length sl + 1)) []).
  { constructor. simpl. simpl length in E3. now rewrite E3. }
  exists (cur s (j + length ws + length sl + 1)). unfold close_re.
  eapply L_cat; [exact L1|].
  eapply L_cat; [exact L2|].
  eapply L_cat; [exact L3|].
  eapply L_cat; [exact L4 | exact L5].
Qed.

Lemma space_facts : is_space ">" = false /\ is_space "/" = false.
Proof. split; reflexivity. Qed.

Lemma snoc_eq {A} (l1 l2 : list A) a b : l1 ++ [a] = l2 ++ [b] -> l1 = l2 /\ a = b.
Proof. apply app_inj_tail. Qed.

(** Before the blanks that precede the closing delimiter, the closing
    pattern has no match. *)
Lemma close_no_earlier tag body ws closer j c' cs' :
  closes_with tag body ws closer -> j < length body ->
  ~ lang close_re (cur tag j) [] c' cs'.
Proof.
  intros (-> & Hws & Hbody & Hcl) Hj Hl.
  apply close_lang_inv in Hl as (ws1 & sl & t & Hd & Hw1 & Hsl & Ht).
  rewrite drop_app_le in Hd by lia.
  set (bs := drop j body) in Hd.
  assert (Hbs : exists c, last bs = Some c /\ is_space c = false).
  { assert (Hne : bs <> []).
    { intros E. apply (f_equal length) in E. unfold bs in E.
      rewrite length_drop in E. simpl in E. lia. }
    apply last_is_Some in Hne as [c Hc]. exists c. split; [exact Hc|].
    apply Hbody. unfold bs in Hc.
    rewrite <- (take_drop j body), last_app, Hc. reflexivity. }
  destruct Hbs as (c & Hc & Hcs).
  assert (Hclose : exists sl0, closer = sl0 ++ lit ">" /\
            (sl0 = lit "/" \/ (sl0 = [] /\ ~ (ws = [] /\ last body = Some "/"%char)))).
  { destruct Hcl as [->|[-> Hn]]; [exists (lit "/") | exists []]; auto. }
  destruct Hclose as (sl0 & -> & Hsl0).
  (* nothing follows the final > *)
  assert (Ht0 : t = []).
  { destruct (last t) as [y|] eqn:Hy; [|now apply last_None].
    exfalso. apply (f_equal last) in Hd.
    change (lit ">") with [">"%char] in Hd.
    assert (HL : last (bs ++ ws ++ sl0 ++ [">"%char]) = Some ">"%char)
      by (rewrite !app_assoc; apply last_snoc).
    rewrite HL, !last_app, Hy in Hd. injection Hd as <-.
    now apply (all_in_last _ _ _ Ht) in Hy. }
  subst t. rewrite app_nil_r in Hd.
  change (lit ">") with [">"%char] in Hd.
  rewrite !app_assoc in Hd. apply snoc_eq in Hd as [Hd _].
  rewrite <- !app_assoc in Hd.
  assert (Hcase : forall u, all_in is_space u -> bs ++ u <> ws1).
  { intros u Hu E. rewrite <- E in Hw1. apply all_in_app in Hw1 as [Hb _].
    apply (all_in_last _ _ _ Hb) in Hc. congruence. }
  destruct Hsl0 as [->|[-> Hn]]; destruct Hsl as [->| ->];
    change (lit "/") with ["/"%char] in Hd.
  - (* closer />, no slash matched *)
    rewrite app_nil_r in Hd.
    assert (Hl : last ws1 = Some "/"%char).
    { rewrite <- Hd, !app_assoc. apply last_snoc. }
    now apply (all_in_last _ _ _ Hw1) in Hl.
  - (* closer />, slash matched *)
    rewrite !app_assoc in Hd. apply snoc_eq in Hd as [Hd _].
    now apply (Hcase ws).
  - (* closer >, no slash matched *)
    rewrite !app_nil_r in Hd. now apply (Hcase ws).
  - (* closer >, slash matched *)
    rewrite app_nil_r in Hd.
    destruct (last ws) as [y|] eqn:Hy.
    + assert (Hl : last (bs ++ ws) = Some y) by (rewrite last_app, Hy; reflexivity).
      rewrite Hd, last_snoc in Hl. injection Hl as <-.
      now apply (all_in_last _ _ _ Hws) in Hy.
    + apply last_None in Hy. subst ws. rewrite app_nil_r in Hd.
      apply Hn. split; [reflexivity|].
      assert (Hl : last bs = Some "/"%char) by (rewrite Hd; apply last_snoc).
      unfold bs in Hl. rewrite <- (take_drop j body), last_app, Hl. reflexivity.
Qed.

(** The search for the closing delimiter stops where its blanks begin. *)
Lemma closes_with_search tag body ws closer : closes_with tag body ws closer ->
  exists m, re_search close_re tag = Some m /\ m_start m = length body.
Proof.
  intros Hcw. pose proof Hcw as (Ht & Hws & Hbody & Hcl).
  assert (Hd : exists sl, drop (length body) tag = ws ++ sl ++ lit ">" /\
            (sl = [] \/ sl = lit "/")).
  { rewrite Ht, drop_app_length.
    destruct Hcl as [->|[-> _]]; [exists (lit "/") | exists []]; auto. }
  destruct Hd as (sl & Hd & Hsl).
  destruct (close_lang_intro _ _ _ _ Hd Hws Hsl) as [c' Hl].
  assert (Hi : length body <= length tag).
  { rewrite Ht, length_app. lia. }
  destruct (try_at_is_Some _ _ _ _ Hl) as [m Hm].
  exists m. split.
  - rewrite search_from_0. apply search_from_intro with (i := length body);
      [lia | exact Hm |].
    intros j Hj. destruct (try_at close_re (cur tag j)) as [m'|] eqn:Hm';
      [|reflexivity].
    exfalso. apply try_at_cur in Hm' as (_ & _ & Hl'); [|lia].
    apply (close_no_earlier _ _ _ _ j _ _ Hcw) in Hl'; [exact Hl' | lia].
  - apply try_at_cur in Hm as (Hs & _); [exact Hs | exact Hi].
Qed.


(** * Greedy repetition picks the longest run that lets the rest match *)

Lemma star_greedy_none {A} p n pv r (k : cursor -> option A) :
  (forall c', run p (Cursor n pv r) c' -> k c' = None) ->
  star_greedy p n pv r k = None.
Proof.
  intros H. destruct (star_greedy p n pv r k) as [x|] eqn:Hs; [|reflexivity].
  apply star_greedy_sound in Hs as (c' & Hr & Hk). rewrite H in Hk by assumption.
  discriminate.
Qed.

Lemma star_greedy_pick {A} p (k : cursor -> option A) x c c' :
  run p c c' -> k c' = Some x ->
  (forall c'', run p c' c'' -> pos c' < pos c'' -> k c'' = None) ->
  star_greedy p (pos c) (prev c) (rest c) k = Some x.
Proof.
  induction 1 as [[n pv r]|n pv b r c' Hp Hr IH]; intros Hk Hlonger; simpl.
  - destruct r as [|b r]; simpl; [exact Hk|].
    destruct (p b) eqn:Hp; [|exact Hk].
    rewrite star_greedy_none; [exact Hk|].
    intros c'' Hr. apply Hlonger.
    + now apply run_more.
    + apply run_pos in Hr. simpl in *. lia.
  - rewrite Hp. specialize (IH Hk Hlonger). simpl in IH. now rewrite IH.
Qed.

(** A pattern with a single way of matching at [c] hands exactly it to the
    continuation. *)
Lemma exec_unique r c cs c1 cs1 k x :
  lang r c cs c1 cs1 ->
  (forall c2 cs2, lang r c cs c2 cs2 -> c2 = c1 /\ cs2 = cs1) ->
  k c1 cs1 = Some x -> exec r c cs k = Some x.
Proof.
  intros Hl Hu Hk.
  destruct (exec_complete _ _ _ _ _ Hl k) as [y Hy]; [rewrite Hk; now eexists|].
  rewrite Hy. apply exec_sound in Hy as (c2 & cs2 & Hl2 & Hk2).
  apply Hu in Hl2 as [-> ->]. congruence.
Qed.

Lemma exec_none r c cs k :
  (forall c' cs', ~ lang r c cs c' cs') -> exec r c cs k = None.
Proof.
  intros H. destruct (exec r c cs k) as [y|] eqn:Hy; [|reflexivity].
  apply exec_sound in Hy as (c2 & cs2 & Hl2 & _). now apply H in Hl2.
Qed.

(** * Which Id attribute the scope-open pattern takes *)

(** A prefix without [>] of a text stays before the first [>]. *)
Lemma prefix_before_gt (u z1 v z2 : text) :
  (">"%char ∉ u) -> u ++ z1 = v ++ ">"%char :: z2 -> exists y, v = u ++ y.
Proof.
  revert v. induction u as [|c u IH]; intros v Hu H.
  - now exists v.
  - destruct v as [|d v]; simpl in H.
    + injection H as -> _. exfalso. apply Hu. left.
    + injection H as -> H. apply IH in H as [y ->].
      * now exists y.
      * intros Hin. apply Hu. now right.
Qed.

(** No second Id attribute can start inside the first four characters. *)
Lemma id_overlap (w y t : text) : w <> [] ->
  (lit "Id=" ++ [dq]) ++ t = w ++ (lit "Id=" ++ [dq]) ++ y ->
  exists w2, w = (lit "Id=" ++ [dq]) ++ w2.
Proof.
  intros Hw H. unfold dq in *.
  destruct w as [|c1 [|c2 [|c3 [|c4 w2]]]]; [done|..]; cbn in H.
  - inversion H.
  - inversion H.
  - inversion H.
  - inversion H; subst. now exists w2.
Qed.

Lemma tail_none_later g s q v b r w r' cs :
  drop q s = (lit "Id=" ++ [dq]) ++ v ++ [dq] ++ b ++ lit ">" ++ r ->
  ~ occurs (lit "Id=" ++ [dq]) (v ++ dq :: b) ->
  drop q s = w ++ r' -> w <> [] -> (">"%char ∉ w) ->
  forall c' cs', ~ lang (group_open_tail g) (cur s (q + length w)) cs c' cs'.
Proof.
  intros Hd Hocc Hw Hne Hgt c' cs' Hl.
  apply tail_lang_inv in Hl as (v' & b' & r'' & Hd' & _).
  rewrite (drop_app_drop _ _ _ _ Hw) in Hd'. subst r'.
  rewrite Hw in Hd.
  symmetry in Hd. destruct (id_overlap _ _ _ Hne Hd) as [w2 ->].
  rewrite <- !app_assoc in Hd. apply app_inv_head in Hd.
  norm_app_in Hd. injection Hd as Hd.
  assert (Hu : ">"%char ∉ w2 ++ lit "Id=" ++ [dq]).
  { rewrite elem_of_app. intros [Hin|Hin].
    - apply Hgt. rewrite elem_of_app. now right.
    - cbn in Hin. rewrite !elem_of_cons in Hin.
      destruct Hin as [Hin|[Hin|[Hin|[Hin|Hin]]]]; try discriminate.
      inversion Hin. }
  assert (Hd2 : (w2 ++ lit "Id=" ++ [dq]) ++ (v' ++ [dq] ++ b' ++ lit ">" ++ r'') =
                (v ++ dq :: b) ++ ">"%char :: r).
  { rewrite <- !app_assoc. symmetry. exact Hd. }
  apply prefix_before_gt in Hd2 as [y Hy]; [|exact Hu].
  apply Hocc. exists w2, y. rewrite Hy. norm_app.
Qed.

(** On a scope-open tag whose Id attribute is followed by no other text of
    that form, the pattern takes exactly the tag and captures its Id. *)
Lemma gopen_exec g s i a v b r cs k x :
  drop i s = gopen_text a v b ++ r -> gopen_ok a v b ->
  ~ occurs (lit "Id=" ++ [dq]) (v ++ dq :: b) ->
  k (cur s (i + length (gopen_text a v b)))
    ((g, (i + 6 + length a + 4, i + 6 + length a + 4 + length v)) :: cs) = Some x ->
  exec (group_open_pat g) (cur s i) cs k = Some x.
Proof.
  intros Hd Hok Hocc Hk.
  pose proof Hok as (Ha & Hv & Hvne & Hb & B1 & B2).
  rewrite gopen_text_app in Hd.
  pose proof (drop_app_drop _ _ _ _ Hd) as E1.
  pose proof (drop_app_drop _ _ _ _ E1) as E2.
  simpl length in E1, E2.
  rewrite group_open_pat_eq. cbn [exec].
  rewrite (eat_cur_intro _ _ _ _ Hd). simpl length.
  assert (Hb1 : boundary (prev (cur s (i + 6))) (head (rest (cur s (i + 6)))) = true).
  { simpl. pose proof (last_end _ _ _ _ Hd) as L. simpl length in L.
    rewrite L, E1, last_app_ne by discriminate. now apply head_boundary_iff. }
  rewrite Hb1.
  apply star_greedy_pick with (c' := cur s (i + 6 + length a)).
  - eapply run_cur_intro; [exact E1 | now apply all_in_not].
  - eapply exec_unique.
    + apply (tail_lang_intro g s _ v b r cs E2); try assumption.
      eapply gopen_tail_boundary; eassumption.
    + intros c2 cs2 Hl2. eapply tail_lang_unique; [exact Hl2|].
      apply (tail_lang_intro g s _ v b r cs E2); try assumption.
      eapply gopen_tail_boundary; eassumption.
    + rewrite gopen_text_length in Hk.
      replace (i + 6 + length a + 4 + length v + 1 + length b + 1)
        with (i + (6 + length a + 4 + length v + 1 + length b + 1)) by lia.
      exact Hk.
  - intros c'' Hr Hlt.
    destruct (run_cur _ s _ _ Hr _ eq_refl) as (w & r' & Hw & Hwa & ->).
    apply exec_none.
    apply (tail_none_later g s _ v b r w r' cs E2 Hocc Hw).
    + intros ->. simpl in Hlt. lia.
    + now apply all_in_not.
Qed.


Lemma gopen_group a v b :
  slice (gopen_text a v b) (6 + length a + 4) (6 + length a + 4 + length v) = v.
Proof.
  unfold slice. replace (6 + length a + 4 + length v - (6 + length a + 4))
    with (length v) by lia.
  unfold gopen_text. rewrite app_assoc, app_assoc.
  rewrite drop_app_length'; [apply take_app_length|].
  rewrite !length_app. simpl. lia.
Qed.



(** Item tokens leave the scope as it is; a closing tag clears it. *)
Lemma next_scope_item cg t : is_item t = true -> next_scope cg t = cg.
Proof.
  unfold is_item, next_scope.
  destruct (re_match group_open_re t); [discriminate|].
  now destruct (re_match group_close_re t).
Qed.



Lemma starts_with_app w s : starts_with w s = true <-> exists y, s = w ++ y.
Proof.
  revert s. induction w as [|a w IH]; intros s; simpl.
  - split; [intros _; now exists s | reflexivity].
  - destruct s as [|b s]; [split; [discriminate | intros [y Hy]; discriminate]|].
    rewrite andb_true_iff, IH. split.
    + intros [->%Ascii.eqb_eq [y ->]]. now exists y.
    + intros [y [= -> ->]]. split; [apply Ascii.eqb_refl | now exists y].
Qed.

Lemma occursb_unfold w s :
  occursb w s =
  starts_with w s || match s with [] => false | _ :: s' => occursb w s' end.
Proof. destruct s; reflexivity. Qed.

Lemma occursb_false w s : occursb w s = false -> ~ occurs w s.
Proof.
  intros H (x & y & ->). revert H. induction x as [|c x IH];
    rewrite occursb_unfold; intros [H1 H2]%orb_false_iff.
  - assert (Ht : starts_with w (w ++ y) = true) by (apply starts_with_app; eauto).
    simpl in H1. congruence.
  - now apply IH.
Qed.

(** * Tokens of a rewritten document *)

(** Whether a token can start at an offset depends on the text from that
    offset on only. *)
Lemma token_lang_intro s i t r : drop i s = t ++ r -> token_shape t ->
  exists c' cs', lang token_re (cur s i) [] c' cs'.
Proof.
  intros Hd [a v b -> Hok| -> |x -> Hok]; unfold token_re.
  - do 2 eexists. apply L_grp, L_alt_l. eapply gopen_lang_intro; eassumption.
  - do 2 eexists. apply L_grp, L_alt_r, L_alt_l. eapply lang_str_intro; eassumption.
  - do 2 eexists. apply L_grp, L_alt_r, L_alt_r. eapply ls_lang_intro; eassumption.
Qed.

Lemma try_at_suffix s i s' i' : drop i s = drop i' s' ->
  try_at token_re (cur s i) = None -> try_at token_re (cur s' i') = None.
Proof.
  intros Hd Hn. destruct (try_at token_re (cur s' i')) as [m|] eqn:Hm; [|reflexivity].
  apply try_at_Some in Hm as (c' & Hl & _).
  apply token_lang_inv in Hl as (t & r & Hr & Hsh & _).
  rewrite <- Hd in Hr.
  destruct (token_lang_intro _ _ _ _ Hr Hsh) as (c1 & cs1 & Hl).
  now apply try_at_None with (c' := c1) (cs' := cs1) in Hn.
Qed.

Lemma search_from_None_intro r s n : n <= length s ->
  (forall j, n <= j <= length s -> try_at r (cur s j) = None) ->
  search_from r s n = None.
Proof.
  intros Hn H. destruct (search_from r s n) as [m|] eqn:Hs; [|reflexivity].
  apply search_from_Some in Hs as (Hj & Hm & _); [|exact Hn].
  rewrite H in Hm by exact Hj. discriminate.
Qed.

(** A sure text is found as a token at any offset where it stands. *)
Lemma sure_try_at s i t r : drop i s = t ++ r -> sure t ->
  exists cs, try_at token_re (cur s i) = Some (Match i (i + length t) cs).
Proof.
  intros Hd [(a & v & b & -> & Hok & Hocc)|[->|(x & -> & Hok)]].
  - eexists. unfold try_at, token_re. cbn [exec].
    rewrite (gopen_exec 2 s i a v b r [] _
               (cur s (i + length (gopen_text a v b)),
                [(1, (i, i + length (gopen_text a v b)));
                 (2, (i + 6 + length a + 4, i + 6 + length a + 4 + length v))]));
      try assumption; reflexivity.
  - eexists. unfold try_at, token_re. cbn [exec].
    rewrite (exec_none (group_open_pat 2)).
    2:{ intros c' cs' Hl. apply gopen_lang_inv in Hl as (a & v & b & r' & Hd' & _).
        rewrite Hd in Hd'. discriminate Hd'. }
    cbn [orelse]. unfold group_close_re. cbn [exec].
    rewrite (eat_cur_intro _ _ _ _ Hd). cbn [orelse]. reflexivity.
  - eexists. unfold try_at, token_re. cbn [exec].
    rewrite (exec_none (group_open_pat 2)).
    2:{ intros c' cs' Hl. apply gopen_lang_inv in Hl as (a & v & b & r' & Hd' & _).
        rewrite Hd in Hd'. discriminate Hd'. }
    rewrite (exec_none group_close_re).
    2:{ intros c' cs' Hl. apply lang_str_cur in Hl as (_ & _ & r' & Hd').
        rewrite Hd in Hd'. discriminate Hd'. }
    cbn [orelse].
    rewrite (exec_unique ls_tag_re (cur s i) [] (cur s (i + length (ls_text x))) [] _
               (cur s (i + length (ls_text x)), [(1, (i, i + length (ls_text x)))])).
    + reflexivity.
    + eapply ls_lang_intro; eassumption.
    + intros c2 cs2 Hl. apply ls_lang_inv in Hl as (x' & r' & Hd' & [Hx' _] & -> & ->).
      rewrite Hd in Hd'. destruct Hok as [Hx _].
      apply ls_text_inj in Hd' as [<- _]; auto.
    + reflexivity.
Qed.

(** Two ways of cutting one text: one first piece is a prefix of the other. *)
Lemma app_eq_cases {A} (d z l rest : list A) : d ++ z = l ++ rest ->
  (exists y, d = l ++ y /\ rest = y ++ z) \/
  (exists c l', l = d ++ c :: l' /\ z = c :: l' ++ rest).
Proof.
  revert l. induction d as [|a d IH]; intros [|b l] H; simpl in H.
  - left. exists []. auto.
  - right. exists b, l. auto.
  - left. exists (a :: d). auto.
  - injection H as -> H. destruct (IH _ H) as [(y & -> & ->)|(c & l' & -> & ->)].
    + left. exists y. auto.
    + right. exists c, l'. auto.
Qed.

(** A text that starts with an opening bracket and has no other cannot
    start in a gap and end in the token that follows. *)
Lemma opening_in_gap (l d o w rest : text) :
  d <> [] -> ("<"%char ∉ l) ->
  d ++ ("<"%char :: o) ++ w = ("<"%char :: l) ++ rest ->
  exists y, d = ("<"%char :: l) ++ y /\ rest = y ++ ("<"%char :: o) ++ w.
Proof.
  intros Hd Hl H. apply app_eq_cases in H as [H|(c & l' & H1 & H2)]; [exact H|].
  exfalso. injection H2 as <- _.
  destruct d as [|a d]; [done|]. injection H1 as _ ->.
  apply Hl. rewrite elem_of_app. right. left.
Qed.

Lemma group_free_spec g x y :
  group_free g = true -> g = x ++ lit "<Group" ++ y -> word_opt (head y) = true.
Proof.
  revert g. induction x as [|c x IH]; intros g Hg ->.
  - cbn in Hg. apply andb_true_iff in Hg as [Hg _].
    rewrite drop_0 in Hg. now destruct (word_opt (head y)).
  - cbn [app group_free] in Hg. apply andb_true_iff in Hg as [_ Hg].
    now apply (IH _ Hg).
Qed.

Lemma sure_head t : sure t -> exists o, t = "<"%char :: o.
Proof.
  intros [(a & v & b & -> & _)|[->|(x & -> & _)]]; eexists; reflexivity.
Qed.

Lemma shape_head t : token_shape t -> exists o, t = "<"%char :: o.
Proof. intros [a v b -> _| -> |x -> _]; eexists; reflexivity. Qed.

Lemma shape_gt t : token_shape t -> ">"%char ∈ t.
Proof.
  intros [a v b -> _| -> |x -> _].
  - unfold gopen_text. do 4 (apply elem_of_app; right).
    apply elem_of_cons; right. apply elem_of_app; right. left.
  - compute_done.
  - unfold ls_text. do 2 (apply elem_of_app; right). left.
Qed.

(** Inside a gap of the source no token starts in the rewritten text
    either: the gap is followed by a text that starts with an opening
    bracket, as it was in the source. *)
Lemma gap_no_token s lo m (P o w : text) j0 :
  search_from token_re s lo = Some m -> lo <= length s ->
  group_free (slice s lo (m_start m)) = true ->
  j0 < length (slice s lo (m_start m)) ->
  try_at token_re
    (cur (P ++ slice s lo (m_start m) ++ ("<"%char :: o) ++ w) (length P + j0)) = None.
Proof.
  intros Hs Hlo Hfree Hj0. set (g := slice s lo (m_start m)) in *.
  apply search_from_Some in Hs as (Hran & Hm & Hnone); [|exact Hlo].
  apply try_at_cur in Hm as (_ & _ & Hl); [|lia].
  apply token_lang_inv in Hl as (t & r & Ht & Hsh & _).
  assert (Hlen : length g = m_start m - lo).
  { unfold g, slice. rewrite length_take, length_drop. lia. }
  assert (Hg : drop lo s = g ++ t ++ r).
  { rewrite <- Ht. unfold g, slice.
    rewrite <- (take_drop (m_start m - lo) (drop lo s)) at 1. f_equal.
    rewrite drop_drop. f_equal. lia. }
  assert (Hsrc : drop (lo + j0) s = drop j0 g ++ t ++ r).
  { rewrite <- drop_drop, Hg. apply drop_app_le. lia. }
  assert (Hn : try_at token_re (cur s (lo + j0)) = None) by (apply Hnone; lia).
  assert (Hdne : drop j0 g <> []).
  { intros E. apply (f_equal length) in E. rewrite length_drop in E. simpl in E. lia. }
  destruct (shape_head _ Hsh) as [t' ->].
  destruct (try_at token_re (cur (P ++ g ++ ("<"%char :: o) ++ w) (length P + j0)))
    as [m2|] eqn:Hm2; [|reflexivity].
  exfalso. apply try_at_Some in Hm2 as (c2 & Hl2 & _).
  apply token_lang_inv in Hl2 as (t2 & r2 & Hd2 & Hsh2 & _).
  rewrite drop_app_add, drop_app_le in Hd2 by lia.
  destruct Hsh2 as [a v b -> Hok| -> |x -> Hok].
  - unfold gopen_text in Hd2. rewrite <- app_assoc in Hd2.
    apply (opening_in_gap (lit "Group")) in Hd2 as (y & Hy & Hrest);
      [|exact Hdne|compute_done].
    assert (Hw : word_opt (head y) = true).
    { apply (group_free_spec g (take j0 g) y Hfree).
      rewrite <- (take_drop j0 g) at 1. now rewrite Hy. }
    destruct Hok as (_ & _ & _ & _ & Hb & _).
    destruct y as [|c y]; [discriminate Hw|].
    destruct a as [|c' a]; [discriminate Hb|].
    rewrite <- !app_assoc in Hrest. injection Hrest as -> _.
    simpl in Hb, Hw. congruence.
  - apply (opening_in_gap (lit "/Group>")) in Hd2 as (y & Hy & Hrest);
      [|exact Hdne|compute_done].
    rewrite Hy, <- app_assoc in Hsrc.
    destruct (token_lang_intro _ _ _ _ Hsrc (shape_close _ eq_refl)) as (c1 & cs1 & Hl).
    now apply try_at_None with (c' := c1) (cs' := cs1) in Hn.
  - unfold ls_text in Hd2. rewrite <- app_assoc in Hd2.
    apply (opening_in_gap (lit "LocalizedString")) in Hd2 as (y & Hy & Hrest);
      [|exact Hdne|compute_done].
    rewrite Hy in Hsrc.
    assert (Hin : ">"%char ∈ y ++ ("<"%char :: t') ++ r).
    { rewrite app_assoc. apply elem_of_app. left. apply elem_of_app. right.
      now apply shape_gt. }
    apply list_elem_of_split_l in Hin as (x1 & r1 & Hx1 & Hgt).
    assert (Hok1 : ls_ok x1).
    { split; [exact Hgt|]. destruct Hok as [_ Hb].
      rewrite <- app_assoc in Hrest.
      destruct y as [|c y].
      - destruct x1 as [|c1 x1]; [reflexivity|].
        simpl in Hx1. injection Hx1 as <- _. reflexivity.
      - destruct x as [|c3 x]; simpl in Hrest.
        + injection Hrest as <- _. simpl in Hx1.
          destruct x1 as [|c1 x1]; [reflexivity|].
          simpl in Hx1. now injection Hx1 as <- _.
        + injection Hrest as <- _. simpl in Hb.
          destruct x1 as [|c1 x1]; [reflexivity|].
          simpl in Hx1. injection Hx1 as <- _. exact Hb. }
    assert (Hsrc' : drop (lo + j0) s = ls_text x1 ++ r1).
    { transitivity (lit "<LocalizedString" ++ (y ++ ("<"%char :: t') ++ r)).
      - rewrite Hsrc. now rewrite <- app_assoc.
      - rewrite Hx1. unfold ls_text. now rewrite <- !app_assoc. }
    destruct (token_lang_intro _ _ _ _ Hsrc' (shape_item _ _ eq_refl Hok1))
      as (c1 & cs1 & Hl).
    now apply try_at_None with (c' := c1) (cs' := cs1) in Hn.
Qed.

(** The tokens of the source with each token replaced by a sure text are
    these texts. *)
Lemma weave_tokens s : forall lo ms, toks token_re s lo ms -> lo <= length s ->
  forall outs P, length outs = length ms -> Forall sure outs ->
  Forall (fun g => group_free g = true) (gaps_from s lo ms) ->
  map (group0 (P ++ weave s lo ms outs))
      (finditer_from token_re (P ++ weave s lo ms outs) (length P)) = outs.
Proof.
  induction 1 as [lo Hs|lo m ms Hs H1 H2 H3 Ht IH]; intros Hlo outs P Hlen Hsure Hgaps.
  - destruct outs; [|discriminate]. cbn [weave].
    rewrite finditer_from_unfold;
      [|apply token_re_nonempty | rewrite length_app; lia].
    rewrite search_from_None_intro; [reflexivity | rewrite length_app; lia |].
    intros j Hj. rewrite length_app, length_drop in Hj.
    apply (try_at_suffix s (lo + (j - length P))).
    + rewrite drop_app_ge by lia. now rewrite drop_drop.
    + apply (search_from_None _ _ _ Hs). lia.
  - destruct outs as [|o outs]; [discriminate|]. injection Hlen as Hlen.
    inversion Hsure as [|? ? Ho Hsure']; subst.
    cbn [gaps_from] in Hgaps. inversion Hgaps as [|? ? Hg Hgaps']; subst.
    cbn [weave]. set (g := slice s lo (m_start m)) in *.
    set (w := weave s (m_end m) ms outs) in *.
    destruct (sure_head _ Ho) as [o' Eo].
    assert (Hd : drop (length P + length g) (P ++ g ++ o ++ w) = o ++ w).
    { rewrite drop_app_add. apply drop_app_length. }
    destruct (sure_try_at _ _ _ _ Hd Ho) as [cs Hm].
    assert (Hsf : search_from token_re (P ++ g ++ o ++ w) (length P) =
                  Some (Match (length P + length g) (length P + length g + length o) cs)).
    { apply (search_from_intro _ _ _ (length P + length g)).
      - rewrite !length_app. lia.
      - exact Hm.
      - intros j Hj. replace j with (length P + (j - length P)) by lia.
        rewrite Eo. apply gap_no_token; try assumption. fold g. lia. }
    rewrite finditer_from_unfold;
      [|apply token_re_nonempty | rewrite length_app; lia].
    rewrite Hsf. cbn [map m_end]. f_equal.
    + unfold group0. cbn [m_start m_end]. now apply drop_slice with (r := w).
    + specialize (IH ltac:(lia) outs (P ++ g ++ o) Hlen Hsure' Hgaps').
      fold w in IH. rewrite <- !app_assoc in IH.
      rewrite !length_app in IH. rewrite Nat.add_assoc in IH. exact IH.
Qed.

(** * Rewriting a rewritten tag *)

Lemma item_key_id cg t :
  item_key (cg, t) =
  match cg with
  | Some g => if is_item t then option_map (pair g) (id_of t) else None
  | None => None
  end.
Proof.
  unfold item_key, id_of. destruct cg as [g|]; [|reflexivity].
  destruct (is_item t); [|reflexivity].
  now destruct (re_search id_attr_re t).
Qed.

Lemma full_item_shape t : full_item t -> exists x, t = ls_text x /\ ls_ok x.
Proof. intros (m & Hm & He). now apply ls_full_match with (m := m). Qed.

Lemma full_item_is_item t : full_item t -> is_item t = true.
Proof. intros (x & -> & Hok)%full_item_shape. now apply match_item_shape. Qed.

Lemma keyed_is_item wm cg t w : new_width_of wm (cg, t) = Some w -> is_item t = true.
Proof.
  unfold new_width_of. rewrite item_key_id. destruct cg; [|discriminate].
  now destruct (is_item t).
Qed.

(** A stable tag is emitted once and for all, and the scope after it is the
    scope after the tag it comes from. *)
Lemma emit_emit wm cg t :
  (forall w, new_width_of wm (cg, t) = Some w -> stable_tag t w) ->
  emit wm (cg, emit wm (cg, t)) = emit wm (cg, t) /\
  next_scope cg (emit wm (cg, t)) = next_scope cg t.
Proof.
  intros Hst. unfold emit at 2 3 4. cbn [snd].
  destruct (new_width_of wm (cg, t)) as [w|] eqn:Hw.
  - destruct (Hst w eq_refl) as (Hfull & Hid & Hfix).
    pose proof (keyed_is_item _ _ _ _ Hw) as Hi.
    pose proof (full_item_is_item _ Hfull) as Hi'.
    split.
    + assert (Hw' : new_width_of wm (cg, edit_tag t w) = Some w).
      { rewrite <- Hw. unfold new_width_of. rewrite !item_key_id.
        destruct cg; [|reflexivity]. now rewrite Hi, Hi', Hid. }
      unfold emit. rewrite Hw'. exact Hfix.
    + now rewrite !next_scope_item.
  - split; [|reflexivity]. unfold emit. now rewrite Hw.
Qed.

Lemma scoped_emit wm ts : forall cg,
  Forall (fun p => forall w, new_width_of wm p = Some w -> stable_tag p.2 w)
         (scoped cg ts) ->
  scoped cg (map (emit wm) (scoped cg ts)) =
    map (fun p => (p.1, emit wm p)) (scoped cg ts).
Proof.
  induction ts as [|t ts IH]; intros cg H; [reflexivity|].
  cbn [scoped map] in *. inversion H as [|? ? Ht Hts]; subst.
  destruct (emit_emit wm cg t Ht) as [_ Hns]. cbn [fst].
  now rewrite Hns, IH.
Qed.

Lemma scoped_length ts cg : length (scoped cg ts) = length ts.
Proof. now rewrite <- (scoped_snd ts cg) at 2; rewrite length_map. Qed.


(** What the patcher emits for the tokens of the source are sure texts. *)
Lemma emit_sure wm ts : forall cg,
  Forall token_shape ts ->
  Forall (fun t => starts_with (lit "<Group") t = true -> plain_open t) ts ->
  Forall (fun p => forall w, new_width_of wm p = Some w -> stable_tag p.2 w)
         (scoped cg ts) ->
  Forall sure (map (emit wm) (scoped cg ts)).
Proof.
  induction ts as [|t ts IH]; intros cg Hsh Hop Hst; [constructor|].
  cbn [scoped map] in *.
  inversion Hsh as [|? ? Hsh1 Hsh']; inversion Hop as [|? ? Hop1 Hop'];
    inversion Hst as [|? ? Hst1 Hst']; subst.
  constructor; [|now apply IH].
  unfold emit. cbn [snd] in *.
  destruct (new_width_of wm (cg, t)) as [w|] eqn:Hw.
  - destruct (Hst1 w eq_refl) as (Hfull & _). right. right.
    now apply full_item_shape.
  - destruct Hsh1 as [a v b E Hok|E|x E Hok].
    + left. apply Hop1. rewrite E. reflexivity.
    + right. now left.
    + right. right. eauto.
Qed.

Lemma patched_eq src wm :
  patched src wm =
  weave src 0 (finditer token_re src) (map (emit wm) (scoped_tokens src)).
Proof. unfold patched. now rewrite apply_widths_text_eq. Qed.


(** * Tags written as a list of attributes *)

Lemma space_char c : is_space c = true ->
  is_word c = false /\ c <> dq /\ c <> ">"%char /\ c <> "="%char /\ c <> "/"%char.
Proof.
  destruct c as [[] [] [] [] [] [] [] []]; intros H; try discriminate H;
    repeat split; discriminate.
Qed.

Lemma word_char c : is_word c = true ->
  is_space c = false /\ c <> dq /\ c <> ">"%char /\ c <> "="%char /\ c <> "/"%char.
Proof.
  destruct c as [[] [] [] [] [] [] [] []]; intros H; try discriminate H;
    repeat split; discriminate.
Qed.

Lemma split_cmp {A} (x : A) l1 r1 l2 r2 : l1 ++ x :: r1 = l2 ++ x :: r2 ->
  (l1 = l2 /\ r1 = r2) \/
  (exists m, l1 = l2 ++ x :: m /\ r2 = m ++ x :: r1) \/
  (exists m, l2 = l1 ++ x :: m /\ r1 = m ++ x :: r2).
Proof.
  intros H. apply app_eq_cases in H as [(y & -> & Hy)|(c & l' & -> & Hy)].
  - destruct y as [|c y]; simpl in Hy.
    + injection Hy as ->. left. now rewrite app_nil_r.
    + injection Hy as -> ->. right. left. eauto.
  - injection Hy as <- ->. right. right. eauto.
Qed.

Lemma all_in_last_word (y w : text) : all_in is_word (y ++ w) -> y <> [] ->
  word_opt (last y) = true.
Proof.
  intros [Hy _]%all_in_app Hne. destruct (last y) as [c|] eqn:Hl.
  - simpl. now apply (all_in_last _ _ _ Hy).
  - now apply last_None in Hl.
Qed.

(** The longest run of word characters at the end of a text is cut off in
    one way only. *)
Lemma word_suffix_unique (p1 w1 p2 w2 : text) :
  p1 ++ w1 = p2 ++ w2 -> all_in is_word w1 -> all_in is_word w2 ->
  word_opt (last p1) = false -> word_opt (last p2) = false ->
  p1 = p2 /\ w1 = w2.
Proof.
  intros H H1 H2 B1 B2.
  apply app_eq_cases in H as [(y & -> & ->)|(c & l' & -> & ->)].
  - destruct y as [|c y]; [now rewrite app_nil_r|]. exfalso.
    rewrite last_app_ne in B1 by done.
    rewrite (all_in_last_word _ _ H2) in B1; done.
  - exfalso. rewrite last_app_ne in B2 by done.
    change (c :: l' ++ w2) with ((c :: l') ++ w2) in H1.
    rewrite (all_in_last_word _ _ H1) in B2; done.
Qed.

Lemma attrs_text_cons a l : attrs_text (a :: l) = attr_text a ++ attrs_text l.
Proof. reflexivity. Qed.

Lemma attrs_text_app l1 l2 : attrs_text (l1 ++ l2) = attrs_text l1 ++ attrs_text l2.
Proof. unfold attrs_text. now rewrite map_app, concat_app. Qed.

Lemma attr_text_shape a (t : text) :
  attr_text a ++ t =
  (a_sep a ++ a_name a ++ lit "=") ++ dq :: a_value a ++ dq :: t.
Proof. unfold attr_text. now norm_app. Qed.

Lemma attr_head_no_quote a : attr_ok a -> dq ∉ a_sep a ++ a_name a ++ lit "=".
Proof.
  intros (_ & Hs & _ & Hn & _). rewrite !elem_of_app.
  intros [Hin|[Hin|Hin]].
  - unfold all_in in Hs. rewrite Forall_forall in Hs.
    now destruct (space_char _ (Hs _ Hin)) as (_ & ? & _).
  - unfold all_in in Hn. rewrite Forall_forall in Hn.
    now destruct (word_char _ (Hn _ Hin)) as (_ & ? & _).
  - revert Hin. compute_done.
Qed.

Lemma sep_last a : attr_ok a -> forall (h : text), word_opt (last (h ++ a_sep a)) = false.
Proof.
  intros (Hne & Hs & _) h. rewrite last_app_ne by exact Hne.
  destruct (last (a_sep a)) as [c|] eqn:Hl; [|reflexivity].
  simpl. now destruct (space_char _ (all_in_last _ _ _ Hs Hl)).
Qed.

(** Where the name [n], an equals sign and a quote stand in a list of
    attributes after a word boundary, an attribute named [n] starts. *)
Lemma name_occ (n e : text) : all_in is_word n -> (dq ∉ e) ->
  forall l, Forall attr_ok l ->
  forall h pre r m,
    h ++ attrs_text l ++ e = pre ++ n ++ (lit "=" ++ [dq]) ++ r ->
    pre ++ n ++ lit "=" = h ++ m ->
    word_opt (last pre) = false ->
    exists l1 a l2, l = l1 ++ a :: l2 /\ a_name a = n /\
      pre = h ++ attrs_text l1 ++ a_sep a /\
      r = a_value a ++ dq :: attrs_text l2 ++ e.
Proof.
  intros Hn He. induction 1 as [|a l Ha Hl IH]; intros h pre r m Heq Hm Hb.
  - exfalso. cbn [attrs_text map List.concat app] in Heq.
    assert (E : h ++ e = (h ++ m) ++ dq :: r).
    { rewrite <- Hm, Heq. now norm_app. }
    rewrite <- app_assoc in E. apply app_inv_head in E.
    apply He. rewrite E. apply elem_of_app. right. left.
  - assert (E : h ++ attr_text a ++ attrs_text l ++ e = (h ++ m) ++ dq :: r).
    { rewrite <- Hm. rewrite attrs_text_cons, <- app_assoc in Heq.
      rewrite Heq. now norm_app. }
    rewrite <- app_assoc in E. apply app_inv_head in E.
    rewrite attr_text_shape in E.
    apply split_cmp in E as [[E1 E2]|[(m2 & E1 & E2)|(m2 & E1 & E2)]].
    + subst m. rewrite !app_assoc in Hm. apply app_inj_tail in Hm as [Hm _].
      destruct Ha as (Ha1 & Ha2 & Ha3 & Ha4 & Ha5).
      apply word_suffix_unique in Hm as [-> Hna]; try assumption.
      * exists [], a, l. repeat split; try reflexivity; now symmetry.
      * now apply sep_last.
    + exfalso. apply (attr_head_no_quote _ Ha). rewrite E1.
      apply elem_of_app. right. left.
    + apply split_cmp in E2 as [[E3 E4]|[(m3 & E3 & E4)|(m3 & E3 & E4)]].
      * exfalso. subst m2 m. destruct Ha as (_ & _ & _ & _ & _ & _ & Hlast).
        apply (f_equal last) in Hm.
        assert (HL : last (pre ++ n ++ lit "=") = Some "="%char).
        { change (lit "=") with ["="%char]. rewrite app_assoc. apply last_snoc. }
        rewrite HL, app_assoc, last_app_ne in Hm by done.
        destruct (a_value a) as [|c v] eqn:Hv; [discriminate Hm|].
        change (dq :: c :: v) with ([dq] ++ c :: v) in Hm.
        rewrite last_app_ne in Hm by done. congruence.
      * exfalso. destruct Ha as (_ & _ & _ & _ & Hq & _). apply Hq.
        rewrite E3. apply elem_of_app. right. left.
      * destruct (IH (h ++ attr_text a) pre r m3) as (l1 & a' & l2 & -> & Hna & Hpre & Hr).
        -- rewrite <- app_assoc. rewrite attrs_text_cons, <- app_assoc in Heq. exact Heq.
        -- rewrite Hm, E1, E3. rewrite <- !app_assoc. f_equal.
           rewrite attr_text_shape. now norm_app.
        -- exact Hb.
        -- exists (a :: l1), a', l2. repeat split; try assumption.
           rewrite Hpre, attrs_text_cons. now rewrite <- !app_assoc.
Qed.

Lemma item_text_eq l e :
  item_text l e = lit "<LocalizedString" ++ attrs_text l ++ e ++ lit ">".
Proof. unfold item_text, ls_text. now rewrite <- !app_assoc. Qed.

Lemma item_split l1 a l2 e :
  item_text (l1 ++ a :: l2) e =
  (lit "<LocalizedString" ++ attrs_text l1 ++ a_sep a) ++
  a_name a ++ (lit "=" ++ [dq]) ++ a_value a ++ dq :: attrs_text l2 ++ e ++ lit ">".
Proof.
  rewrite item_text_eq, attrs_text_app, attrs_text_cons. unfold attr_text. now norm_app.
Qed.

Lemma end_no_quote e : end_ok e -> dq ∉ e ++ lit ">".
Proof.
  intros (ws & sl & -> & Hws & Hsl). rewrite !elem_of_app. intros [[Hin|Hin]|Hin].
  - unfold all_in in Hws. rewrite Forall_forall in Hws.
    now destruct (space_char _ (Hws _ Hin)) as (_ & ? & _).
  - destruct Hsl as [->| ->]; revert Hin; compute_done.
  - revert Hin. compute_done.
Qed.

Lemma item_occ n l e pre r :
  all_in is_word n -> Forall attr_ok l -> end_ok e ->
  item_text l e = pre ++ n ++ (lit "=" ++ [dq]) ++ r ->
  word_opt (last pre) = false ->
  exists l1 a l2, l = l1 ++ a :: l2 /\ a_name a = n /\
    pre = lit "<LocalizedString" ++ attrs_text l1 ++ a_sep a /\
    r = a_value a ++ dq :: attrs_text l2 ++ e ++ lit ">".
Proof.
  intros Hn Hl He H Hb. rewrite item_text_eq in H.
  assert (Hm : exists m, pre ++ n ++ lit "=" = lit "<LocalizedString" ++ m).
  { assert (E : lit "<LocalizedString" ++ attrs_text l ++ e ++ lit ">" =
                (pre ++ n ++ lit "=") ++ dq :: r) by (rewrite H; now norm_app).
    apply app_eq_cases in E as [(y & Hy & E)|(c & l' & E & _)].
    - destruct y as [|c y].
      + exists []. now rewrite app_nil_r in *.
      + exfalso. simpl in E. injection E as <- _.
        assert (Hq : dq ∈ lit "<LocalizedString").
        { rewrite Hy. apply elem_of_app. right. left. }
        revert Hq. compute_done.
    - eauto. }
  destruct Hm as [m Hm].
  apply (name_occ n (e ++ lit ">") Hn (end_no_quote _ He) l Hl _ _ _ m H Hm Hb).
Qed.

Lemma first_value_spec n l :
  match first_value n l with
  | Some v => exists l1 a l2, l = l1 ++ a :: l2 /\ a_name a = n /\ a_value a = v /\
                Forall (fun b => a_name b <> n) l1
  | None => Forall (fun b => a_name b <> n) l
  end.
Proof.
  induction l as [|a l IH]; simpl; [constructor|].
  destruct (decide (a_name a = n)) as [E|E].
  - exists [], a, l. auto.
  - destruct (first_value n l) as [v|].
    + destruct IH as (l1 & a' & l2 & -> & Hn & Hv & Hl).
      exists (a :: l1), a', l2. auto.
    + now constructor.
Qed.

Lemma first_value_app n l1 l2 :
  first_value n (l1 ++ l2) =
  match first_value n l1 with Some v => Some v | None => first_value n l2 end.
Proof.
  induction l1 as [|a l1 IH]; simpl; [reflexivity|].
  now destruct (decide (a_name a = n)).
Qed.

Lemma first_value_none n l : Forall (fun b => a_name b <> n) l -> first_value n l = None.
Proof.
  induction 1 as [|a l Ha Hl IH]; simpl; [reflexivity|].
  now destruct (decide (a_name a = n)).
Qed.

Lemma first_split n (l1 l2 l1' l2' : list attr) a a' :
  l1 ++ a :: l2 = l1' ++ a' :: l2' ->
  Forall (fun b => a_name b <> n) l1 -> a_name a' = n ->
  (l1' = l1 /\ a' = a /\ l2' = l2) \/ exists m, l1' = l1 ++ a :: m.
Proof.
  intros H Hl Ha. apply app_eq_cases in H as [(y & -> & Hy)|(c & l' & -> & Hy)].
  - destruct y as [|c y]; simpl in Hy.
    + injection Hy as -> ->. left. now rewrite app_nil_r.
    + exfalso. injection Hy as -> _. apply Forall_app in Hl as [_ Hl].
      inversion Hl; subst. contradiction.
  - injection Hy as <- _. right. eauto.
Qed.

Lemma word_head n (t : text) : all_in is_word n -> n <> [] ->
  word_opt (head (n ++ t)) = true.
Proof. intros Hn Hne. destruct n as [|c n]; [done|]. now inversion Hn. Qed.

(** An attribute of the list is an attribute as the patterns read it. *)
Lemma attr_at_item n l1 a l2 e :
  all_in is_word n -> n <> [] -> Forall attr_ok (l1 ++ a :: l2) ->
  a_name a = n ->
  attr_at n (item_text (l1 ++ a :: l2) e)
    (length (lit "<LocalizedString" ++ attrs_text l1 ++ a_sep a)) (a_value a).
Proof.
  intros Hn Hne Hl Ha.
  assert (Hoka : attr_ok a).
  { apply Forall_app in Hl as [_ Hl]. now inversion Hl. }
  rewrite item_split. unfold attr_at. rewrite take_app_length, drop_app_length.
  split; [|split].
  - rewrite Ha. rewrite boundary_word_r by now apply word_head.
    rewrite app_assoc. now rewrite sep_last.
  - now destruct Hoka as (_ & _ & _ & _ & ? & _).
  - eexists. rewrite Ha. now norm_app.
Qed.

(** [search] with an attribute pattern finds the first attribute of that
    name, and nothing when there is none. *)
Lemma attr_search_first n l1 a l2 e :
  all_in is_word n -> n <> [] -> Forall attr_ok (l1 ++ a :: l2) -> end_ok e ->
  a_name a = n -> Forall (fun b => a_name b <> n) l1 ->
  re_search (attr_re n) (item_text (l1 ++ a :: l2) e) =
    Some (attr_match n (length (lit "<LocalizedString" ++ attrs_text l1 ++ a_sep a))
            (a_value a)).
Proof.
  intros Hn Hne Hl He Ha Hl1.
  pose proof (attr_at_item n l1 a l2 e Hn Hne Hl Ha) as Hat.
  pose proof (item_split l1 a l2 e) as Hs.
  set (s := item_text (l1 ++ a :: l2) e) in *.
  set (pre := lit "<LocalizedString" ++ attrs_text l1 ++ a_sep a) in *.
  apply attr_search_intro.
  - rewrite Hs, length_app. lia.
  - exact Hat.
  - intros j v' Hj (Hb & Hv' & r' & Hr').
    assert (Hjs : j <= length s) by (rewrite Hs, length_app; lia).
    destruct (drop_decomp _ _ _ Hr' Hjs) as [Hd Hlen].
    rewrite Hr' in Hb. rewrite <- app_assoc in Hb.
    rewrite boundary_word_r in Hb by now apply word_head.
    apply negb_true_iff in Hb.
    assert (Hd' : s = take j s ++ n ++ (lit "=" ++ [dq]) ++ v' ++ dq :: r').
    { rewrite Hd at 1. now norm_app. }
    apply item_occ in Hd' as (l1' & a' & l2' & Hll & Ha' & Hpre & _); try assumption.
    apply (first_split n) in Hll as [(-> & -> & _)|[m ->]]; try assumption.
    + apply (f_equal length) in Hpre. fold pre in Hpre. lia.
    + apply (f_equal length) in Hpre. rewrite Hlen in Hpre.
      rewrite attrs_text_app, attrs_text_cons in Hpre. unfold attr_text in Hpre.
      unfold pre in Hj. rewrite !length_app in *. lia.
Qed.

Lemma attr_search_none n l e :
  all_in is_word n -> n <> [] -> Forall attr_ok l -> end_ok e ->
  Forall (fun b => a_name b <> n) l ->
  re_search (attr_re n) (item_text l e) = None.
Proof.
  intros Hn Hne Hl He Hno. apply attr_search_None_intro.
  intros j v' (Hb & Hv' & r' & Hr').
  assert (Hjs : j <= length (item_text l e)).
  { destruct (decide (j <= length (item_text l e))); [assumption|].
    rewrite drop_ge in Hr' by lia. destruct n; [done|discriminate Hr']. }
  destruct (drop_decomp _ _ _ Hr' Hjs) as [Hd Hlen].
  rewrite Hr' in Hb. rewrite <- app_assoc in Hb.
  rewrite boundary_word_r in Hb by now apply word_head.
  apply negb_true_iff in Hb.
  assert (Hd' : item_text l e =
                take j (item_text l e) ++ n ++ (lit "=" ++ [dq]) ++ v' ++ dq :: r').
  { rewrite Hd at 1. now norm_app. }
  apply item_occ in Hd' as (l1' & a' & l2' & -> & Ha' & _); try assumption.
  apply Forall_app in Hno as [_ Hno]. inversion Hno; subst. contradiction.
Qed.

Lemma Height_word : all_in is_word (lit "Height") /\ lit "Height" <> [].
Proof. split; [repeat constructor|discriminate]. Qed.

Lemma Width_word : all_in is_word (lit "Width") /\ lit "Width" <> [].
Proof. split; [repeat constructor|discriminate]. Qed.

Lemma Id_word : all_in is_word (lit "Id") /\ lit "Id" <> [].
Proof. split; [repeat constructor|discriminate]. Qed.

(** The first attribute named Height is where the tag has its first Height
    attribute. *)
Lemma height_first l1 a l2 e :
  Forall attr_ok (l1 ++ a :: l2) -> end_ok e ->
  a_name a = lit "Height" -> Forall (fun b => a_name b <> lit "Height") l1 ->
  first_height (item_text (l1 ++ a :: l2) e)
    (lit "<LocalizedString" ++ attrs_text l1 ++ a_sep a)
    (a_value a ++ dq :: attrs_text l2 ++ e ++ lit ">").
Proof.
  intros Hl He Ha Hl1. destruct Height_word as [Hw Hne].
  assert (Hoka : attr_ok a).
  { apply Forall_app in Hl as [_ Hl']. now inversion Hl'. }
  split.
  - split.
    + rewrite item_split, Ha. now norm_app.
    + rewrite app_assoc. now apply sep_last.
  - intros pre' post' [Ht Hb'].
    change ((lit "Height=" ++ [dq]) ++ post')
      with (lit "Height" ++ (lit "=" ++ [dq]) ++ post') in Ht.
    apply item_occ in Ht as (l1' & a' & l2' & Hll & Ha' & -> & _); try assumption.
    apply (first_split (lit "Height")) in Hll as [(-> & -> & _)|[m ->]]; try assumption.
    + lia.
    + rewrite attrs_text_app, attrs_text_cons. unfold attr_text.
      rewrite !length_app. lia.
Qed.

Lemma height_none l e :
  Forall attr_ok l -> end_ok e -> Forall (fun b => a_name b <> lit "Height") l ->
  forall pre post, ~ height_at (item_text l e) pre post.
Proof.
  intros Hl He Hno pre post [Ht Hb]. destruct Height_word as [Hw Hne].
  change ((lit "Height=" ++ [dq]) ++ post)
    with (lit "Height" ++ (lit "=" ++ [dq]) ++ post) in Ht.
  apply item_occ in Ht as (l1' & a' & l2' & -> & Ha' & _); try assumption.
  apply Forall_app in Hno as [_ Hno]. inversion Hno; subst. contradiction.
Qed.

Lemma last_body l :
  last (lit "<LocalizedString" ++ attrs_text l) = Some "g"%char \/
  last (lit "<LocalizedString" ++ attrs_text l) = Some dq.
Proof.
  destruct l as [|a l] using rev_ind.
  - left. reflexivity.
  - right. rewrite attrs_text_app. cbn [attrs_text map List.concat].
    rewrite app_nil_r. unfold attr_text. rewrite !app_assoc. apply last_snoc.
Qed.

(** The tag is closed after its last attribute: blanks, possibly a slash,
    and the closing bracket. *)
Lemma item_closes l ws sl : all_in is_space ws -> sl = [] \/ sl = lit "/" ->
  closes_with (item_text l (ws ++ sl)) (lit "<LocalizedString" ++ attrs_text l) ws
    (sl ++ lit ">").
Proof.
  intros Hws Hsl. split; [|split; [exact Hws|split]].
  - rewrite item_text_eq. now rewrite <- !app_assoc.
  - intros c Hc. destruct (last_body l) as [E|E]; rewrite E in Hc;
      injection Hc as <-; reflexivity.
  - destruct Hsl as [->| ->]; [right|left; reflexivity].
    split; [reflexivity|]. intros [_ Hc].
    destruct (last_body l) as [E|E]; rewrite E in Hc; discriminate Hc.
Qed.

(** * Rewriting a tag written as a list of attributes *)

Lemma Forall_first (P : attr -> Prop) l1 a l2 :
  Forall P (l1 ++ a :: l2) -> Forall P l1 /\ P a /\ Forall P l2.
Proof. intros [H1 H2]%Forall_app. now inversion H2. Qed.

(** With a Width attribute: its value is replaced. *)
Lemma edit_replace l1 a l2 e w :
  Forall attr_ok (l1 ++ a :: l2) -> end_ok e ->
  a_name a = lit "Width" -> Forall (fun b => a_name b <> lit "Width") l1 ->
  edit_tag (item_text (l1 ++ a :: l2) e) w =
    item_text (l1 ++ Attr (a_sep a) (lit "Width") w :: l2) e.
Proof.
  intros Hl He Ha Hl1. destruct Width_word as [Hw Hne].
  unfold edit_tag, re_sub1. rewrite width_attr_re_eq.
  rewrite (attr_search_first (lit "Width")) by assumption.
  cbn [m_start m_end attr_match].
  rewrite !item_split. cbn [a_sep a_name a_value].
  set (pre := lit "<LocalizedString" ++ attrs_text l1 ++ a_sep a).
  rewrite take_app_length. rewrite <- !Nat.add_assoc, drop_app_add.
  rewrite Ha. unfold width_attr.
  replace (lit "Width" ++ (lit "=" ++ [dq]) ++ a_value a ++ dq :: attrs_text l2 ++ e ++ lit ">")
    with (((lit "Width" ++ lit "=" ++ [dq]) ++ a_value a ++ [dq]) ++
          attrs_text l2 ++ e ++ lit ">") by now norm_app.
  rewrite drop_app_length' by (rewrite !length_app; simpl; lia).
  now norm_app.
Qed.

(** Without a Width attribute, with a Height attribute: the new attribute
    takes the place of the first Height attribute, which follows it after
    one blank. *)
Lemma edit_before_height l1 a l2 e w :
  Forall attr_ok (l1 ++ a :: l2) -> end_ok e ->
  Forall (fun b => a_name b <> lit "Width") (l1 ++ a :: l2) ->
  a_name a = lit "Height" -> Forall (fun b => a_name b <> lit "Height") l1 ->
  edit_tag (item_text (l1 ++ a :: l2) e) w =
    item_text (l1 ++ Attr (a_sep a) (lit "Width") w ::
                     Attr (lit " ") (lit "Height") (a_value a) :: l2) e.
Proof.
  intros Hl He Hnw Ha Hl1. destruct Width_word as [Hw Hne].
  pose proof (height_first l1 a l2 e Hl He Ha Hl1) as Hf.
  destruct (first_height_search _ _ _ Hf) as (m & Hm & Hs).
  unfold edit_tag. rewrite width_attr_re_eq.
  rewrite (attr_search_none (lit "Width")) by assumption.
  rewrite Hm, Hs. rewrite item_split at 1 2.
  rewrite take_app_length, drop_app_length.
  rewrite (item_split l1 (Attr (a_sep a) (lit "Width") w)). cbn [a_sep a_name a_value].
  rewrite attrs_text_cons. unfold attr_text at 1. cbn [a_sep a_name a_value].
  rewrite Ha. unfold width_attr. now norm_app.
Qed.

(** With neither: the new attribute is added after the last one. *)
Lemma edit_append l ws sl w :
  Forall attr_ok l -> all_in is_space ws -> sl = [] \/ sl = lit "/" ->
  Forall (fun b => a_name b <> lit "Width") l ->
  Forall (fun b => a_name b <> lit "Height") l ->
  edit_tag (item_text l (ws ++ sl)) w =
    item_text (l ++ [Attr (lit " ") (lit "Width") w]) (ws ++ sl).
Proof.
  intros Hl Hws Hsl Hnw Hnh. destruct Width_word as [Hw Hne].
  assert (He : end_ok (ws ++ sl)) by (exists ws, sl; auto).
  pose proof (item_closes l ws sl Hws Hsl) as Hc.
  destruct (closes_with_search _ _ _ _ Hc) as (m & Hm & Hs).
  pose proof (height_none l _ Hl He Hnh) as Hh. apply no_height_search in Hh.
  unfold edit_tag. rewrite width_attr_re_eq.
  rewrite (attr_search_none (lit "Width")) by assumption.
  rewrite Hh, Hm, Hs.
  destruct Hc as (Ht & _). rewrite Ht at 1 2.
  rewrite take_app_length, drop_app_length.
  rewrite item_text_eq, attrs_text_app. cbn [attrs_text map List.concat].
  unfold attr_text. cbn [a_sep a_name a_value]. unfold width_attr. now norm_app.
Qed.

Lemma width_attr_ok s w : s <> [] -> all_in is_space s -> value_ok w ->
  attr_ok (Attr s (lit "Width") w).
Proof.
  intros Hs1 Hs2 Hw. destruct Width_word as [Hn Hne].
  split; [exact Hs1|split; [exact Hs2|split; [exact Hne|split; [exact Hn|exact Hw]]]].
Qed.

Lemma first_value_skip n a l : a_name a <> n -> first_value n (a :: l) = first_value n l.
Proof. intros H. simpl. now destruct (decide (a_name a = n)). Qed.

Lemma first_value_hit n a l : a_name a = n -> first_value n (a :: l) = Some (a_value a).
Proof. intros H. simpl. now destruct (decide (a_name a = n)). Qed.

(** Rewriting a tag in the usual form gives a tag in the usual form, with
    the same first Id attribute, whose first Width attribute holds the new
    width. *)
Lemma edit_item l e w : Forall attr_ok l -> end_ok e -> value_ok w ->
  exists l', edit_tag (item_text l e) w = item_text l' e /\ Forall attr_ok l' /\
    first_value (lit "Id") l' = first_value (lit "Id") l /\
    first_value (lit "Width") l' = Some w.
Proof.
  intros Hl He Hw.
  pose proof (first_value_spec (lit "Width") l) as Hsw.
  destruct (first_value (lit "Width") l) as [v|].
  - destruct Hsw as (l1 & a & l2 & -> & Ha & _ & Hl1).
    destruct (Forall_first _ _ _ _ Hl) as (Hok1 & (Hs1 & Hs2 & _) & Hok2).
    exists (l1 ++ Attr (a_sep a) (lit "Width") w :: l2). split; [|split; [|split]].
    + now apply edit_replace.
    + apply Forall_app. split; [exact Hok1|]. constructor; [|exact Hok2].
      now apply width_attr_ok.
    + rewrite !first_value_app. destruct (first_value (lit "Id") l1); [reflexivity|].
      rewrite !first_value_skip; [reflexivity| |]; [rewrite Ha|]; discriminate.
    + rewrite first_value_app, (first_value_none _ _ Hl1). now apply first_value_hit.
  - pose proof (first_value_spec (lit "Height") l) as Hsh.
    destruct (first_value (lit "Height") l) as [v|].
    + destruct Hsh as (l1 & a & l2 & -> & Ha & _ & Hl1).
      destruct (Forall_first _ _ _ _ Hl) as (Hok1 & (Hs1 & Hs2 & _ & _ & Hv) & Hok2).
      destruct (Forall_first _ _ _ _ Hsw) as (Hw1 & _ & _).
      exists (l1 ++ Attr (a_sep a) (lit "Width") w ::
                    Attr (lit " ") (lit "Height") (a_value a) :: l2).
      split; [|split; [|split]].
      * now apply edit_before_height.
      * apply Forall_app. split; [exact Hok1|].
        constructor; [now apply width_attr_ok|]. constructor; [|exact Hok2].
        destruct Height_word as [Hn Hne].
        split; [discriminate|split; [repeat constructor|]].
        split; [exact Hne|split; [exact Hn|exact Hv]].
      * rewrite !first_value_app. destruct (first_value (lit "Id") l1); [reflexivity|].
        rewrite !first_value_skip; [reflexivity|..]; try discriminate.
        rewrite Ha. discriminate.
      * rewrite first_value_app, (first_value_none _ _ Hw1). now apply first_value_hit.
    + destruct He as (ws & sl & -> & Hws & Hsl).
      exists (l ++ [Attr (lit " ") (lit "Width") w]). split; [|split; [|split]].
      * now apply edit_append.
      * apply Forall_app. split; [exact Hl|]. constructor; [|constructor].
        apply width_attr_ok; [discriminate|repeat constructor|exact Hw].
      * rewrite first_value_app. destruct (first_value (lit "Id") l); [reflexivity|].
        now rewrite first_value_skip by discriminate.
      * rewrite first_value_app, (first_value_none _ _ Hsw). now apply first_value_hit.
Qed.

(** A tag whose first Width attribute holds the new width is left as it is. *)
Lemma edit_item_fix l e w : Forall attr_ok l -> end_ok e ->
  first_value (lit "Width") l = Some w ->
  edit_tag (item_text l e) w = item_text l e.
Proof.
  intros Hl He Hv. pose proof (first_value_spec (lit "Width") l) as Hs.
  rewrite Hv in Hs. destruct Hs as (l1 & a & l2 & -> & Ha & Hw & Hl1).
  rewrite edit_replace by assumption. destruct a as [s n v]. simpl in *. now subst.
Qed.

(** The Id read off a tag is the value of its first Id attribute. *)
Lemma id_of_item l e : Forall attr_ok l -> end_ok e ->
  id_of (item_text l e) = first_value (lit "Id") l.
Proof.
  intros Hl He. destruct Id_word as [Hn Hne]. unfold id_of. rewrite id_attr_re_eq.
  pose proof (first_value_spec (lit "Id") l) as Hs.
  destruct (first_value (lit "Id") l) as [v|].
  - destruct Hs as (l1 & a & l2 & -> & Ha & <- & Hl1).
    rewrite (attr_search_first (lit "Id")) by assumption. f_equal.
    apply attr_group. now apply attr_at_item.
  - now rewrite (attr_search_none (lit "Id")).
Qed.

Lemma attrs_no_gt l : Forall attr_ok l -> ">"%char ∉ attrs_text l.
Proof.
  induction 1 as [|a l (_ & Hs & _ & Hn & _ & Hv & _) Hl IH]; [apply not_elem_of_nil|].
  rewrite attrs_text_cons. unfold attr_text. rewrite !elem_of_app.
  intros [[Hin|[Hin|[Hin|[Hin|Hin]]]]|Hin].
  - unfold all_in in Hs. rewrite Forall_forall in Hs.
    now destruct (space_char _ (Hs _ Hin)) as (_ & _ & ? & _).
  - unfold all_in in Hn. rewrite Forall_forall in Hn.
    now destruct (word_char _ (Hn _ Hin)) as (_ & _ & ? & _).
  - revert Hin. compute_done.
  - contradiction.
  - revert Hin. compute_done.
  - contradiction.
Qed.

Lemma item_ok l e : Forall attr_ok l -> end_ok e -> ls_ok (attrs_text l ++ e).
Proof.
  intros Hl (ws & sl & -> & Hws & Hsl). split.
  - rewrite !elem_of_app. intros [Hin|[Hin|Hin]].
    + now apply (attrs_no_gt l).
    + unfold all_in in Hws. rewrite Forall_forall in Hws.
      now destruct (space_char _ (Hws _ Hin)) as (_ & _ & ? & _).
    + destruct Hsl as [->| ->]; revert Hin; compute_done.
  - destruct Hl as [|a l (Hne & Hs & _) _].
    + cbn [attrs_text map List.concat app].
      destruct ws as [|c ws].
      * destruct Hsl as [->| ->]; reflexivity.
      * inversion Hws; subst. simpl. now destruct (space_char c).
    + rewrite attrs_text_cons. unfold attr_text.
      destruct (a_sep a) as [|c s]; [done|]. inversion Hs; subst.
      simpl. now destruct (space_char c).
Qed.

Lemma item_full l e : Forall attr_ok l -> end_ok e -> full_item (item_text l e).
Proof. intros Hl He. apply match_item_full. now apply item_ok. Qed.

(** A tag in the usual form is stable under rewriting with a width that
    can stand between quotes. *)
Lemma attr_tag_stable t w : attr_tag t -> value_ok w -> stable_tag t w.
Proof.
  intros (l & e & -> & Hl & He) Hw.
  destruct (edit_item l e w Hl He Hw) as (l' & Hed & Hl' & Hid & Hwd).
  unfold stable_tag. rewrite Hed. split; [|split].
  - now apply item_full.
  - now rewrite !id_of_item, Hid.
  - now apply edit_item_fix.
Qed.

(** * The scanner, entry by entry *)

Lemma scan_step_eq ref st m :
  scan_step ref st m =
  let p := (s_group st, group0 ref m) in
  ScanState (next_scope (s_group st) (group0 ref m))
    (match scan_entry p with
     | Some (k, w) => <[k := w]> (s_map st)
     | None => s_map st
     end).
Proof.
  unfold scan_step, next_scope, scan_entry, item_key, is_item.
  destruct st as [cg tbl]. cbn [fst snd s_group s_map].
  destruct (re_match group_open_re _); [destruct cg; reflexivity|].
  destruct (re_match group_close_re _); [destruct cg; reflexivity|].
  destruct (re_match ls_tag_re _); destruct cg as [g|]; try reflexivity.
  destruct (re_search id_attr_re _); [|reflexivity].
  destruct (re_search width_attr_re _); reflexivity.
Qed.

Lemma scan_fold ref : forall ms st,
  s_map (fold_left (scan_step ref) ms st) =
  fold_left insert_entry
    (omap scan_entry (scoped (s_group st) (map (group0 ref) ms))) (s_map st).
Proof.
  induction ms as [|m ms IH]; intros st; [reflexivity|].
  cbn [fold_left map scoped]. rewrite IH, scan_step_eq. cbn zeta.
  cbn [s_group s_map omap list_omap].
  destruct (scan_entry _) as [[k w]|]; reflexivity.
Qed.

Lemma fold_insert_lookup k : forall l (tbl : width_table),
  fold_left insert_entry l tbl !! k =
  match last_entry k l with Some v => Some v | None => tbl !! k end.
Proof.
  induction l as [|[k' v] l IH]; intros tbl; [reflexivity|].
  cbn [fold_left last_entry]. rewrite IH.
  destruct (last_entry k l); [reflexivity|].
  unfold insert_entry. cbn [fst snd].
  destruct (decide (k' = k)) as [->|Hne].
  - apply lookup_insert_eq.
  - now apply lookup_insert_ne.
Qed.

Lemma filter_length_le {A} (P Q : A -> Prop) `{forall x, Decision (P x)}
    `{forall x, Decision (Q x)} (l : list A) :
  (forall x, P x -> Q x) -> length (filter P l) <= length (filter Q l).
Proof.
  intros HPQ. induction l as [|x l IH]; [reflexivity|].
  rewrite !filter_cons. destruct (decide (P x)) as [HP|HP].
  - rewrite decide_True by auto. simpl. lia.
  - destruct (decide (Q x)); simpl; lia.
Qed.

Lemma emit_not_keyed wm p : keyed wm p = false -> emit wm p = p.2.
Proof. unfold keyed, emit. now destruct (new_width_of wm p). Qed.

(** * C1: the update count *)

(** C1, as stated, fails: in [doc_same_width] the item already carries the
    width of the table; the patcher reports one update although no token
    was altered and the output is the source, byte for byte. *)
Lemma C1_counterexample :
  reported doc_same_width table_G_a_5 = 1 /\
  length (filter (altered table_G_a_5) (scoped_tokens doc_same_width)) = 0 /\
  patched doc_same_width table_G_a_5 = doc_same_width.
Proof. vm_compute. repeat split. Qed.

(** C1, amended: the count reported by the patcher is the number of item
    tokens met under a scope whose (scope, Id) key is in the table, that is,
    of the tokens whose Width attribute was written, whether or not the
    written text differs from the old one; the altered tokens are among
    them. *)
Theorem C1_count_is_keyed_tokens (src : text) (wm : width_table) :
  reported src wm =
    length (filter (fun p => keyed wm p = true) (scoped_tokens src)) /\
  length (filter (altered wm) (scoped_tokens src)) <= reported src wm.
Proof.
  unfold reported. rewrite apply_widths_text_eq. cbn [snd].
  split; [reflexivity|].
  apply filter_length_le. intros p Hp.
  destruct (keyed wm p) eqn:Hk; [reflexivity|].
  exfalso. apply Hp. now apply emit_not_keyed.
Qed.

(** * C6: the table built by the scanner *)


(** * C8: the usage error *)

(** C8: with an argument vector of any length but four (the script name and
    three paths), [main] prints the usage line, exits with status 1, opens
    no file and leaves the files as they are. *)
Theorem C8_usage_error (argv : list text) (w : world) :
  length argv <> 4 ->
  main argv w =
    (World (w_files w) (w_readonly w) (w_stdout w ++ [usage]) (w_opened w),
     Exited 1).
Proof.
  intros Hlen.
  destruct argv as [|a0 [|a1 [|a2 [|a3 [|a4 rest]]]]]; try reflexivity.
  now contradiction Hlen.
Qed.

Lemma C8_usage_error_witness :
  length [lit "prog"; lit "source.xml"; lit "reference.xml"] <> 4 /\
  main [lit "prog"; lit "source.xml"; lit "reference.xml"] (World ∅ ∅ [] []) =
    (World ∅ ∅ [usage] [], Exited 1).
Proof.
  split; [simpl; lia|].
  apply (C8_usage_error [lit "prog"; lit "source.xml"; lit "reference.xml"]
           (World ∅ ∅ [] [])).
  simpl; lia.
Defined.

(** * C5: scope isolation *)


(** * C2: verbatim preservation *)


(** * C9: the closing delimiter is always found *)

(** C9: on a text that the item pattern matches as a whole (by
    [item_tokens_full], every token that reaches the item branch is one)
    the search for the closing delimiter succeeds, so that the insertion
    branch, when the tag has neither Width nor Height, does insert the
    attribute at the position found; the fallback that would leave the tag
    as it is does not apply. *)
Theorem C9_closing_delimiter_found (tag : text) (m : mobj) :
  re_match ls_tag_re tag = Some m -> m_end m = length tag ->
  exists close_m,
    re_search close_re tag = Some close_m /\
    forall w, re_search width_attr_re tag = None ->
      re_search height_re tag = None ->
      edit_tag tag w =
        take (m_start close_m) tag ++ (lit " " ++ width_attr w) ++
        drop (m_start close_m) tag.
Proof.
  intros Hm He.
  destruct (ls_full_match _ _ Hm He) as (x & -> & _).
  unfold ls_text. rewrite app_assoc.
  destruct (close_search_found (lit "<LocalizedString" ++ x)) as [close_m Hc].
  exists close_m. split; [exact Hc|].
  intros w Hw Hh. unfold edit_tag. now rewrite Hw, Hh, Hc.
Qed.

Lemma C9_closing_delimiter_found_witness :
  exists close_m,
    re_search close_re tag_plain = Some close_m /\
    forall w, re_search width_attr_re tag_plain = None ->
      re_search height_re tag_plain = None ->
      edit_tag tag_plain w =
        take (m_start close_m) tag_plain ++ (lit " " ++ width_attr w) ++
        drop (m_start close_m) tag_plain.
Proof.
  apply (C9_closing_delimiter_found tag_plain (Match 0 25 [])); reflexivity.
Defined.

(** * C4: where a new Width attribute is inserted *)



(** * C7: scope-open tags *)



Lemma gopen_ok_dialog : gopen_ok (lit " ") (lit "Dialog1") [].
Proof.
  split; [|split; [|split; [|split; [|split]]]]; compute_done.
Qed.


(** * C10: self-closing scope tags *)




(** * C3: patching the patched text *)

Ltac eval_list t :=
  let v := eval vm_compute in t in
  replace t with v by (vm_compute; reflexivity).

Ltac attr_ok_tac :=
  split; [discriminate|split; [repeat constructor|split; [discriminate|
  split; [repeat constructor|split; [compute_done|split; [compute_done|
  compute_done]]]]]].



Lemma table_form_ok : map_Forall (fun _ w => value_ok w) table_form.
Proof.
  unfold table_form. repeat apply map_Forall_insert_2; try apply map_Forall_empty;
    (split; [compute_done|split; compute_done]).
Qed.

Lemma doc_form_gaps : Forall (fun g => group_free g = true) (gaps doc_form).
Proof. eval_list (gaps doc_form). repeat constructor. Qed.

Lemma doc_form_opens :
  Forall (fun t => starts_with (lit "<Group") t = true -> plain_open t) (tokens doc_form).
Proof.
  eval_list (tokens doc_form).
  repeat (apply Forall_cons; split; [try (intros H; vm_compute in H; discriminate H)|]);
    [|constructor].
  intros _. exists (lit " "), (lit "Dialog1"), [].
  split; [reflexivity|]. split; [exact gopen_ok_dialog|].
  apply occursb_false. reflexivity.
Qed.

Lemma doc_form_tags :
  Forall (fun p => keyed table_form p = true -> attr_tag p.2) (scoped_tokens doc_form).
Proof.
  eval_list (scoped_tokens doc_form).
  repeat (apply Forall_cons; split;
          [intros Hk; try (vm_compute in Hk; discriminate Hk); clear Hk; cbn [snd]|]);
    [..|constructor].
  - exists [Attr (lit " ") (lit "Id") (lit "Ok"); Attr (lit " ") (lit "Width") (lit "10");
            Attr (lit " ") (lit "Height") (lit "20")], (lit "/").
    split; [reflexivity|]. split; [repeat (constructor; [attr_ok_tac|]); constructor|].
    exists [], (lit "/"). split; [reflexivity|]. split; [constructor|now right].
  - exists [Attr (lit " ") (lit "Id") (lit "Cancel");
            Attr (lit " ") (lit "Height") (lit "20")], (lit "/").
    split; [reflexivity|]. split; [repeat (constructor; [attr_ok_tac|]); constructor|].
    exists [], (lit "/"). split; [reflexivity|]. split; [constructor|now right].
  - exists [Attr (lit " ") (lit "Id") (lit "Help")], (lit "/").
    split; [reflexivity|]. split; [repeat (constructor; [attr_ok_tac|]); constructor|].
    exists [], (lit "/"). split; [reflexivity|]. split; [constructor|now right].
Qed.


(** * Runs that update nothing *)

Lemma keyed_none_emit wm ps :
  Forall (fun p => keyed wm p = false) ps -> map (emit wm) ps = map snd ps.
Proof.
  induction 1 as [|p ps Hp _ IH]; [reflexivity|].
  cbn [map]. now rewrite IH, (emit_not_keyed _ _ Hp).
Qed.

Lemma patched_unkeyed src wm :
  Forall (fun p => keyed wm p = false) (scoped_tokens src) -> patched src wm = src.
Proof.
  intros H. rewrite patched_eq, (keyed_none_emit _ _ H).
  unfold scoped_tokens. rewrite scoped_snd. unfold tokens.
  now rewrite (weave_id token_re _ 0 _ (finditer_toks _)).
Qed.

Lemma reported_eq src wm :
  reported src wm = length (filter (fun p => keyed wm p = true) (scoped_tokens src)).
Proof. unfold reported. now rewrite apply_widths_text_eq. Qed.

(** X1: a run that reports no update gives back the source text. *)
Theorem zero_updates_leave_text (src : text) (wm : width_table) :
  reported src wm = 0 -> patched src wm = src.
Proof.
  rewrite reported_eq. intros H. apply patched_unkeyed.
  apply nil_length_inv in H. apply Forall_forall. intros p Hp.
  destruct (keyed wm p) eqn:Hk; [|reflexivity].
  assert (Hin : p ∈ filter (fun p => keyed wm p = true) (scoped_tokens src))
    by (apply list_elem_of_filter; auto).
  rewrite H in Hin. now apply elem_of_nil in Hin.
Qed.

Lemma zero_updates_leave_text_witness :
  patched doc_dialog table_G_a_5 = doc_dialog.
Proof. apply zero_updates_leave_text. vm_compute. reflexivity. Defined.

(** X2: with an empty table nothing is looked up with success: the output
    is the source and the count is 0. *)
Theorem empty_table_no_update (src : text) :
  patched src ∅ = src /\ reported src ∅ = 0.
Proof.
  assert (H : Forall (fun p => keyed ∅ p = false) (scoped_tokens src)).
  { apply Forall_forall. intros p _. unfold keyed, new_width_of.
    destruct (item_key p); [now rewrite lookup_empty|reflexivity]. }
  split; [now apply patched_unkeyed|].
  rewrite reported_eq. induction H as [|p ps Hp _ IH]; [reflexivity|].
  rewrite filter_cons. rewrite Hp. cbn. exact IH.
Qed.

(** * Replacing the value of a Width attribute *)

Lemma width_at_iff tag pre v post :
  width_at tag pre v post <->
  attr_at (lit "Width") tag (length pre) v /\ pre = take (length pre) tag /\
  post = drop (m_end (attr_match (lit "Width") (length pre) v)) tag.
Proof.
  split.
  - intros (-> & Hv & Hb).
    assert (Ha : attr_at (lit "Width") (pre ++ (lit "Width=" ++ [dq]) ++ v ++ dq :: post)
                   (length pre) v).
    { split; [|split; [exact Hv|]].
      - rewrite take_app_length, drop_app_length.
        rewrite boundary_word_r by reflexivity. now rewrite Hb.
      - exists post. now rewrite drop_app_length. }
    split; [exact Ha|]. split; [now rewrite take_app_length|].
    destruct (attr_match_end _ _ _ _ Ha) as (r & Hr & ->).
    rewrite drop_app_length in Hr. cbn in Hr. injection Hr as Hr.
    now apply app_inv_head in Hr as [= ->].
  - intros (Ha & Hpre & Hpost).
    destruct (attr_match_end _ _ _ _ Ha) as (r & Hr & He).
    destruct Ha as (Hb & Hv & _). rewrite He in Hpost. subst post.
    split; [|split; [exact Hv|]].
    + rewrite <- (take_drop (length pre) tag) at 1. rewrite <- Hpre, Hr.
      now norm_app.
    + rewrite Hr in Hb. rewrite boundary_word_r in Hb by reflexivity.
      apply negb_true_iff in Hb. now rewrite <- Hpre in Hb.
Qed.

Lemma search_first_width tag m : re_search width_attr_re tag = Some m ->
  first_width tag (take (m_start m) tag) (group tag m 1) (drop (m_end m) tag).
Proof.
  rewrite width_attr_re_eq. intros Hs.
  apply attr_search_Some in Hs as (i & v & -> & Hi & Ha & Hfirst).
  rewrite (attr_group _ _ _ _ Ha). cbn [m_start attr_match].
  split.
  - apply width_at_iff. rewrite length_take_le by lia. auto.
  - intros pre' v' post' Hw. rewrite length_take_le by lia.
    destruct (decide (i <= length pre')); [assumption|]. exfalso.
    apply width_at_iff in Hw as (Ha' & _). apply (Hfirst (length pre') v'); [lia|exact Ha'].
Qed.

Lemma first_width_search tag pre v post : first_width tag pre v post ->
  re_search width_attr_re tag = Some (attr_match (lit "Width") (length pre) v).
Proof.
  intros [Hw Hfirst]. pose proof Hw as (Ht & _).
  apply width_at_iff in Hw as (Ha & Hpre & Hpost).
  rewrite width_attr_re_eq. apply attr_search_intro.
  - rewrite Ht, length_app. lia.
  - exact Ha.
  - intros j v' Hj Ha'.
    assert (Hjl : j <= length tag) by (rewrite Ht, length_app; lia).
    assert (Hw' : width_at tag (take j tag) v'
                    (drop (m_end (attr_match (lit "Width") j v')) tag)).
    { apply width_at_iff. rewrite length_take_le by lia. auto. }
    apply Hfirst in Hw'. rewrite length_take_le in Hw' by lia. lia.
Qed.

(** X3: when the tag has a Width attribute, rewriting it with [w] puts [w]
    in place of the value of the first one; the text before the value and
    the text after it stay. *)
Theorem width_value_replaced (tag pre v post w : text) :
  first_width tag pre v post ->
  edit_tag tag w = pre ++ (lit "Width=" ++ [dq]) ++ w ++ dq :: post.
Proof.
  intros Hf. pose proof (first_width_search _ _ _ _ Hf) as Hs.
  destruct Hf as [Hw _]. apply width_at_iff in Hw as (_ & Hpre & Hpost).
  unfold edit_tag, re_sub1. rewrite Hs. rewrite <- Hpost.
  cbn [m_start attr_match]. rewrite <- Hpre. unfold width_attr. now norm_app.
Qed.

Lemma width_value_replaced_witness :
  edit_tag tag_width (lit "80") =
    xml "<LocalizedString Id='a' Width='80' MinWidth='3' Height='2'/>".
Proof.
  rewrite (width_value_replaced tag_width (xml "<LocalizedString Id='a' ") (lit "5")
             (xml " MinWidth='3' Height='2'/>") (lit "80")); [reflexivity|].
  apply (search_first_width tag_width (Match 24 33 [(1, (31, 32))])). reflexivity.
Defined.

(** * [main] on three paths *)

(** X4: when the reference and the source can be read and the output can
    be written, [main] reads the reference, then the source, writes the
    patched source under the output path, prints the summary line with the
    count and ends normally; no other file changes. *)
Theorem main_merges (prog source reference output ref_text src_text : text) (w : world) :
  w_files w !! reference = Some ref_text ->
  w_files w !! source = Some src_text ->
  output ∉ w_readonly w ->
  main [prog; source; reference; output] w =
    (World (<[output := patched src_text (build_width_map_text ref_text)]> (w_files w))
       (w_readonly w)
       (w_stdout w ++
          [lit "Updated " ++
           nat_text (reported src_text (build_width_map_text ref_text)) ++
           lit " width(s). Saved to: " ++ output])
       (w_opened w ++ [reference; source; output]),
     Ok tt).
Proof.
  intros Href Hsrc Hout.
  unfold main, build_width_map, apply_widths_surgically, patched, reported.
  unfold mbind, io_bind, mret, io_ret, read_file, write_file, print, log_open.
  cbn [w_files w_readonly w_stdout w_opened]. rewrite Href.
  cbn [w_files w_readonly w_stdout w_opened]. rewrite Hsrc.
  destruct (apply_widths_text src_text (build_width_map_text ref_text)) as [res n].
  cbn [w_files w_readonly w_stdout w_opened fst snd].
  rewrite decide_False by exact Hout.
  cbn [w_files w_readonly w_stdout w_opened]. now rewrite <- !app_assoc.
Qed.

Lemma main_merges_witness :
  main [lit "prog"; lit "source.xml"; lit "reference.xml"; lit "source.xml"]
       world_two_files =
    (World (<[ lit "source.xml" :=
                 xml "<Group Id='Dialog1'><LocalizedString Id='OkButton' Width='50' Height='20'/></Group>" ]>
              (w_files world_two_files))
       ∅ [lit "Updated 1 width(s). Saved to: source.xml"]
       [lit "reference.xml"; lit "source.xml"; lit "source.xml"],
     Ok tt).
Proof.
  rewrite (main_merges _ _ _ _ doc_reference doc_dialog).
  - vm_compute. reflexivity.
  - reflexivity.
  - reflexivity.
  - compute_done.
Defined.

(** X5: when [main] ends by an exception (a file that cannot be read or
    written), no file has changed and nothing has been printed. *)
Theorem main_raised_no_effect (argv : list text) (w w' : world) :
  main argv w = (w', Raised) ->
  w_files w' = w_files w /\ w_stdout w' = w_stdout w /\ w_readonly w' = w_readonly w.
Proof.
  destruct argv as [|a0 [|a1 [|a2 [|a3 [|a4 rest]]]]]; try discriminate.
  unfold main, build_width_map, apply_widths_surgically.
  unfold mbind, io_bind, mret, io_ret, read_file, write_file, print, log_open.
  cbn [w_files w_readonly w_stdout w_opened].
  destruct (w_files w !! a2) as [ref_text|]; [|now intros [= <-]].
  cbn [w_files w_readonly w_stdout w_opened].
  destruct (w_files w !! a1) as [src_text|]; [|now intros [= <-]].
  destruct (apply_widths_text src_text (build_width_map_text ref_text)) as [res n].
  cbn [w_files w_readonly w_stdout w_opened].
  destruct (decide (a3 ∈ w_readonly w)); [now intros [= <-]|discriminate].
Qed.

Lemma main_raised_no_effect_witness :
  w_files (main [lit "prog"; lit "source.xml"; lit "missing.xml"; lit "out.xml"]
             world_two_files).1 = w_files world_two_files /\
  w_stdout (main [lit "prog"; lit "source.xml"; lit "missing.xml"; lit "out.xml"]
              world_two_files).1 = [] /\
  w_readonly (main [lit "prog"; lit "source.xml"; lit "missing.xml"; lit "out.xml"]
                world_two_files).1 = ∅.
Proof.
  apply (main_raised_no_effect
           [lit "prog"; lit "source.xml"; lit "missing.xml"; lit "out.xml"]
           world_two_files).
  vm_compute. reflexivity.
Defined.

(** * Documents laid out as tags and text *)

Lemma occursb_true w s x y : s = x ++ w ++ y -> occursb w s = true.
Proof.
  intros ->. induction x as [|c x IH]; rewrite occursb_unfold.
  - assert (H : starts_with w (w ++ y) = true) by (apply starts_with_app; eauto).
    cbn [app]. now rewrite H.
  - cbn [app]. rewrite IH. apply orb_true_r.
Qed.

Lemma no_tag_start_spec g : no_tag_start g = true ->
  forall x l y, g = x ++ ("<"%char :: l) ++ y ->
  l <> lit "Group" /\ l <> lit "/Group>" /\ l <> lit "LocalizedString".
Proof.
  unfold no_tag_start. intros H x l y Hg.
  apply andb_true_iff in H as [H H3]. apply andb_true_iff in H as [H1 H2].
  apply negb_true_iff in H1, H2, H3.
  repeat split; intros ->; pose proof (occursb_true _ _ _ _ Hg) as Ho.
  - change ("<"%char :: lit "Group") with (lit "<Group") in Ho. congruence.
  - change ("<"%char :: lit "/Group>") with (lit "</Group>") in Ho. congruence.
  - change ("<"%char :: lit "LocalizedString") with (lit "<LocalizedString") in Ho.
    congruence.
Qed.

(** Every token starts with the opening text of one of the three tags. *)
Lemma shape_opening t : token_shape t ->
  exists l y, t = ("<"%char :: l) ++ y /\ ("<"%char ∉ l) /\
    (l = lit "Group" \/ l = lit "/Group>" \/ l = lit "LocalizedString").
Proof.
  intros [a v b -> _| -> |x -> _].
  - exists (lit "Group"), (a ++ (lit "Id=" ++ [dq]) ++ v ++ dq :: b ++ lit ">").
    split; [reflexivity|]. split; [compute_done|auto].
  - exists (lit "/Group>"), []. split; [reflexivity|]. split; [compute_done|auto].
  - exists (lit "LocalizedString"), (x ++ lit ">").
    split; [reflexivity|]. split; [compute_done|auto].
Qed.

Lemma clean_gap_no_token (g o w P : text) j0 :
  no_tag_start g = true -> j0 < length g ->
  try_at token_re (cur (P ++ g ++ ("<"%char :: o) ++ w) (length P + j0)) = None.
Proof.
  intros Hg Hj0.
  destruct (try_at token_re _) as [m|] eqn:Hm; [|reflexivity]. exfalso.
  apply try_at_Some in Hm as (c & Hl & _).
  apply token_lang_inv in Hl as (t & r & Hd & Hsh & _).
  rewrite drop_app_add, drop_app_le in Hd by lia.
  destruct (shape_opening _ Hsh) as (l & y & -> & Hl & Hcases).
  rewrite <- app_assoc in Hd.
  apply opening_in_gap in Hd as (y' & Hy' & _); [|
    intros E; apply (f_equal length) in E; rewrite length_drop in E; simpl in E; lia|
    exact Hl].
  assert (E : g = take j0 g ++ ("<"%char :: l) ++ y')
    by (rewrite <- Hy'; now rewrite take_drop).
  destruct (no_tag_start_spec _ Hg _ _ _ E) as (N1 & N2 & N3).
  destruct Hcases as [?|[?|?]]; contradiction.
Qed.

Lemma clean_tail_no_token (tail P : text) j0 :
  no_tag_start tail = true ->
  try_at token_re (cur (P ++ tail) (length P + j0)) = None.
Proof.
  intros Hg.
  destruct (try_at token_re _) as [m|] eqn:Hm; [|reflexivity]. exfalso.
  apply try_at_Some in Hm as (c & Hl & _).
  apply token_lang_inv in Hl as (t & r & Hd & Hsh & _).
  rewrite drop_app_add in Hd.
  destruct (shape_opening _ Hsh) as (l & y & -> & Hl & Hcases).
  assert (E : tail = take j0 tail ++ ("<"%char :: l) ++ y ++ r).
  { rewrite <- (take_drop j0 tail) at 1. rewrite Hd. now rewrite <- !app_assoc. }
  destruct (no_tag_start_spec _ Hg _ _ _ E) as (N1 & N2 & N3).
  destruct Hcases as [?|[?|?]]; contradiction.
Qed.

(** On a laid-out document [finditer] finds the tags, one after the other,
    and weaving other texts in their place keeps the text between them. *)
Lemma flat_finditer d : forall (P tail : text) outs,
  Forall (fun p => no_tag_start p.1 = true /\ sure p.2) d ->
  no_tag_start tail = true -> length outs = length d ->
  let s := P ++ flat d tail in
  map (group0 s) (finditer_from token_re s (length P)) = map snd d /\
  weave s (length P) (finditer_from token_re s (length P)) outs =
    flat (zip (map fst d) outs) tail.
Proof.
  induction d as [|[g t] d IH]; intros P tail outs Hd Htail Hlen s; subst s.
  - destruct outs; [|discriminate]. cbn [flat].
    rewrite finditer_from_unfold;
      [|apply token_re_nonempty | rewrite length_app; lia].
    rewrite search_from_None_intro; [| rewrite length_app; lia |].
    + cbn [map weave zip zip_with flat]. split; [reflexivity|].
      apply drop_app_length.
    + intros j Hj. replace j with (length P + (j - length P)) by lia.
      now apply clean_tail_no_token.
  - destruct outs as [|o outs]; [discriminate|]. injection Hlen as Hlen.
    inversion Hd as [|? ? [Hg Ht] Hd']; subst. cbn [fst snd] in *.
    cbn [flat]. set (w := flat d tail).
    destruct (sure_head _ Ht) as [t' Et].
    assert (Hdrop : drop (length P + length g) (P ++ g ++ t ++ w) = t ++ w).
    { rewrite drop_app_add. apply drop_app_length. }
    destruct (sure_try_at _ _ _ _ Hdrop Ht) as [cs Hm].
    assert (Hsf : search_from token_re (P ++ g ++ t ++ w) (length P) =
                  Some (Match (length P + length g) (length P + length g + length t) cs)).
    { apply (search_from_intro _ _ _ (length P + length g)).
      - rewrite !length_app. lia.
      - exact Hm.
      - intros j Hj. replace j with (length P + (j - length P)) by lia.
        rewrite Et. apply clean_gap_no_token; [exact Hg|lia]. }
    rewrite finditer_from_unfold;
      [|apply token_re_nonempty | rewrite length_app; lia].
    rewrite Hsf. cbn [map m_start m_end weave zip zip_with flat fst snd].
    destruct (IH (P ++ g ++ t) tail outs Hd' Htail Hlen) as [IH1 IH2].
    fold w in IH1, IH2. rewrite <- !app_assoc in IH1, IH2.
    rewrite !length_app, Nat.add_assoc in IH1, IH2.
    split.
    + f_equal; [|exact IH1].
      unfold group0. cbn [m_start m_end]. now apply drop_slice with (r := w).
    + rewrite IH2. f_equal.
      unfold slice. rewrite drop_app_length.
      replace (length P + length g - length P) with (length g) by lia.
      apply take_app_length.
Qed.

Lemma table_lookup ref_text k :
  build_width_map_text ref_text !! k = last_entry k (entries ref_text).
Proof.
  unfold build_width_map_text, entries, scoped_tokens, tokens.
  rewrite scan_fold, fold_insert_lookup. cbn [s_group s_map].
  destruct (last_entry k _); [reflexivity | apply lookup_empty].
Qed.

(** X6: in a document made of sure tags (scope-open tags with a single Id
    text, closing tags, item tags) with text between them that holds the
    opening text of none of the three tags, the tokens both loops iterate
    over are these tags, in order; so the scanner's table is read off the
    tags alone. *)
Theorem tokens_of_layout (d : list (text * text)) (tail : text) :
  Forall (fun p => no_tag_start p.1 = true /\ sure p.2) d ->
  no_tag_start tail = true ->
  tokens (flat d tail) = map snd d /\
  forall k, build_width_map_text (flat d tail) !! k =
            last_entry k (omap scan_entry (scoped None (map snd d))).
Proof.
  intros Hd Htail.
  assert (Ht : tokens (flat d tail) = map snd d).
  { unfold tokens. rewrite finditer_from_0.
    apply (flat_finditer d [] tail (map snd d) Hd Htail). now rewrite length_map. }
  split; [exact Ht|].
  intros k. rewrite table_lookup. unfold entries, scoped_tokens. now rewrite Ht.
Qed.

Lemma layout_form_ok :
  Forall (fun p => no_tag_start p.1 = true /\ sure p.2) layout_form.
Proof.
  unfold layout_form. repeat (apply Forall_cons; split; [split; [reflexivity|]|]);
    [..|constructor].
  - left. exists (lit " "), (lit "Dialog1"), [].
    split; [reflexivity|]. split; [exact gopen_ok_dialog|].
    apply occursb_false. reflexivity.
  - right. right. exists (xml " Id='Ok' Width='10' Height='20'/").
    split; [reflexivity|]. split; compute_done.
  - right. right. exists (xml " Id='Cancel' Height='20'/").
    split; [reflexivity|]. split; compute_done.
  - right. right. exists (xml " Id='Help'/").
    split; [reflexivity|]. split; compute_done.
  - right. now left.
Qed.

Lemma tokens_of_layout_witness :
  tokens doc_form = map snd layout_form /\
  forall k, build_width_map_text doc_form !! k =
            last_entry k (omap scan_entry (scoped None (map snd layout_form))).
Proof.
  apply (tokens_of_layout layout_form (xml "</Strings>")).
  - exact layout_form_ok.
  - reflexivity.
Defined.

(** X7: patching such a document keeps the text between the tags and the
    text after the last one, and puts in place of each tag what the patcher
    emits for it under the scope in force; the count is the number of tags
    the table holds a width for. *)
Theorem patched_layout (d : list (text * text)) (tail : text) (wm : width_table) :
  Forall (fun p => no_tag_start p.1 = true /\ sure p.2) d ->
  no_tag_start tail = true ->
  patched (flat d tail) wm =
    flat (zip (map fst d) (map (emit wm) (scoped None (map snd d)))) tail /\
  reported (flat d tail) wm =
    length (filter (fun p => keyed wm p = true) (scoped None (map snd d))).
Proof.
  intros Hd Htail.
  assert (Hlen : length (map (emit wm) (scoped None (map snd d))) = length d)
    by (now rewrite length_map, scoped_length, length_map).
  destruct (flat_finditer d [] tail _ Hd Htail Hlen) as [H1 H2].
  cbn [app length] in H1, H2. rewrite <- finditer_from_0 in H1, H2.
  assert (Ht : scoped_tokens (flat d tail) = scoped None (map snd d)).
  { unfold scoped_tokens, tokens. now rewrite H1. }
  split.
  - rewrite patched_eq, Ht. exact H2.
  - now rewrite reported_eq, Ht.
Qed.

Lemma patched_layout_witness :
  patched doc_form table_form =
    xml "<Strings><Group Id='Dialog1'> <LocalizedString Id='Ok' Width='80' Height='20'/> <LocalizedString Id='Cancel' Width='90' Height='20'/> <LocalizedString Id='Help' Width='70'/> </Group></Strings>" /\
  reported doc_form table_form = 3.
Proof.
  destruct (patched_layout layout_form (xml "</Strings>") table_form layout_form_ok
              eq_refl) as [H1 H2].
  split.
  - etransitivity; [exact H1|]. vm_compute. reflexivity.
  - etransitivity; [exact H2|]. vm_compute. reflexivity.
Defined.

(** * Merging a document with its own widths *)

Lemma patched_fixed src wm :
  Forall (fun p => emit wm p = p.2) (scoped_tokens src) -> patched src wm = src.
Proof.
  intros H. rewrite patched_eq.
  replace (map (emit wm) (scoped_tokens src)) with (map snd (scoped_tokens src))
    by (symmetry; apply Forall_fmap_ext_1; exact H).
  unfold scoped_tokens. rewrite scoped_snd. unfold tokens.
  now rewrite (weave_id token_re _ 0 _ (finditer_toks _)).
Qed.

(** Writing the value the first Width attribute has leaves the tag as it is. *)
Lemma edit_same t m : re_search width_attr_re t = Some m ->
  edit_tag t (group t m 1) = t.
Proof.
  intros Hs. unfold edit_tag, re_sub1. rewrite Hs.
  rewrite width_attr_re_eq in Hs.
  apply attr_search_Some in Hs as (i & v & -> & Hi & Ha & _).
  rewrite (attr_group _ _ _ _ Ha).
  destruct (attr_match_end _ _ _ _ Ha) as (r & Hr & ->).
  cbn [m_start attr_match].
  transitivity (take i t ++ drop i t); [|apply take_drop]. f_equal.
  rewrite Hr. unfold width_attr. now norm_app.
Qed.

Lemma scan_entry_key p k w : scan_entry p = Some (k, w) -> item_key p = Some k.
Proof.
  unfold scan_entry. destruct (item_key p) as [k'|]; [|discriminate].
  destruct (re_search width_attr_re p.2); [|discriminate]. now intros [= -> _].
Qed.

Lemma scan_entry_width p k w : scan_entry p = Some (k, w) ->
  exists m, re_search width_attr_re p.2 = Some m /\ w = group p.2 m 1.
Proof.
  unfold scan_entry. destruct (item_key p) as [k'|]; [|discriminate].
  destruct (re_search width_attr_re p.2) as [m|]; [|discriminate].
  intros [= _ <-]. eauto.
Qed.

Lemma last_entry_absent k (ps : list (option text * text)) :
  k ∉ omap item_key ps -> last_entry k (omap scan_entry ps) = None.
Proof.
  induction ps as [|q ps IH]; intros Hk; [reflexivity|].
  cbn [omap list_omap] in *.
  assert (Hk' : k ∉ omap item_key ps).
  { destruct (item_key q); [|exact Hk]. intros Hin. apply Hk. now right. }
  destruct (scan_entry q) as [[kq v]|] eqn:Hq; [|now apply IH].
  cbn [last_entry]. rewrite (IH Hk').
  destruct (decide (kq = k)) as [->|]; [|reflexivity].
  exfalso. apply Hk. rewrite (scan_entry_key _ _ _ Hq). left.
Qed.

(** With keys that occur once, the entry under the key of a token is the
    token's own. *)
Lemma last_entry_own (ps : list (option text * text)) :
  NoDup (omap item_key ps) -> forall p k, p ∈ ps -> item_key p = Some k ->
  last_entry k (omap scan_entry ps) =
    match scan_entry p with Some (_, w) => Some w | None => None end.
Proof.
  induction ps as [|q ps IH]; intros Hnd p k Hp Hk; [now apply elem_of_nil in Hp|].
  cbn [omap list_omap] in Hnd |- *.
  apply elem_of_cons in Hp as [->|Hp].
  - rewrite Hk in Hnd. apply NoDup_cons in Hnd as [Hnot _].
    destruct (scan_entry q) as [[kq v]|] eqn:Hq.
    + cbn [last_entry]. rewrite (last_entry_absent _ _ Hnot).
      pose proof (scan_entry_key _ _ _ Hq) as Hkq. rewrite Hk in Hkq.
      injection Hkq as ->. now rewrite decide_True.
    + now apply last_entry_absent.
  - assert (Hin : k ∈ omap item_key ps) by (apply list_elem_of_omap; eauto).
    assert (Hnd' : NoDup (omap item_key ps)).
    { destruct (item_key q); [now apply NoDup_cons in Hnd|exact Hnd]. }
    destruct (scan_entry q) as [[kq v]|] eqn:Hq; [|now apply IH].
    cbn [last_entry]. rewrite (IH Hnd' p k Hp Hk).
    destruct (scan_entry p) as [[? w]|]; [reflexivity|].
    destruct (decide (kq = k)) as [->|]; [|reflexivity].
    exfalso. rewrite (scan_entry_key _ _ _ Hq) in Hnd.
    now apply NoDup_cons in Hnd as [Hnot _].
Qed.

Lemma self_width ref_text p :
  NoDup (omap item_key (scoped_tokens ref_text)) -> p ∈ scoped_tokens ref_text ->
  new_width_of (build_width_map_text ref_text) p =
    match scan_entry p with Some (_, w) => Some w | None => None end.
Proof.
  intros Hnd Hp. unfold new_width_of.
  destruct (item_key p) as [k|] eqn:Hk.
  - rewrite table_lookup. unfold entries. now apply last_entry_own.
  - unfold scan_entry. now rewrite Hk.
Qed.

(** X8: when every key (scope, Id) occurs once in a document, merging the
    document with the table scanned from it gives the document back, and
    the count is the number of entries of the table's scan. *)
Theorem self_merge_identity (ref_text : text) :
  NoDup (omap item_key (scoped_tokens ref_text)) ->
  patched ref_text (build_width_map_text ref_text) = ref_text /\
  reported ref_text (build_width_map_text ref_text) = length (entries ref_text).
Proof.
  intros Hnd. split.
  - apply patched_fixed. apply Forall_forall. intros p Hp.
    unfold emit. rewrite (self_width _ _ Hnd Hp).
    destruct (scan_entry p) as [[k w]|] eqn:Hs; [|reflexivity].
    apply scan_entry_width in Hs as (m & Hm & ->). now apply edit_same.
  - rewrite reported_eq. unfold entries.
    assert (H : Forall (fun p => keyed (build_width_map_text ref_text) p =
                                 match scan_entry p with Some _ => true | None => false end)
                       (scoped_tokens ref_text)).
    { apply Forall_forall. intros p Hp. unfold keyed.
      rewrite (self_width _ _ Hnd Hp). now destruct (scan_entry p) as [[k w]|]. }
    clear Hnd. induction H as [|p ps Hp _ IH]; [reflexivity|].
    rewrite filter_cons. cbn [omap list_omap].
    destruct (scan_entry p) as [e|].
    + rewrite decide_True by exact Hp. cbn [length]. now rewrite IH.
    + rewrite decide_False by (rewrite Hp; discriminate). exact IH.
Qed.

Lemma self_merge_identity_witness :
  patched doc_form (build_width_map_text doc_form) = doc_form /\
  reported doc_form (build_width_map_text doc_form) = length (entries doc_form).
Proof.
  apply self_merge_identity.
  eval_list (omap item_key (scoped_tokens doc_form)). compute_done.
Defined.

(** * What the scanned table can hold *)

Lemma last_entry_elem k l w : last_entry k l = Some w -> (k, w) ∈ l.
Proof.
  induction l as [|[k' v] l IH]; cbn [last_entry]; [discriminate|].
  destruct (last_entry k l) as [v'|].
  - intros [= ->]. right. now apply IH.
  - destruct (decide (k' = k)) as [->|]; [|discriminate]. intros [= ->]. left.
Qed.

(** In a text that ends with its only closing bracket, nothing follows a
    closing bracket. *)
Lemma gt_only_last (y A B : text) :
  (">"%char ∉ y) -> y ++ lit ">" = A ++ ">"%char :: B -> B = [].
Proof.
  intros Hy H. change (lit ">") with (">"%char :: []) in H.
  destruct (decide (">"%char ∈ A)) as [Hin|Hin].
  - apply list_elem_of_split_l in Hin as (A1 & A2 & -> & HA1).
    rewrite <- app_assoc in H. cbn [app] in H.
    apply split_first in H as [_ H]; [|exact Hy|exact HA1].
    now destruct A2.
  - now apply split_first in H as [_ <-].
Qed.

Lemma attr_value_no_gt n x i v :
  attr_at n (ls_text x) i v -> (">"%char ∉ x) -> ">"%char ∉ v.
Proof.
  intros (_ & _ & r & Hr) Hx Hin.
  apply list_elem_of_split in Hin as (v1 & v2 & ->).
  assert (E : (lit "<LocalizedString" ++ x) ++ lit ">" =
              (take i (ls_text x) ++ (n ++ lit "=" ++ [dq]) ++ v1) ++
              ">"%char :: (v2 ++ dq :: r)).
  { transitivity (take i (ls_text x) ++ drop i (ls_text x)).
    - rewrite take_drop. unfold ls_text. now rewrite <- !app_assoc.
    - rewrite Hr. now rewrite <- !app_assoc. }
  apply gt_only_last in E; [now destruct v2|].
  rewrite elem_of_app. intros [H|H]; [revert H; compute_done|now apply Hx].
Qed.

Lemma slice_app_l (l r : text) i j : i <= j <= length l ->
  slice (l ++ r) i j = slice l i j.
Proof.
  intros H. unfold slice. rewrite drop_app_le by lia.
  apply take_app_le. rewrite length_drop. lia.
Qed.

(** The scope a token sets is the old one or a non-empty text without
    double quotes. *)
Lemma next_scope_ok cg t g : next_scope cg t = Some g ->
  (g <> [] /\ dq ∉ g) \/ cg = Some g.
Proof.
  unfold next_scope.
  destruct (re_match group_open_re t) as [m|] eqn:Hm.
  - intros [= <-]. left.
    change (try_at group_open_re (cur t 0) = Some m) in Hm.
    apply try_at_Some in Hm as (c' & Hl & _).
    apply gopen_lang_inv in Hl as (a & v & b & r & Hd & Hok & _ & Hcs).
    change (drop 0 t) with t in Hd. unfold group. rewrite Hcs.
    cbn [cap_lookup Nat.eqb]. rewrite Hd.
    rewrite slice_app_l by (rewrite gopen_text_length; lia).
    change (0 + 6 + length a + 4) with (6 + length a + 4).
    rewrite gopen_group. now destruct Hok as (_ & ? & ? & _).
  - destruct (re_match group_close_re t); [discriminate|]. now right.
Qed.

Lemma scoped_scope_ok ts : forall cg,
  match cg with Some g => g <> [] /\ dq ∉ g | None => True end ->
  Forall (fun p => match p.1 with Some g => g <> [] /\ dq ∉ g | None => True end)
         (scoped cg ts).
Proof.
  induction ts as [|t ts IH]; intros cg Hcg; [constructor|].
  cbn [scoped]. constructor; [exact Hcg|]. apply IH.
  destruct (next_scope cg t) as [g|] eqn:Hn; [|exact I].
  apply next_scope_ok in Hn as [H| ->]; [exact H|exact Hcg].
Qed.

(** X9: every entry of the table the scanner builds has a width and an Id
    without double quote and without closing bracket, and a scope that is
    not empty and has no double quote. *)
Theorem scanned_entries_plain (ref_text : text) (k : text * text) (w : text) :
  build_width_map_text ref_text !! k = Some w ->
  (dq ∉ w) /\ (">"%char ∉ w) /\ (dq ∉ k.2) /\ (">"%char ∉ k.2) /\
  k.1 <> [] /\ (dq ∉ k.1).
Proof.
  rewrite table_lookup. intros H%last_entry_elem.
  unfold entries in H. apply list_elem_of_omap in H as ([cg t] & Hp & Hs).
  assert (Hsc : match cg with Some g => g <> [] /\ dq ∉ g | None => True end).
  { pose proof (scoped_scope_ok (tokens ref_text) None I) as Hall.
    rewrite Forall_forall in Hall. exact (Hall _ Hp). }
  assert (Ht : t ∈ tokens ref_text).
  { unfold scoped_tokens in Hp. rewrite <- (scoped_snd (tokens ref_text) None).
    apply (list_elem_of_fmap_2 snd _ _ Hp). }
  pose proof (tokens_shape ref_text) as Hsh. rewrite Forall_forall in Hsh.
  specialize (Hsh _ Ht).
  unfold scan_entry, item_key in Hs. cbn [fst snd] in Hs.
  destruct cg as [g|]; [|discriminate].
  destruct (is_item t) eqn:Hi; [|discriminate].
  apply is_item_shape in Hi as (x & -> & Hx & _); [|exact Hsh].
  destruct (re_search id_attr_re (ls_text x)) as [id_m|] eqn:Hid; [|discriminate].
  destruct (re_search width_attr_re (ls_text x)) as [w_m|] eqn:Hw; [|discriminate].
  injection Hs as <- <-. cbn [fst snd].
  rewrite id_attr_re_eq in Hid. rewrite width_attr_re_eq in Hw.
  apply attr_search_Some in Hid as (i & v & -> & _ & Hai & _).
  apply attr_search_Some in Hw as (j & u & -> & _ & Haw & _).
  rewrite (attr_group _ _ _ _ Hai), (attr_group _ _ _ _ Haw).
  pose proof (attr_value_no_gt _ _ _ _ Hai Hx) as G1.
  pose proof (attr_value_no_gt _ _ _ _ Haw Hx) as G2.
  destruct Hai as (_ & Q1 & _). destruct Haw as (_ & Q2 & _).
  destruct Hsc as [S1 S2]. auto 10.
Qed.

Lemma scanned_entries_plain_witness :
  (dq ∉ lit "50") /\ (">"%char ∉ lit "50") /\ (dq ∉ lit "OkButton") /\
  (">"%char ∉ lit "OkButton") /\ lit "Dialog1" <> [] /\ (dq ∉ lit "Dialog1").
Proof.
  apply (scanned_entries_plain doc_reference (lit "Dialog1", lit "OkButton") (lit "50")).
  vm_compute. reflexivity.
Defined.

(** * Reading back what was written *)

Lemma width_of_item l e w : Forall attr_ok l -> end_ok e ->
  first_value (lit "Width") l = Some w ->
  exists m, re_search width_attr_re (item_text l e) = Some m /\
    group (item_text l e) m 1 = w.
Proof.
  intros Hl He Hv. destruct Width_word as [Hn Hne].
  pose proof (first_value_spec (lit "Width") l) as Hs. rewrite Hv in Hs.
  destruct Hs as (l1 & a & l2 & -> & Ha & <- & Hl1).
  eexists. split.
  - rewrite width_attr_re_eq. now apply attr_search_first.
  - apply attr_group. now apply attr_at_item.
Qed.

Lemma scan_rewritten t w g id : attr_tag t -> value_ok w -> id_of t = Some id ->
  scan_entry (Some g, edit_tag t w) = Some ((g, id), w).
Proof.
  intros (l & e & -> & Hl & He) Hw Hid.
  destruct (edit_item l e w Hl He Hw) as (l' & Hed & Hl' & Hid' & Hwd).
  rewrite Hed. unfold scan_entry. rewrite item_key_id. cbn [snd].
  rewrite (full_item_is_item _ (item_full _ _ Hl' He)).
  rewrite (id_of_item _ _ Hl' He), Hid', <- (id_of_item _ _ Hl He), Hid.
  cbn [option_map].
  destruct (width_of_item l' e w Hl' He Hwd) as (m & -> & ->). reflexivity.
Qed.

(** X10: rewriting a tag in the usual form with a width [w] that can stand
    between quotes gives a tag in the usual form with the same Id, which
    the scanner reads as an entry with that Id and the width [w]. *)
Theorem rewritten_tag_scans_back (t w : text) :
  attr_tag t -> value_ok w ->
  attr_tag (edit_tag t w) /\ id_of (edit_tag t w) = id_of t /\
  (forall g id, id_of t = Some id ->
     scan_entry (Some g, edit_tag t w) = Some ((g, id), w)).
Proof.
  intros Ht Hw. split; [|split].
  - destruct Ht as (l & e & -> & Hl & He).
    destruct (edit_item l e w Hl He Hw) as (l' & Hed & Hl' & _).
    exists l', e. auto.
  - now destruct (attr_tag_stable t w Ht Hw) as (_ & Hid & _).
  - intros g id Hid. now apply scan_rewritten.
Qed.

Lemma tag_width_usual : attr_tag tag_width.
Proof.
  exists [Attr (lit " ") (lit "Id") (lit "a"); Attr (lit " ") (lit "Width") (lit "5");
          Attr (lit " ") (lit "MinWidth") (lit "3");
          Attr (lit " ") (lit "Height") (lit "2")], (lit "/").
  split; [reflexivity|]. split; [repeat (constructor; [attr_ok_tac|]); constructor|].
  exists [], (lit "/"). split; [reflexivity|]. split; [constructor|now right].
Qed.

Lemma rewritten_tag_scans_back_witness :
  attr_tag (edit_tag tag_width (lit "80")) /\
  id_of (edit_tag tag_width (lit "80")) = id_of tag_width /\
  (forall g id, id_of tag_width = Some id ->
     scan_entry (Some g, edit_tag tag_width (lit "80")) = Some ((g, id), lit "80")).
Proof.
  apply (rewritten_tag_scans_back tag_width (lit "80")).
  - exact tag_width_usual.
  - split; [compute_done|split; compute_done].
Defined.

(** * Scanning a patched document *)

Lemma last_entry_is_Some k l w : (k, w) ∈ l -> is_Some (last_entry k l).
Proof.
  induction l as [|[k' v] l IH]; intros Hin; [now apply elem_of_nil in Hin|].
  cbn [last_entry]. apply elem_of_cons in Hin as [[= <- <-]|Hin].
  - destruct (last_entry k l); [now eexists|]. rewrite decide_True by reflexivity.
    now eexists.
  - destruct (IH Hin) as [v' ->]. now eexists.
Qed.

Lemma last_entry_all k l w :
  (k, w) ∈ l -> (forall v, (k, v) ∈ l -> v = w) -> last_entry k l = Some w.
Proof.
  intros Hin Hall. destruct (last_entry_is_Some _ _ _ Hin) as [v Hv].
  rewrite Hv. f_equal. apply Hall. now apply last_entry_elem.
Qed.

(** What the patcher emits for a token has the key of the token. *)
Lemma emit_key wm cg t :
  (forall w, new_width_of wm (cg, t) = Some w -> stable_tag t w) ->
  item_key (cg, emit wm (cg, t)) = item_key (cg, t).
Proof.
  intros Hst. unfold emit. cbn [snd].
  destruct (new_width_of wm (cg, t)) as [w|] eqn:Hw; [|reflexivity].
  destruct (Hst w eq_refl) as (Hfull & Hid & _).
  rewrite !item_key_id. destruct cg; [|reflexivity].
  now rewrite (keyed_is_item _ _ _ _ Hw), (full_item_is_item _ Hfull), Hid.
Qed.

(** The tokens of the patched text are what the patcher emitted. *)
Lemma patched_scoped_tokens src wm :
  Forall (fun g => group_free g = true) (gaps src) ->
  Forall (fun t => starts_with (lit "<Group") t = true -> plain_open t) (tokens src) ->
  Forall (fun p => forall w, new_width_of wm p = Some w -> stable_tag p.2 w)
         (scoped_tokens src) ->
  scoped_tokens (patched src wm) =
    map (fun p => (p.1, emit wm p)) (scoped_tokens src).
Proof.
  intros Hgaps Hopen Hstable.
  assert (Htok : tokens (patched src wm) = map (emit wm) (scoped_tokens src)).
  { rewrite patched_eq. unfold tokens at 1. rewrite finditer_from_0.
    apply (weave_tokens src 0 _ (finditer_toks src) ltac:(lia) _ []).
    - unfold scoped_tokens. rewrite length_map, scoped_length.
      unfold tokens. now rewrite length_map.
    - apply emit_sure; [apply tokens_shape|exact Hopen|exact Hstable].
    - exact Hgaps. }
  unfold scoped_tokens at 1. rewrite Htok. now apply scoped_emit.
Qed.

(** X11: under the conditions of idempotence (widths that can stand
    between quotes, no group tag starting between the tokens, scope-open
    tags with a single Id text, rewritten tags in the usual form), scanning
    the patched text gives, for every key of the table that occurs in the
    source, the width the table holds for it. *)
Theorem merged_widths_scan_back (src : text) (wm : width_table) (k : text * text)
    (w : text) :
  map_Forall (fun _ w => value_ok w) wm ->
  Forall (fun g => group_free g = true) (gaps src) ->
  Forall (fun t => starts_with (lit "<Group") t = true -> plain_open t) (tokens src) ->
  Forall (fun p => keyed wm p = true -> attr_tag p.2) (scoped_tokens src) ->
  wm !! k = Some w -> k ∈ omap item_key (scoped_tokens src) ->
  build_width_map_text (patched src wm) !! k = Some w.
Proof.
  intros Hwm Hgaps Hopen Htags Hk Hin.
  assert (Hstable : Forall (fun p => forall w, new_width_of wm p = Some w ->
                                     stable_tag p.2 w) (scoped_tokens src)).
  { eapply Forall_impl; [exact Htags|]. intros p Hp w' Hw'.
    apply attr_tag_stable.
    - apply Hp. unfold keyed. now rewrite Hw'.
    - unfold new_width_of in Hw'. destruct (item_key p) as [k'|]; [|discriminate].
      exact (Hwm k' w' Hw'). }
  rewrite table_lookup. unfold entries.
  rewrite patched_scoped_tokens by assumption.
  rewrite Forall_forall in Hstable, Htags.
  assert (Hown : forall p, p ∈ scoped_tokens src -> item_key p = Some k ->
                 scan_entry (p.1, emit wm p) = Some (k, w)).
  { intros [cg t] Hp Hkey. cbn [fst].
    assert (Hnw : new_width_of wm (cg, t) = Some w)
      by (unfold new_width_of; now rewrite Hkey).
    unfold emit. rewrite Hnw. cbn [snd].
    rewrite item_key_id in Hkey. destruct cg as [g|]; [|discriminate].
    destruct (is_item t); [|discriminate].
    destruct (id_of t) as [id|] eqn:Hid; [|discriminate].
    injection Hkey as <-. apply scan_rewritten; [| |exact Hid].
    - apply (Htags _ Hp). unfold keyed. now rewrite Hnw.
    - exact (Hwm _ _ Hk). }
  apply last_entry_all.
  - apply list_elem_of_omap in Hin as (p & Hp & Hkey).
    apply list_elem_of_omap. exists (p.1, emit wm p). split; [|now apply Hown].
    apply (list_elem_of_fmap_2 (fun p => (p.1, emit wm p)) _ _ Hp).
  - intros v Hv. apply list_elem_of_omap in Hv as (q & Hq & Hs).
    apply list_elem_of_fmap in Hq as ([cg t] & -> & Hp). cbn [fst] in Hs.
    pose proof (scan_entry_key _ _ _ Hs) as Hkey.
    rewrite emit_key in Hkey by (apply (Hstable _ Hp)).
    pose proof (Hown _ Hp Hkey) as Ho. cbn [fst] in Ho.
    rewrite Ho in Hs. now injection Hs as ->.
Qed.

Lemma merged_widths_scan_back_witness :
  build_width_map_text (patched doc_form table_form) !! (lit "Dialog1", lit "Help") =
    Some (lit "70").
Proof.
  apply merged_widths_scan_back.
  - exact table_form_ok.
  - exact doc_form_gaps.
  - exact doc_form_opens.
  - exact doc_form_tags.
  - vm_compute. reflexivity.
  - eval_list (omap item_key (scoped_tokens doc_form)). compute_done.
Defined.

(** * Scopes do not nest *)



(** * Which entries of the table matter *)

Lemma filter_length_ext {A} (f g : A -> bool) (l : list A) :
  Forall (fun x => f x = g x) l ->
  length (filter (fun x => f x = true) l) = length (filter (fun x => g x = true) l).
Proof.
  induction 1 as [|x l Hx _ IH]; [reflexivity|].
  rewrite !filter_cons. rewrite Hx.
  destruct (decide (g x = true)); cbn [length]; now rewrite IH.
Qed.

(** X13: the output and the count depend on the table only through the
    keys that occur in the source: two tables that agree on them give the
    same output and the same count. *)
Theorem table_matters_on_source_keys (src : text) (wm wm' : width_table) :
  (forall k, k ∈ omap item_key (scoped_tokens src) -> wm !! k = wm' !! k) ->
  patched src wm = patched src wm' /\ reported src wm = reported src wm'.
Proof.
  intros Hagree.
  assert (Hnw : Forall (fun p => new_width_of wm p = new_width_of wm' p)
                       (scoped_tokens src)).
  { apply Forall_forall. intros p Hp. unfold new_width_of.
    destruct (item_key p) as [k|] eqn:Hk; [|reflexivity].
    apply Hagree. apply list_elem_of_omap. eauto. }
  split.
  - rewrite !patched_eq. f_equal. apply Forall_fmap_ext_1.
    eapply Forall_impl; [exact Hnw|]. intros p Hp. unfold emit. now rewrite Hp.
  - rewrite !reported_eq. apply filter_length_ext.
    eapply Forall_impl; [exact Hnw|]. intros p Hp. unfold keyed. now rewrite Hp.
Qed.

Lemma table_matters_on_source_keys_witness :
  patched doc_form table_form =
    patched doc_form (<[ (lit "Dialog2", lit "Ok") := lit "1" ]> table_form) /\
  reported doc_form table_form =
    reported doc_form (<[ (lit "Dialog2", lit "Ok") := lit "1" ]> table_form).
Proof.
  apply table_matters_on_source_keys.
  intros k Hk. symmetry. apply lookup_insert_ne. intros <-. revert Hk.
  eval_list (omap item_key (scoped_tokens doc_form)). compute_done.
Defined.

(** X14: on three paths [main] ends normally exactly when the reference
    and the source can be read and the output can be written. *)
Theorem main_ends_normally_iff (prog source reference output : text) (w : world) :
  (main [prog; source; reference; output] w).2 = Ok tt <->
  is_Some (w_files w !! reference) /\ is_Some (w_files w !! source) /\
  output ∉ w_readonly w.
Proof.
  unfold main, build_width_map, apply_widths_surgically.
  unfold mbind, io_bind, mret, io_ret, read_file, write_file, print, log_open.
  cbn [w_files w_readonly w_stdout w_opened].
  destruct (w_files w !! reference) as [ref_text|];
    cbn [w_files w_readonly w_stdout w_opened snd].
  2:{ split; [discriminate|]. now intros [[? ?] _]. }
  destruct (w_files w !! source) as [src_text|];
    cbn [w_files w_readonly w_stdout w_opened snd].
  2:{ split; [discriminate|]. now intros (_ & [? ?] & _). }
  destruct (apply_widths_text src_text (build_width_map_text ref_text)) as [res n].
  cbn [w_files w_readonly w_stdout w_opened].
  destruct (decide (output ∈ w_readonly w)) as [Hin|Hin];
    cbn [w_files w_readonly w_stdout w_opened snd].
  - split; [discriminate|]. now intros (_ & _ & ?).
  - split; [|reflexivity]. intros _. repeat split; eauto.
Qed.
